(** * Verilog Master Module Maker: interface extraction, netlist and synthesis

    A shallow embedding of [MMMmain.py]: the regular-expression based
    SystemVerilog interface parser ([SystemVerilogParser]), the port
    bookkeeping of [ModuleItem], the wire list of [DesignCanvas] and the
    code generator of [SystemVerilogDesigner], followed by the properties
    of the design specification that were checked against them.

    Text is modelled as [string] over ASCII characters; Python objects with
    identity ([ModuleItem], [WireItem]) carry an object identifier; Python
    dictionaries whose iteration order is observable are association lists
    in insertion order. *)

From Stdlib Require Import String Ascii List Arith Lia Bool ZArith FinFun.
From Stdlib Require Import DecimalString DecimalNat Decimal.
From stdpp Require Import base option list gmap strings.

Local Open Scope list_scope.

(** ** Characters and strings as Python sees them *)

Module Py.

(** [str.isspace] and the regex class [\s] agree on ASCII: tab, line feed,
    vertical tab, form feed, carriage return, the four separators
    [0x1c]..[0x1f] and the space. *)
Definition is_space (c : ascii) : bool :=
  let n := nat_of_ascii c in
  ((9 <=? n) && (n <=? 13)) || ((28 <=? n) && (n <=? 32)).

Definition is_digit (c : ascii) : bool :=
  let n := nat_of_ascii c in (48 <=? n) && (n <=? 57).

Definition is_alpha (c : ascii) : bool :=
  let n := nat_of_ascii c in
  ((65 <=? n) && (n <=? 90)) || ((97 <=? n) && (n <=? 122)).

(** The regex class [\w]. *)
Definition is_word (c : ascii) : bool :=
  is_alpha c || is_digit c || Ascii.eqb c "_"%char.

Definition newline : ascii := ascii_of_nat 10.
Definition nl : string := String newline "".

(** [.] without [re.DOTALL]. *)
Definition not_newline (c : ascii) : bool := negb (Ascii.eqb c newline).
(** [.] with [re.DOTALL]. *)
Definition any_char (c : ascii) : bool := true.
Definition is_char (a c : ascii) : bool := Ascii.eqb a c.
Definition not_char (a c : ascii) : bool := negb (Ascii.eqb a c).

Fixpoint lstrip (s : string) : string :=
  match s with
  | String c s' => if is_space c then lstrip s' else s
  | EmptyString => EmptyString
  end.

(** [s.rstrip()]: a character is dropped when it is whitespace and all that
    follows it was dropped. *)
Fixpoint rstrip (s : string) : string :=
  match s with
  | String c s' =>
      match rstrip s' with
      | EmptyString => if is_space c then EmptyString else String c EmptyString
      | r => String c r
      end
  | EmptyString => EmptyString
  end.

Definition strip (s : string) : string := rstrip (lstrip s).

(** [x in s] for a character. *)
Fixpoint contains_char (a : ascii) (s : string) : bool :=
  match s with
  | String c s' => Ascii.eqb a c || contains_char a s'
  | EmptyString => false
  end.

Fixpoint all_chars (p : ascii -> bool) (s : string) : bool :=
  match s with
  | String c s' => p c && all_chars p s'
  | EmptyString => true
  end.

Fixpoint any_chars (p : ascii -> bool) (s : string) : bool :=
  match s with
  | String c s' => p c || any_chars p s'
  | EmptyString => false
  end.

(** [s.isdigit()]: non-empty and digits only. *)
Definition isdigit (s : string) : bool :=
  match s with
  | EmptyString => false
  | _ => all_chars is_digit s
  end.

(** [s[:n]]. *)
Fixpoint take (n : nat) (s : string) : string :=
  match n, s with
  | S n', String c s' => String c (take n' s')
  | _, _ => EmptyString
  end.

(** [s.endswith(",")] and [s[:-1]]. *)
Fixpoint ends_with_char (a : ascii) (s : string) : bool :=
  match s with
  | String c EmptyString => Ascii.eqb c a
  | String _ s' => ends_with_char a s'
  | EmptyString => false
  end.

Definition drop_last (s : string) : string := take (String.length s - 1) s.

(** [sep.join(l)]. *)
Definition join (sep : string) (l : list string) : string := String.concat sep l.

(** [s.split(sep)] for a one-character separator: the pieces between the
    separators, at least one piece. *)
Fixpoint split_char (sep : ascii) (s : string) : list string :=
  match s with
  | EmptyString => [EmptyString]
  | String c s' =>
      if Ascii.eqb c sep then EmptyString :: split_char sep s'
      else match split_char sep s' with
           | p :: ps => String c p :: ps
           | [] => [String c EmptyString]
           end
  end.

(** [x in l] for a list of strings. *)
Definition mem (x : string) (l : list string) : bool :=
  existsb (String.eqb x) l.

(** [str(n)] for a non-negative integer. *)
Definition str_of_nat (n : nat) : string :=
  NilEmpty.string_of_uint (Nat.to_uint n).

End Py.

(** ** The fragment of Python's [re] the program uses

    Backtracking matcher in continuation-passing style: alternatives are
    tried in the order Python tries them (greedy repetition longest first,
    lazy repetition shortest first, [?] first with then without its
    operand), so the first success is Python's match. *)

Module Re.

Inductive regex : Type :=
| Lit (s : string)                              (* literal text *)
| Cls (p : ascii -> bool)                       (* one character of a class *)
| Rep (greedy plus : bool) (p : ascii -> bool)  (* class*, class+, class*?, class+? *)
| Seq (r1 r2 : regex)
| Alt (r1 r2 : regex)
| Opt (r : regex)                               (* r? *)
| Grp (n : nat) (r : regex).                    (* capture group number n *)

(** Capture groups that took part in the match, most recent first. *)
Definition caps := list (nat * string).

Fixpoint cap_lookup (n : nat) (c : caps) : option string :=
  match c with
  | (m, s) :: c' => if Nat.eqb n m then Some s else cap_lookup n c'
  | [] => None
  end.

(** [m.group(n)] as [re.findall] reports it: empty when the group took no part. *)
Definition group (n : nat) (c : caps) : string :=
  match cap_lookup n c with Some s => s | None => "" end.

Fixpoint strip_prefix (l s : string) : option string :=
  match l, s with
  | EmptyString, _ => Some s
  | String a l', String b s' => if Ascii.eqb a b then strip_prefix l' s' else None
  | String _ _, EmptyString => None
  end.

(** The text consumed between [s] and its suffix [s']. *)
Definition consumed (s s' : string) : string :=
  Py.take (String.length s - String.length s') s.

Section Matcher.
Context {A : Type}.

Fixpoint rep_greedy (p : ascii -> bool) (s : string) (k : string -> option A)
  : option A :=
  match s with
  | String c s' =>
      if p c then
        match rep_greedy p s' k with
        | Some x => Some x
        | None => k s
        end
      else k s
  | EmptyString => k s
  end.

Fixpoint rep_lazy (p : ascii -> bool) (s : string) (k : string -> option A)
  : option A :=
  match k s with
  | Some x => Some x
  | None =>
      match s with
      | String c s' => if p c then rep_lazy p s' k else None
      | EmptyString => None
      end
  end.

Definition rep (greedy : bool) := if greedy then rep_greedy else rep_lazy.

Fixpoint rmatch (r : regex) (s : string) (c : caps)
    (k : string -> caps -> option A) : option A :=
  match r with
  | Lit l =>
      match strip_prefix l s with
      | Some s' => k s' c
      | None => None
      end
  | Cls p =>
      match s with
      | String a s' => if p a then k s' c else None
      | EmptyString => None
      end
  | Rep g plus p =>
      if plus then
        match s with
        | String a s' => if p a then rep g p s' (fun s2 => k s2 c) else None
        | EmptyString => None
        end
      else rep g p s (fun s2 => k s2 c)
  | Seq r1 r2 => rmatch r1 s c (fun s1 c1 => rmatch r2 s1 c1 k)
  | Alt r1 r2 =>
      match rmatch r1 s c k with
      | Some x => Some x
      | None => rmatch r2 s c k
      end
  | Opt r1 =>
      match rmatch r1 s c k with
      | Some x => Some x
      | None => k s c
      end
  | Grp n r1 => rmatch r1 s c (fun s1 c1 => k s1 ((n, consumed s s1) :: c1))
  end.
End Matcher.

(** A successful match: the matched text, the groups, what follows. *)
Record found := { matched : string; groups : caps; rest : string }.

(** [re.match(r, s)], also [re.search] of a pattern anchored by [^]. *)
Definition re_match (r : regex) (s : string) : option found :=
  rmatch r s [] (fun s' c =>
    Some {| matched := consumed s s'; groups := c; rest := s' |}).

(** [re.search(r, s)]: the leftmost match, with the text before it. *)
Fixpoint re_search (r : regex) (s : string) : option (string * found) :=
  match re_match r s with
  | Some m => Some ("", m)
  | None =>
      match s with
      | String c s' =>
          match re_search r s' with
          | Some (pre, m) => Some (String c pre, m)
          | None => None
          end
      | EmptyString => None
      end
  end.

(** [re.sub(r, repl, s)] for a pattern that matches no empty text: after a
    match of [n] characters the scan resumes [n] characters later; [skip]
    counts the characters of the current match still to be dropped. *)
Fixpoint sub_from (r : regex) (repl : string) (skip : nat) (s : string) : string :=
  match s with
  | EmptyString => EmptyString
  | String c s' =>
      match skip with
      | S n => sub_from r repl n s'
      | O =>
          match re_match r s with
          | Some m =>
              match String.length (matched m) with
              | S n => repl +:+ sub_from r repl n s'
              | O => String c (sub_from r repl O s')
              end
          | None => String c (sub_from r repl O s')
          end
      end
  end.

Definition re_sub (r : regex) (repl : string) (s : string) : string :=
  sub_from r repl 0 s.

(** [re.finditer(r, s)] / [re.findall(r, s)]: the successive matches that
    do not overlap, left to right (same convention as [sub_from]). *)
Fixpoint finditer_from (r : regex) (skip : nat) (s : string) : list found :=
  match s with
  | EmptyString => []
  | String c s' =>
      match skip with
      | S n => finditer_from r n s'
      | O =>
          match re_match r s with
          | Some m =>
              match String.length (matched m) with
              | S n => m :: finditer_from r n s'
              | O => finditer_from r O s'
              end
          | None => finditer_from r O s'
          end
      end
  end.

Definition re_finditer (r : regex) (s : string) : list found :=
  finditer_from r 0 s.

(** A pattern written as the sequence of its pieces. *)
Definition cat (rs : list regex) : regex := fold_right Seq (Lit "") rs.

(** Frequent pieces. *)
Definition ws_plus : regex := Rep true true Py.is_space.     (* \s+ *)
Definition ws_star : regex := Rep true false Py.is_space.    (* \s* *)

End Re.

(** ** SystemVerilogParser *)

Module SystemVerilogParser.
Import Re.

(** [(?:wire|reg|logic)] *)
Definition net_type : regex := Alt (Lit "wire") (Alt (Lit "reg") (Lit "logic")).
(** [(?:input|output|inout)] *)
Definition direction_kw : regex := Alt (Lit "input") (Alt (Lit "output") (Lit "inout")).

(** [r'\[.*?\]'] *)
Definition dimension_re : regex :=
  cat [Lit "["; Rep false false Py.not_newline; Lit "]"].

(** [r'\[(.*?)\]'] *)
Definition width_re : regex :=
  cat [Lit "["; Grp 1 (Rep false false Py.not_newline); Lit "]"].

Definition extract_port_width (port_decl : string) : string :=
  match re_search width_re port_decl with
  | Some (_, m) => group 1 (groups m)
  | None => ""
  end.

Definition extract_port_name (port_text : string) : string :=
  let port_text := re_sub dimension_re "" port_text in
  Py.strip port_text.

Definition snoc (s : string) (c : ascii) : string := s +:+ String c "".

Definition is_empty (s : string) : bool :=
  match s with EmptyString => true | _ => false end.

(** The loop of [split_comma_list] over the characters of [port_list + ','];
    [bracket_depth] is a Python integer and may go below zero. *)
Fixpoint split_loop (chars : string) (ports : list string) (current : string)
    (bracket_depth : Z) : list string :=
  match chars with
  | EmptyString => ports
  | String char chars' =>
      if Ascii.eqb char "[" then
        split_loop chars' ports (snoc current char) (bracket_depth + 1)
      else if Ascii.eqb char "]" then
        split_loop chars' ports (snoc current char) (bracket_depth - 1)
      else if Ascii.eqb char "," && (bracket_depth =? 0)%Z then
        let ports :=
          if negb (is_empty (Py.strip current)) then
            let port_name := extract_port_name (Py.strip current) in
            if negb (is_empty port_name) then ports ++ [port_name] else ports
          else ports in
        split_loop chars' ports "" bracket_depth
      else
        split_loop chars' ports (snoc current char) bracket_depth
  end.

Definition split_comma_list (port_list : string) : list string :=
  split_loop (port_list +:+ ",") [] "" 0.

(** [f"{p}[{width}]"] *)
Definition with_width (width p : string) : string := p +:+ "[" +:+ width +:+ "]".

(** [r'^(?:wire|reg|logic)\s+'] *)
Definition type_re : regex := cat [net_type; ws_plus].
(** [r'^\s*\[(.*?)\]\s*'] *)
Definition dim_re : regex :=
  cat [ws_star; Lit "["; Grp 1 (Rep false false Py.not_newline); Lit "]"; ws_star].
(** [r'^\s*(?:input|output|inout)\s+'] *)
Definition next_direction_re : regex := cat [ws_star; direction_kw; ws_plus].

(** The inner [while end_pos < len(full_port_list)] loop: the text of the
    group and the text from [end_pos] on. *)
Fixpoint scan_group (text : string) (bracket_depth : Z) : string * string :=
  match text with
  | EmptyString => ("", "")
  | String char text' =>
      if Ascii.eqb char "[" then
        let '(g, r) := scan_group text' (bracket_depth + 1) in (String char g, r)
      else if Ascii.eqb char "]" then
        let '(g, r) := scan_group text' (bracket_depth - 1) in (String char g, r)
      else if (bracket_depth =? 0)%Z && bool_decide (is_Some (re_match next_direction_re text))
      then ("", text)
      else
        let '(g, r) := scan_group text' bracket_depth in (String char g, r)
  end.

(** What follows a direction keyword, the same for the three directions:
    the ports of the group and the text at the new [cursor_pos]. *)
Definition direction_group (after_kw : string) : list string * string :=
  (* Skip type if present *)
  let s1 := match re_match type_re after_kw with
            | Some m => rest m
            | None => after_kw
            end in
  (* Extract width if present *)
  let '(width, s2) := match re_match dim_re s1 with
                      | Some m => (group 1 (groups m), rest m)
                      | None => ("", s1)
                      end in
  (* Find the end of this port declaration group *)
  let '(grp, s3) := scan_group s2 0 in
  let port_list := Py.strip grp in
  (* Handle potential trailing comma *)
  let port_list := if Py.ends_with_char "," port_list
                   then Py.drop_last port_list else port_list in
  let ports := split_comma_list port_list in
  let ports := if negb (is_empty width) then map (with_width width) ports else ports in
  (ports, s3).

Definition port_lists : Type := list string * list string * list string.

(** One turn of the [while cursor_pos < len(full_port_list)] loop at the
    text [s = full_port_list[cursor_pos:]]: [input] is looked for first,
    then [output], then [inout]; [None] when the cursor moves to the end. *)
Definition ansi_step (s : string) (acc : port_lists) : option (port_lists * string) :=
  let '(inputs, outputs, inouts) := acc in
  match re_search (cat [Lit "input"; ws_plus]) s with
  | Some (_, m) =>
      let '(ports, s') := direction_group (rest m) in
      Some ((inputs ++ ports, outputs, inouts), s')
  | None =>
      match re_search (cat [Lit "output"; ws_plus]) s with
      | Some (_, m) =>
          let '(ports, s') := direction_group (rest m) in
          Some ((inputs, outputs ++ ports, inouts), s')
      | None =>
          match re_search (cat [Lit "inout"; ws_plus]) s with
          | Some (_, m) =>
              let '(ports, s') := direction_group (rest m) in
              Some ((inputs, outputs, inouts ++ ports), s')
          | None => None
          end
      end
  end.

(** The cursor loop. The cursor only moves right, so the loop walks the
    text once: [skip] is the distance from the current character to the
    cursor. *)
Fixpoint ansi_loop (skip : nat) (s : string) (acc : port_lists) : port_lists :=
  match s with
  | EmptyString => acc
  | String _ s' =>
      match skip with
      | S n => ansi_loop n s' acc
      | O =>
          match ansi_step s acc with
          | Some (acc', s_next) =>
              ansi_loop (String.length s - String.length s_next - 1) s' acc'
          | None => acc
          end
      end
  end.

Definition parse_ansi_port_list (port_list_text : string) : port_lists :=
  let clean_port_list := Py.strip (re_sub ws_plus " " port_list_text) in
  let full_port_list := " " +:+ clean_port_list +:+ " " in
  ansi_loop 0 full_port_list ([], [], []).

(** [r'\([^()]*\)'] *)
Definition paren_re : regex :=
  cat [Lit "("; Rep true false (fun c => Py.not_char "(" c && Py.not_char ")" c); Lit ")"].

Definition parse_port_list (port_list_text : string) : list string :=
  let clean_port_list := Py.strip (re_sub ws_plus " " port_list_text) in
  let clean_port_list := re_sub paren_re "" clean_port_list in
  split_comma_list clean_port_list.

(** [r'<dir>\s+(?:wire|reg|logic)?\s*(?:\[(.*?)\])?\s*([\w\s,]+)\s*;'] *)
Definition block_re (dir : string) : regex :=
  cat [Lit dir; ws_plus; Opt net_type; ws_star;
       Opt (cat [Lit "["; Grp 1 (Rep false false Py.not_newline); Lit "]"]);
       ws_star;
       Grp 2 (Rep true true (fun c => Py.is_word c || Py.is_space c || Py.is_char "," c));
       ws_star; Lit ";"].

(** [re.findall(block_re, module_body)]: the pairs [(width, block)]. *)
Definition find_blocks (dir : string) (module_body : string) : list (string * string) :=
  map (fun m => (group 1 (groups m), group 2 (groups m)))
      (re_finditer (block_re dir) module_body).

(** The body of [for port in ports] for one direction. *)
Definition add_declared (port_names : list string) (width : string)
    (acc : list string) (port : string) : list string :=
  if Py.mem port port_names && negb (Py.mem port acc) then
    if negb (is_empty width) then acc ++ [with_width width port]
    else acc ++ [port]
  else acc.

(** [for width, block in blocks: for port in split_comma_list(block): ...] *)
Definition process_blocks (port_names : list string) (blocks : list (string * string))
    : list string :=
  fold_left (fun acc '(width, block) =>
               fold_left (add_declared port_names width) (split_comma_list block) acc)
            blocks [].

Definition parse_module_body (module_body : string) (port_names : list string)
    : port_lists :=
  let input_blocks := find_blocks "input" module_body in
  let output_blocks := find_blocks "output" module_body in
  let inout_blocks := find_blocks "inout" module_body in
  (process_blocks port_names input_blocks,
   process_blocks port_names output_blocks,
   process_blocks port_names inout_blocks).

End SystemVerilogParser.

(** ** Python dictionaries in insertion order *)

Module Dict.
Section Dict.
Context {K V : Type} `{EqDecision K}.

Definition t := list (K * V).

(** [k in d] *)
Definition mem (k : K) (d : t) : bool :=
  existsb (fun kv => bool_decide (kv.1 = k)) d.

(** [d.get(k)] *)
Fixpoint get (k : K) (d : t) : option V :=
  match d with
  | (k', v) :: d' => if decide (k' = k) then Some v else get k d'
  | [] => None
  end.

(** [d[k] = v]: an existing key keeps its place, a new key goes last. *)
Fixpoint set (k : K) (v : V) (d : t) : t :=
  match d with
  | (k', v') :: d' => if decide (k' = k) then (k', v) :: d' else (k', v') :: set k v d'
  | [] => [(k, v)]
  end.

(** [del d[k]] *)
Definition del (k : K) (d : t) : t :=
  filter (fun kv => kv.1 <> k) d.

Definition keys (d : t) : list K := map fst d.
Definition values (d : t) : list V := map snd d.
End Dict.
Global Arguments t : clear implicits.
End Dict.

(** ** ModuleItem *)

(** The [{"inputs": [...], "outputs": [...]}] dictionaries. *)
Record PortsDict := { inputs : list string; outputs : list string }.

(** A [ModuleItem] object; [item_id] stands for the identity of the Python
    object, which is what [==] compares on graphics items. *)
Record ModuleItem := {
  item_id : nat;
  name : string;
  ports : PortsDict;
  port_widths : gmap string string
}.

Module ModuleItemImpl.
Import Re.

(** [r'(\w+)(?:\[([^\]]+)\])?'] *)
Definition port_re : regex :=
  cat [Grp 1 (Rep true true Py.is_word);
       Opt (cat [Lit "["; Grp 2 (Rep true true (Py.not_char "]")); Lit "]"])].

(** The body of [for port in self.ports[port_type]]. *)
Definition parse_one (st : list string * gmap string string) (port : string)
    : list string * gmap string string :=
  let '(new_ports, widths) := st in
  match re_search port_re port with
  | Some (_, m) =>
      let port_name := group 1 (groups m) in
      let width := group 2 (groups m) in
      (new_ports ++ [port_name], <[port_name := width]> widths)
  | None => (new_ports ++ [port], <[port := ""]> widths)
  end.

Definition parse_port_widths (self : ModuleItem) : ModuleItem :=
  let '(new_inputs, widths) :=
    fold_left parse_one (inputs (ports self)) ([], port_widths self) in
  let '(new_outputs, widths) :=
    fold_left parse_one (outputs (ports self)) ([], widths) in
  {| item_id := item_id self; name := name self;
     ports := {| inputs := new_inputs; outputs := new_outputs |};
     port_widths := widths |}.

(** [ModuleItem(name, ports)]; the constructor stores [ports] itself, not a
    copy, so the caller's dictionary ends up as [ports] of the result. *)
Definition init (id : nat) (name : string) (ports : PortsDict) : ModuleItem :=
  parse_port_widths
    {| item_id := id; name := name; ports := ports; port_widths := ∅ |}.

(** [self.port_widths.get(port, "")] *)
Definition width_of (self : ModuleItem) (port : string) : string :=
  default "" (port_widths self !! port).

(** [f"[{self.port_widths[port]}]" if self.port_widths.get(port, "") else ""] *)
Definition width_text (self : ModuleItem) (port : string) : string :=
  if SystemVerilogParser.is_empty (width_of self port) then ""
  else "[" +:+ width_of self port +:+ "]".
End ModuleItemImpl.

(** ** WireItem and DesignCanvas

    Of the graphics scene only [modules] and [wires] are kept: positions,
    painting and the calls that add items to or remove them from the Qt
    scene do not enter what is generated. *)

Record WireItem := {
  wire_id : nat;
  start_module : ModuleItem;
  end_module : ModuleItem;
  start_port : string;
  end_port : string
}.

(** [a == b] on module items: object identity. *)
Definition same_module (a b : ModuleItem) : bool := Nat.eqb (item_id a) (item_id b).
Definition same_wire (a b : WireItem) : bool := Nat.eqb (wire_id a) (wire_id b).

(** [modules] is the dictionary from instance name to item, [wires] the list
    of wires; [next_id] is the identity the next created object gets. *)
Record DesignCanvas := {
  modules : Dict.t string ModuleItem;
  wires : list WireItem;
  next_id : nat
}.

Inductive warning : Type :=
| InputAlreadyConnected   (* "Input port already connected! Each input can only connect to one output." *)
| InvalidConnection.      (* "Invalid connection! Connect output to input." *)

Inductive exn : Type :=
| KeyError (k : string)
| ValueError
| OSError (msg : string).

Module DesignCanvasImpl.

Definition empty : DesignCanvas := {| modules := []; wires := []; next_id := 0 |}.

Definition get_module_type (module_name : string) : string :=
  if Py.contains_char "_" module_name
     && Py.isdigit (List.last (Py.split_char "_" module_name) "")
  then Py.join "_" (removelast (Py.split_char "_" module_name))
  else module_name.

(** [self.wires.remove(wire)]: the first element equal to [wire] goes;
    [None] is Python's [ValueError]. *)
Fixpoint remove_wire (wire : WireItem) (ws : list WireItem) : option (list WireItem) :=
  match ws with
  | [] => None
  | w :: ws' =>
      if same_wire w wire then Some ws'
      else match remove_wire wire ws' with
           | Some r => Some (w :: r)
           | None => None
           end
  end.

Inductive scene_item : Type :=
| IsModule (item : ModuleItem)
| IsWire (item : WireItem)
| IsOther.

Definition touches (item : ModuleItem) (wire : WireItem) : bool :=
  same_module (start_module wire) item || same_module (end_module wire) item.

(** [for wire in wires_to_remove: self.wires.remove(wire)]: the list as the
    loop leaves it, and the exception that stopped it, if any. *)
Fixpoint remove_wires (to_remove : list WireItem) (ws : list WireItem)
    : list WireItem * option exn :=
  match to_remove with
  | [] => (ws, None)
  | w :: rest =>
      match remove_wire w ws with
      | Some ws' => remove_wires rest ws'
      | None => (ws, Some ValueError)
      end
  end.

Definition with_wires (self : DesignCanvas) (ws : list WireItem) : DesignCanvas :=
  {| modules := modules self; wires := ws; next_id := next_id self |}.

(** The body of [for item in selected_items]. *)
Definition delete_item (self : DesignCanvas) (item : scene_item)
    : DesignCanvas * option exn :=
  match item with
  | IsModule item =>
      (* Remove all wires connected to this module *)
      let wires_to_remove := List.filter (touches item) (wires self) in
      match remove_wires wires_to_remove (wires self) with
      | (ws, Some e) => (with_wires self ws, Some e)
      | (ws, None) =>
          (* Remove module from dictionary and scene *)
          if Dict.mem (name item) (modules self) then
            ({| modules := Dict.del (name item) (modules self);
                wires := ws; next_id := next_id self |}, None)
          else (with_wires self ws, Some (KeyError (name item)))
      end
  | IsWire item =>
      match remove_wire item (wires self) with
      | Some ws => (with_wires self ws, None)
      | None => (self, Some ValueError)
      end
  | IsOther => (self, None)
  end.

(** [delete_selected_items]: the canvas as the call leaves it, and the
    exception when one escapes the loop. *)
Fixpoint delete_selected_items (self : DesignCanvas) (selected_items : list scene_item)
    : DesignCanvas * option exn :=
  match selected_items with
  | [] => (self, None)
  | item :: rest =>
      match delete_item self item with
      | (self', None) => delete_selected_items self' rest
      | (self', Some e) => (self', Some e)
      end
  end.

(** What [mouseReleaseEvent] carries from one candidate port to the next. *)
Record drag := {
  d_start_module : ModuleItem;
  d_start_port : string;
  valid_connection : bool;
  d_wires : list WireItem;
  d_next_id : nat;
  d_warnings : list warning
}.

(** The code run for a port [port] of [module] under the release point. *)
Definition release_on (st : drag) (module : ModuleItem) (port : string) : drag :=
  let '(start_module, start_port, module, port, valid) :=
    if Py.mem (d_start_port st) (outputs (ports (d_start_module st)))
       && Py.mem port (inputs (ports module))
    then (d_start_module st, d_start_port st, module, port, true)
    else if Py.mem (d_start_port st) (inputs (ports (d_start_module st)))
            && Py.mem port (outputs (ports module))
    then (module, port, d_start_module st, d_start_port st, true)
    else (d_start_module st, d_start_port st, module, port, valid_connection st) in
  if valid then
    let input_already_connected :=
      Py.mem port (inputs (ports module))
      && existsb (fun wire => same_module (end_module wire) module
                              && String.eqb (end_port wire) port) (d_wires st) in
    if negb input_already_connected then
      let wire := {| wire_id := d_next_id st;
                     start_module := start_module; end_module := module;
                     start_port := start_port; end_port := port |} in
      {| d_start_module := start_module; d_start_port := start_port;
         valid_connection := valid;
         d_wires := d_wires st ++ [wire];
         d_next_id := S (d_next_id st);
         d_warnings := d_warnings st |}
    else
      {| d_start_module := start_module; d_start_port := start_port;
         valid_connection := valid;
         d_wires := d_wires st; d_next_id := d_next_id st;
         d_warnings := d_warnings st ++ [InputAlreadyConnected] |}
  else
    {| d_start_module := start_module; d_start_port := start_port;
       valid_connection := valid;
       d_wires := d_wires st; d_next_id := d_next_id st;
       d_warnings := d_warnings st ++ [InvalidConnection] |}.

(** The body of [for module in self.modules.values()]; [hit module] is the
    first port of [module.port_positions] within reach of the release
    point, if any. *)
Definition release_step (hit : ModuleItem -> option string) (st : drag)
    (module : ModuleItem) : drag :=
  if same_module module (d_start_module st) then st   (* Skip self-connections *)
  else match hit module with
       | Some port => release_on st module port
       | None => st
       end.

(** [mouseReleaseEvent] for a left-button release while a wire is being
    drawn from [start_port] of [start_module]. *)
Definition mouseReleaseEvent (self : DesignCanvas) (start_module : ModuleItem)
    (start_port : string) (hit : ModuleItem -> option string)
    : DesignCanvas * list warning :=
  let st := fold_left (release_step hit) (Dict.values (modules self))
              {| d_start_module := start_module; d_start_port := start_port;
                 valid_connection := false;
                 d_wires := wires self; d_next_id := next_id self;
                 d_warnings := [] |} in
  ({| modules := modules self; wires := d_wires st; next_id := d_next_id st |},
   d_warnings st).

End DesignCanvasImpl.

(** ** parse_file: the [try] block, its handler and the returned dictionary

    The [print] calls report progress on the console and store nothing;
    they are left out. *)

Module ParseFile.
Import Re SystemVerilogParser.

Definition library := Dict.t string PortsDict.

(** Computations over the local dictionary [modules] that may raise: the
    dictionary is a mutable object, so what was stored before an exception
    is still there when the handler runs. *)
Definition M (A : Type) : Type := library -> library * (exn + A).

Definition ret {A} (a : A) : M A := fun st => (st, inr a).
Definition raise {A} (e : exn) : M A := fun st => (st, inl e).
Definition bind {A B} (m : M A) (f : A -> M B) : M B :=
  fun st => match m st with
            | (st', inr a) => f a st'
            | (st', inl e) => (st', inl e)
            end.
Definition store (k : string) (v : PortsDict) : M unit :=
  fun st => (Dict.set k v st, inr tt).
Definition lift {A} (r : exn + A) : M A := fun st => (st, r).

Fixpoint for_each {A} (l : list A) (body : A -> M unit) : M unit :=
  match l with
  | [] => ret tt
  | a :: l' => bind (body a) (fun _ => for_each l' body)
  end.

(** [try: body except Exception as e: handler]; the handler of
    [parse_file] only reports the error, it neither stores nor raises. *)
Definition try_except (body : M unit) : M unit :=
  fun st => match body st with
            | (st', _) => (st', inr tt)
            end.

(** [r'//.*?\n'] *)
Definition line_comment_re : regex :=
  cat [Lit "//"; Rep false false Py.not_newline; Lit Py.nl].
(** [r'/\*.*?\*/'] with [re.DOTALL] *)
Definition block_comment_re : regex :=
  cat [Lit "/*"; Rep false false Py.any_char; Lit "*/"].
(** [r'module\s+(\w+)\s*(?:#\s*\([^)]*\))?\s*\((.*?)\);(.*?)endmodule']
    with [re.DOTALL] *)
Definition module_pattern : regex :=
  cat [Lit "module"; ws_plus; Grp 1 (Rep true true Py.is_word); ws_star;
       Opt (cat [Lit "#"; ws_star; Lit "("; Rep true false (Py.not_char ")"); Lit ")"]);
       ws_star; Lit "("; Grp 2 (Rep false false Py.any_char); Lit ");";
       Grp 3 (Rep false false Py.any_char); Lit "endmodule"].

Definition remove_comments (content : string) : string :=
  let content := re_sub line_comment_re Py.nl content in
  re_sub block_comment_re "" content.

(** [for port in all_port_names: if port not in inputs and ...: inputs.append(port)] *)
Definition add_implicit (outputs inouts : list string) (inputs : list string)
    (port : string) : list string :=
  if negb (Py.mem port inputs) && negb (Py.mem port outputs) && negb (Py.mem port inouts)
  then inputs ++ [port] else inputs.

(** The body of [for module_match in module_matches], up to the entry
    stored under the module's name. *)
Definition module_entry (module_match : found) : string * PortsDict :=
  let module_name := group 1 (groups module_match) in
  let port_list_text := group 2 (groups module_match) in
  let module_body := group 3 (groups module_match) in
  let '(inputs, outputs, inouts) := parse_ansi_port_list port_list_text in
  let all_port_names := inputs ++ outputs ++ inouts in
  let '(all_port_names, (inputs, outputs, inouts)) :=
    match all_port_names with
    | [] =>
        let all_port_names := parse_port_list port_list_text in
        (all_port_names, parse_module_body module_body all_port_names)
    | _ => (all_port_names, (inputs, outputs, inouts))
    end in
  let inputs := fold_left (add_implicit outputs inouts) all_port_names inputs in
  (module_name, {| inputs := inputs; outputs := outputs ++ inouts |}).

(** What the [try] block does once the file has been read. *)
Definition parse_content (content : string) : M unit :=
  let content := remove_comments content in
  for_each (re_finditer module_pattern content)
           (fun module_match =>
              let '(module_name, entry) := module_entry module_match in
              store module_name entry).

(** The interfaces found in a text: [parse_content] from an empty dictionary. *)
Definition interfaces_of (content : string) : library :=
  (parse_content content []).1.

Section WithFiles.
(** [open(filename, 'r')] followed by [f.read()]: the text, or the
    exception raised. *)
Variable read_file : string -> exn + string.

Definition try_body (filename : string) : M unit :=
  bind (lift (read_file filename)) parse_content.

(** [parse_file]: the value the call returns, or the exception it lets
    through to its caller. *)
Definition parse_file (filename : string) : exn + library :=
  match bind (try_except (try_body filename)) (fun _ => ret tt) [] with
  | (modules, inr _) => inr modules
  | (_, inl e) => inl e
  end.
End WithFiles.

End ParseFile.

(** ** SystemVerilogDesigner *)

Record SystemVerilogDesigner := {
  module_library : Dict.t string PortsDict;
  canvas : DesignCanvas
}.

(** What [generate_systemverilog] shows or writes. *)
Inductive effect : Type :=
| WarningBox (title : string)
| InformationBox (title : string)
| CriticalBox (title : string)
| WriteFile (filename text : string).

Module Designer.
Import ModuleItemImpl DesignCanvasImpl.

(** [f"{module_name}_{count}"] *)
Definition numbered (module_name : string) (count : nat) : string :=
  module_name +:+ "_" +:+ Py.str_of_nat count.

(** [while instance_name in self.canvas.modules: ...]: [None] when the
    loop is still running after [fuel] turns. *)
Fixpoint unique_name_loop (fuel : nat) (modules : Dict.t string ModuleItem)
    (module_name instance_name : string) (count : nat) : option string :=
  if Dict.mem instance_name modules then
    match fuel with
    | O => None
    | S fuel' =>
        unique_name_loop fuel' modules module_name (numbered module_name count) (S count)
    end
  else Some instance_name.

(** Each turn of the loop rejects another key of the dictionary, so it
    cannot take more turns than there are keys. *)
Definition unique_instance_name (modules : Dict.t string ModuleItem)
    (module_name : string) : option string :=
  unique_name_loop (length modules) modules module_name module_name 1.

(** [add_module_to_canvas]: the canvas, and [ports] as the constructor of
    the item leaves that dictionary. *)
Definition add_module_to_canvas (self : DesignCanvas) (module_name : string)
    (ports0 : PortsDict) : option (DesignCanvas * PortsDict) :=
  match unique_instance_name (modules self) module_name with
  | Some instance_name =>
      let module := init (next_id self) instance_name ports0 in
      Some ({| modules := Dict.set instance_name module (modules self);
               wires := wires self;
               next_id := S (next_id self) |},
            ports module)
  | None => None
  end.

(** [add_module_from_library(item)] with [item.text() = module_name]: the
    item is built on the library's own dictionary. *)
Definition add_module_from_library (self : SystemVerilogDesigner) (module_name : string)
    : option SystemVerilogDesigner :=
  match Dict.get module_name (module_library self) with
  | Some ports =>
      match add_module_to_canvas (canvas self) module_name ports with
      | Some (canvas', ports') =>
          Some {| module_library := Dict.set module_name ports' (module_library self);
                  canvas := canvas' |}
      | None => None
      end
  | None => Some self
  end.

(** [new_design] answered with Yes. *)
Definition new_design (self : DesignCanvas) : DesignCanvas :=
  {| modules := []; wires := []; next_id := next_id self |}.

(** *** generate_systemverilog *)

Definition has_incoming (ws : list WireItem) (module : ModuleItem) (port : string) : bool :=
  existsb (fun wire => same_module (end_module wire) module
                       && String.eqb (end_port wire) port) ws.

Definition has_outgoing (ws : list WireItem) (module : ModuleItem) (port : string) : bool :=
  existsb (fun wire => same_module (start_module wire) module
                       && String.eqb (start_port wire) port) ws.

(** [(f"{module.name}_{port}", width)] *)
Definition external_port (module : ModuleItem) (port : string) : string * string :=
  (name module +:+ "_" +:+ port, width_text module port).

(** The two lists are filled in one pass over the modules; each list only
    receives the ports of its own kind, in that order. *)
Definition external_inputs (self : DesignCanvas) : list (string * string) :=
  flat_map (fun module =>
              map (external_port module)
                  (List.filter (fun port => negb (has_incoming (wires self) module port))
                               (inputs (ports module))))
           (Dict.values (modules self)).

Definition external_outputs (self : DesignCanvas) : list (string * string) :=
  flat_map (fun module =>
              map (external_port module)
                  (List.filter (fun port => negb (has_outgoing (wires self) module port))
                               (outputs (ports module))))
           (Dict.values (modules self)).

Definition port_declarations (self : DesignCanvas) : list string :=
  map (fun '(port, width) => "  input wire " +:+ width +:+ port) (external_inputs self)
  ++ map (fun '(port, width) => "  output wire " +:+ width +:+ port) (external_outputs self).

(** [f"w_{start_qualname}_to_{end_qualname}"] *)
Definition wire_name (wire : WireItem) : string :=
  let start_qualname := name (start_module wire) +:+ "_" +:+ start_port wire in
  let end_qualname := name (end_module wire) +:+ "_" +:+ end_port wire in
  "w_" +:+ start_qualname +:+ "_to_" +:+ end_qualname.

(** The key [(wire.start_module, wire.start_port, wire.end_module, wire.end_port)]. *)
Definition wire_key (wire : WireItem) : nat * string * nat * string :=
  (item_id (start_module wire), start_port wire, item_id (end_module wire), end_port wire).

Definition wire_names (ws : list WireItem) : Dict.t (nat * string * nat * string) string :=
  fold_left (fun d wire => Dict.set (wire_key wire) (wire_name wire) d) ws [].

Definition wire_declarations (ws : list WireItem) : list string :=
  map (fun wire => "  wire " +:+ width_text (start_module wire) (start_port wire)
                   +:+ wire_name wire +:+ ";") ws.

(** [f"    .{port}({signal})"] *)
Definition binding (port signal : string) : string :=
  "    ." +:+ port +:+ "(" +:+ signal +:+ ")".

Definition named_wire (ws : list WireItem) (wire : WireItem) : string :=
  default "" (Dict.get (wire_key wire) (wire_names ws)).

(** The body of [for port in module.ports["inputs"] + module.ports["outputs"]]:
    the signal the port is bound to. *)
Definition signal_of (ws : list WireItem) (module : ModuleItem) (port : string) : string :=
  let external_name := name module +:+ "_" +:+ port in
  if Py.mem port (inputs (ports module)) then
    match List.find (fun wire => same_module (end_module wire) module
                                 && String.eqb (end_port wire) port) ws with
    | Some wire => named_wire ws wire
    | None => external_name
    end
  else if Py.mem port (outputs (ports module)) then
    match List.find (fun wire => same_module (start_module wire) module
                                 && String.eqb (start_port wire) port) ws with
    | Some wire => named_wire ws wire
    | None => external_name
    end
  else external_name.

Definition connections (ws : list WireItem) (module : ModuleItem) : list string :=
  map (fun port => binding port (signal_of ws module port))
      (inputs (ports module) ++ outputs (ports module)).

(** [",\n".join(lines) if lines else otherwise] *)
Definition joined_or (otherwise : string) (lines : list string) : string :=
  match lines with
  | [] => otherwise
  | _ => Py.join ("," +:+ Py.nl) lines
  end.

(** The lines of one instantiation. *)
Definition instantiation (self : DesignCanvas) (entry : string * ModuleItem) : list string :=
  let '(module_name, module) := entry in
  let module_type := get_module_type module_name in
  ["  " +:+ module_type +:+ " " +:+ module_name +:+ " (";
   joined_or "    // No connections" (connections (wires self) module);
   "  );";
   ""].

(** [sv_code] before the header is put in front. *)
Definition module_code (self : DesignCanvas) (top_name : string) : list string :=
  ["module " +:+ top_name +:+ " ("]
  ++ [joined_or "  // No external connections" (port_declarations self)]
  ++ [");"]
  ++ wire_declarations (wires self)
  ++ (match wires self with [] => [] | _ => [""] end)
  ++ flat_map (instantiation self) (modules self)
  ++ ["endmodule"].

(** [os.path.basename]: what follows the last [/]. *)
Definition basename (path : string) : string :=
  List.last (Py.split_char "/" path) "".

Definition rule : string :=
  "//=============================================================================".

Definition header (self : DesignCanvas) (filename top_name timestamp : string) : list string :=
  [rule;
   "// File: " +:+ basename filename;
   "// Date: " +:+ timestamp;
   "// Description: Top level SystemVerilog module '" +:+ top_name
     +:+ "' generated by SystemVerilog Designer";
   "// Contains the following module instances:"]
  ++ map (fun module_name => "//   - " +:+ module_name) (Dict.keys (modules self))
  ++ [rule; ""].

(** The text handed to [f.write]. *)
Definition generated_text (self : DesignCanvas) (filename top_name timestamp : string)
    : string :=
  Py.join Py.nl (header self filename top_name timestamp ++ module_code self top_name).

(** What the dialogs, the clock and the file system answer during one call. *)
Record answers := {
  save_file_name : string;          (* QFileDialog.getSaveFileName, empty when cancelled *)
  top_module_name : string * bool;  (* QInputDialog.getText: text, ok *)
  current_date_time : string;       (* QDateTime.currentDateTime() as yyyy-MM-dd HH:mm:ss *)
  write : string -> string -> option exn   (* open(filename, "w") and f.write(text) *)
}.

Definition generate_systemverilog (self : DesignCanvas) (env : answers) : list effect :=
  match modules self with
  | [] => [WarningBox "Empty Design"]
  | _ =>
      let filename := save_file_name env in
      if SystemVerilogParser.is_empty filename then []
      else
        let '(top_name, ok) := top_module_name env in
        let top_name := if negb ok || SystemVerilogParser.is_empty top_name
                        then "top" else top_name in
        let text := generated_text self filename top_name (current_date_time env) in
        match write env filename text with
        | None => [WriteFile filename text; InformationBox "Code Generated"]
        | Some e => [CriticalBox "Error"]
        end
  end.

End Designer.

(** ** ModuleItem.truncate_text and ModuleLibraryWidget *)

(** The library panel: the dictionary of module definitions and the rows
    of the list widget, top to bottom. *)
Record ModuleLibraryWidget := {
  definitions : Dict.t string PortsDict;
  rows : list string
}.

Module Widgets.

(** [text[:k]] for a Python integer [k]: a negative [k] counts from the end. *)
Definition slice_to (k : Z) (text : string) : string :=
  if (0 <=? k)%Z then Py.take (Z.to_nat k) text
  else Py.take (String.length text - Z.to_nat (- k)) text.

(** [ModuleItem.truncate_text] for an item whose [max_text_length] is
    [max_text_length]. *)
Definition truncate_text (max_text_length : Z) (text : string) : string :=
  if (max_text_length <? Z.of_nat (String.length text))%Z
  then slice_to (max_text_length - 3) text +:+ "..."
  else text.

(** [add_module_definition]: the entry is set and a row is always added. *)
Definition add_module_definition (self : ModuleLibraryWidget) (name : string)
    (inputs outputs : list string) : ModuleLibraryWidget :=
  {| definitions := Dict.set name {| inputs := inputs; outputs := outputs |}
                             (definitions self);
     rows := rows self ++ [name] |}.

Section WithFiles.
Variable read_file : string -> exn + string.

(** [load_module_file]: the widget after the call and the value returned,
    or the exception [parse_file] lets through. *)
Definition load_module_file (self : ModuleLibraryWidget) (filename : string)
    : exn + (ModuleLibraryWidget * bool) :=
  match ParseFile.parse_file read_file filename with
  | inr modules =>
      inr (fold_left (fun w '(name, ports) =>
                        add_module_definition w name (inputs ports) (outputs ports))
                     modules self,
           negb (Nat.eqb (length modules) 0))
  | inl e => inl e
  end.
End WithFiles.

(** [delete_module] when the question is answered with [confirmed]:
    [findItems(module_name, Qt.MatchExactly)] are the rows equal to the name. *)
Definition delete_module (self : ModuleLibraryWidget) (module_name : string)
    (confirmed : bool) : ModuleLibraryWidget :=
  if Dict.mem module_name (definitions self) && confirmed then
    {| definitions := Dict.del module_name (definitions self);
       rows := List.filter (fun row => negb (String.eqb row module_name)) (rows self) |}
  else self.

End Widgets.

(** ** Worked designs *)

Module Examples.
Import ModuleItemImpl DesignCanvasImpl Designer.

(** [module adder(input [3:0] a, input [3:0] b, output [4:0] sum);] *)
Definition adder_ports : PortsDict :=
  {| inputs := ["a[3:0]"; "b[3:0]"]; outputs := ["sum[4:0]"] |}.

Definition place (self : DesignCanvas) (module_name : string) (ports : PortsDict)
    : DesignCanvas :=
  match add_module_to_canvas self module_name ports with
  | Some (self', _) => self'
  | None => self
  end.

Definition item_named (self : DesignCanvas) (instance_name : string) : ModuleItem :=
  default (init 0 "" {| inputs := []; outputs := [] |})
          (Dict.get instance_name (modules self)).

(** The release point lies on [port] of the instance called [instance_name]. *)
Definition on_port (instance_name port : string) (module : ModuleItem) : option string :=
  if String.eqb (name module) instance_name then Some port else None.

Definition one_adder : DesignCanvas := place empty "adder" adder_ports.
Definition two_adders : DesignCanvas := place one_adder "adder" adder_ports.

(** [adder.sum] dragged onto [adder_1.a]. *)
Definition chained : DesignCanvas :=
  (mouseReleaseEvent two_adders (item_named two_adders "adder") "sum"
     (on_port "adder_1" "a")).1.

Definition three_adders : DesignCanvas := place chained "adder" adder_ports.

(** A module whose own name ends in an underscore and digits. *)
Definition one_mux : DesignCanvas :=
  place empty "mux_2" {| inputs := ["a"; "b"; "sel"]; outputs := ["y"] |}.


(** The designer after a file with the adder has been loaded. *)
Definition adder_loaded : SystemVerilogDesigner :=
  {| module_library := [("adder", adder_ports)]; canvas := empty |}.

(** What [module_pattern] finds in [module m(a, b, y); input a; output y; endmodule]. *)
Definition separate_declarations : Re.found :=
  {| Re.matched := "module m(a, b, y); input a; output y; endmodule";
     Re.groups := [(3, " input a; output y; "); (2, "a, b, y"); (1, "m")];
     Re.rest := "" |}.

(** What [module_pattern] finds in
    [module m(a, y); input a; output [3:0] y; endmodule]. *)
Definition ranged_output : Re.found :=
  {| Re.matched := "module m(a, y); input a; output [3:0] y; endmodule";
     Re.groups := [(3, " input a; output [3:0] y; "); (2, "a, y"); (1, "m")];
     Re.rest := "" |}.

(** The release point lies on port [b] of [adder_1] and of [adder_2]. *)
Definition on_both (module : ModuleItem) : option string :=
  if String.eqb (name module) "adder_1" || String.eqb (name module) "adder_2"
  then Some "b" else None.

Definition no_write_error (filename text : string) : option exn := None.

Definition run_at (timestamp : string) : answers :=
  {| save_file_name := "out.sv"; top_module_name := ("top", true);
     current_date_time := timestamp; write := no_write_error |}.
End Examples.

(** ** Notions used in the statements *)

Section Notions.
Import Re SystemVerilogParser ModuleItemImpl DesignCanvasImpl Designer.

(** *** Matching *)

(** Where a repetition has to stop. *)
Definition stops (p : ascii -> bool) (s : string) : Prop :=
  match s with
  | String c _ => p c = false
  | EmptyString => True
  end.

(** The least number of characters a match of [r] takes. *)
Fixpoint min_len (r : regex) : nat :=
  match r with
  | Lit l => String.length l
  | Cls _ => 1
  | Rep _ plus _ => if plus then 1 else 0
  | Seq r1 r2 => min_len r1 + min_len r2
  | Alt r1 r2 => Nat.min (min_len r1) (min_len r2)
  | Opt _ => 0
  | Grp _ r1 => min_len r1
  end.

(** Group [n] is written somewhere in [r]. *)
Fixpoint binds (n : nat) (r : regex) : bool :=
  match r with
  | Lit _ | Cls _ | Rep _ _ _ => false
  | Seq r1 r2 | Alt r1 r2 => binds n r1 || binds n r2
  | Opt r1 => binds n r1
  | Grp m r1 => Nat.eqb n m || binds n r1
  end.

(** [s[n:]] *)
Fixpoint skip_chars (n : nat) (s : string) : string :=
  match n, s with
  | S n', String _ s' => skip_chars n' s'
  | _, _ => s
  end.

(** [s'] is what remains of [s] after at least one character. *)
Definition moved_right (s s' : string) : Prop :=
  exists pre, s = pre +:+ s' /\ 0 < String.length pre.

Definition not_left_of (s s' : string) : Prop := exists pre, s = pre +:+ s'.

(** *** Dimensions *)

(** What follows the first closing bracket of [s], when no line ends
    before that bracket. *)
Fixpoint closing (s : string) : option string :=
  match s with
  | EmptyString => None
  | String c s' =>
      if Ascii.eqb "]" c then Some s'
      else if Py.not_newline c then closing s' else None
  end.


(** *** Declarations of one direction *)

(** Keep the first occurrence of every name. *)
Fixpoint first_declarations (l : list string) : list string :=
  match l with
  | [] => []
  | x :: l' => x :: List.filter (fun y => negb (String.eqb y x)) (first_declarations l')
  end.

(** The names declared by the statements of one direction, in text order. *)
Definition declared_names (blocks : list (string * string)) : list string :=
  concat (List.map (fun wb => split_comma_list wb.2) blocks).


(** *** Interface entries *)

(** A bare identifier: one or more characters of [\w]. *)
Definition is_identifier (port_name : string) : Prop :=
  port_name <> "" /\ Py.all_chars Py.is_word port_name = true.

(** A range as it stands between the brackets: no closing bracket inside. *)
Definition is_range (width : string) : Prop :=
  Py.all_chars (Py.not_char "]") width = true.

(** An interface entry: [name], or [name[range]] when there is a range. *)
Definition entry_text (e : string * string) : string :=
  if is_empty e.2 then e.1 else with_width e.2 e.1.

Definition well_formed_entry (e : string * string) : Prop :=
  is_identifier e.1 /\ is_range e.2.

(** A range as it is written in a list of declared names: no bracket and
    no line break inside. *)
Definition plain_range (width : string) : Prop :=
  Py.all_chars (fun c => Py.not_char "[" c && Py.not_char "]" c && Py.not_newline c) width
  = true.

Definition listed_entry (e : string * string) : Prop :=
  is_identifier e.1 /\ plain_range e.2.

(** The width map after the entries [l] have been entered in order. *)
Definition recorded_widths (l : list (string * string)) (widths : gmap string string)
    : gmap string string :=
  fold_left (fun w e => <[e.1 := e.2]> w) l widths.

(** *** Instance names *)

(** [s.split(sep)] always has a first piece. *)
Definition split_char_ne (sep : ascii) (s : string) : Prop :=
  Py.split_char sep s <> [].

(** The sequence [typeName], [typeName_1], [typeName_2], ... *)
Definition candidate (module_name : string) (k : nat) : string :=
  match k with
  | O => module_name
  | S _ => numbered module_name k
  end.

(** *** Canvases *)

(** [wire] arrives at [port] of [module]. *)
Definition arrives_at (module : ModuleItem) (port : string) (wire : WireItem) : bool :=
  same_module (end_module wire) module && String.eqb (end_port wire) port.

(** The connections arriving at [port] of [module]. *)
Definition inbound (ws : list WireItem) (module : ModuleItem) (port : string)
    : list WireItem :=
  List.filter (arrives_at module port) ws.

(** Every input port of every instance on the canvas has at most one
    inbound connection. *)
Definition single_driver (self : DesignCanvas) : Prop :=
  forall module port,
    module ∈ Dict.values (modules self) ->
    Py.mem port (inputs (ports module)) = true ->
    length (inbound (wires self) module port) <= 1.

(** One user action that changes the canvas. A wire starts at a port of
    one of [self.modules.values()], where [mousePressEvent] found it. *)
Inductive step : DesignCanvas -> DesignCanvas -> Prop :=
| step_add self module_name ports0 self' ports' :
    add_module_to_canvas self module_name ports0 = Some (self', ports') ->
    step self self'
| step_connect self start_module start_port hit :
    start_module ∈ Dict.values (modules self) ->
    step self (mouseReleaseEvent self start_module start_port hit).1
| step_delete self selected_items :
    step self (delete_selected_items self selected_items).1
| step_new self :
    step self (new_design self).

Inductive reachable : DesignCanvas -> Prop :=
| reachable_empty : reachable empty
| reachable_step self self' : reachable self -> step self self' -> reachable self'.

(** What holds of every reachable canvas besides [single_driver]: objects
    have distinct identities below [next_id], and a wire that arrives at an
    item of the canvas holds that very item. *)
Record well_formed (vs : list ModuleItem) (ws : list WireItem) (next : nat) : Prop := {
  wf_ids : NoDup (List.map item_id vs);
  wf_fresh : forall m, m ∈ vs -> item_id m < next;
  wf_ends_fresh : forall w, w ∈ ws -> item_id (end_module w) < next;
  wf_ends : forall w m, w ∈ ws -> m ∈ vs -> same_module (end_module w) m = true ->
                        end_module w = m;
  wf_single : forall m port, m ∈ vs -> Py.mem port (inputs (ports m)) = true ->
                             length (inbound ws m port) <= 1
}.

Definition canvas_ok (self : DesignCanvas) : Prop :=
  well_formed (Dict.values (modules self)) (wires self) (next_id self).

(** What [mouseReleaseEvent] keeps true from one candidate port to the next. *)
Definition drag_ok (vs : list ModuleItem) (st : drag) : Prop :=
  d_start_module st ∈ vs /\ well_formed vs (d_wires st) (d_next_id st).

(** The release point lies on [port] of [module] and on no other item. *)
Definition only_on (module : ModuleItem) (port : string) (m : ModuleItem) : option string :=
  if same_module m module then Some port else None.

(** *** Canvases: names, wire identities, attached wires *)

(** Wires have distinct identities below [next], and none connects an item
    to itself. *)
Record wires_sound (ws : list WireItem) (next : nat) : Prop := {
  ws_ids : NoDup (List.map wire_id ws);
  ws_fresh : forall w, w ∈ ws -> wire_id w < next;
  ws_no_self : forall w, w ∈ ws -> same_module (start_module w) (end_module w) = false
}.

(** The keys of [modules] are distinct and each item is stored under its
    own name. *)
Record canvas_sound (self : DesignCanvas) : Prop := {
  cs_keys : NoDup (Dict.keys (modules self));
  cs_names : forall k m, (k, m) ∈ modules self -> name m = k;
  cs_wires : wires_sound (wires self) (next_id self)
}.








(** The instances other than [src] with a port under the release point. *)
Definition hit_targets (src : ModuleItem) (hit : ModuleItem -> option string)
    (vs : list ModuleItem) : list ModuleItem :=
  List.filter (fun m => negb (same_module m src)
                        && match hit m with Some _ => true | None => false end) vs.

(** One wire from [src_port] of [src] to the port under the release point
    of each of [targets], with the identities [id], [id + 1], ... *)
Fixpoint wires_to (src : ModuleItem) (src_port : string) (hit : ModuleItem -> option string)
    (id : nat) (targets : list ModuleItem) : list WireItem :=
  match targets with
  | [] => []
  | m :: targets' =>
      {| wire_id := id; start_module := src; end_module := m;
         start_port := src_port; end_port := default "" (hit m) |}
      :: wires_to src src_port hit (S id) targets'
  end.

(** *** The library panel *)

(** What can happen to the library panel: a definition is added, a file is
    loaded, a module is removed (or the question answered with No), and an
    instance placed from an entry rewrites the entry. *)
Inductive library_step : ModuleLibraryWidget -> ModuleLibraryWidget -> Prop :=
| library_add self name0 inputs0 outputs0 :
    library_step self (Widgets.add_module_definition self name0 inputs0 outputs0)
| library_load self read_file filename self' found_some :
    Widgets.load_module_file read_file self filename = inr (self', found_some) ->
    library_step self self'
| library_delete self module_name confirmed :
    library_step self (Widgets.delete_module self module_name confirmed)
| library_rewrite self module_name ports0 :
    Dict.mem module_name (definitions self) = true ->
    library_step self {| definitions := Dict.set module_name ports0 (definitions self);
                         rows := rows self |}.

Inductive library_reachable : ModuleLibraryWidget -> Prop :=
| library_reachable_empty : library_reachable {| definitions := []; rows := [] |}
| library_reachable_step self self' :
    library_reachable self -> library_step self self' -> library_reachable self'.

(** *** Generated text *)

(** The signals the generated module declares: its external ports and its
    internal wires. *)
Definition declared_signals (self : DesignCanvas) : list string :=
  List.map fst (external_inputs self) ++ List.map fst (external_outputs self)
  ++ List.map wire_name (wires self).

End Notions.

(** ** Properties of the matcher *)

Section MatcherLemmas.
Import Re.

Lemma append_cancel_l (p x y : string) : p +:+ x = p +:+ y -> x = y.
Proof.
  induction p as [|c p IH]; simpl; [auto|].
  intros H. injection H as H. auto.
Qed.

Lemma append_length (x y : string) :
  String.length (x +:+ y) = String.length x + String.length y.
Proof. induction x as [|c x IH]; simpl; [reflexivity|]. now rewrite IH. Qed.

Lemma append_cons a (x y : string) : String a x +:+ y = String a (x +:+ y).
Proof. reflexivity. Qed.

Lemma append_nil_r (x : string) : x +:+ "" = x.
Proof. induction x as [|a x IH]; [reflexivity|]. now rewrite append_cons, IH. Qed.

Lemma append_assoc (x y z : string) : (x +:+ y) +:+ z = x +:+ (y +:+ z).
Proof. induction x as [|a x IH]; [reflexivity|]. now rewrite !append_cons, IH. Qed.

Lemma take_app (x y : string) : Py.take (String.length x) (x +:+ y) = x.
Proof.
  induction x as [|a x IH]; simpl.
  - now destruct y.
  - now rewrite ?append_cons, IH.
Qed.

Lemma consumed_app (x y : string) : consumed (x +:+ y) y = x.
Proof.
  unfold consumed. rewrite append_length.
  replace (String.length x + String.length y - String.length y) with (String.length x) by lia.
  apply take_app.
Qed.

Lemma consumed_nil (x : string) : consumed x "" = x.
Proof. rewrite <- (append_nil_r x) at 1. apply consumed_app. Qed.

(** A greedy repetition over a run of [pre] that cannot be extended, with
    a continuation that accepts what follows, takes the whole run. *)
Lemma rep_greedy_run {A} (p : ascii -> bool) (pre tail : string)
    (k : string -> option A) (x : A) :
  Py.all_chars p pre = true -> stops p tail -> k tail = Some x ->
  rep_greedy p (pre +:+ tail) k = Some x.
Proof.
  intros Hpre Hstop Hk. induction pre as [|a pre IH].
  - change ("" +:+ tail) with tail.
    destruct tail as [|c tail']; simpl in *; [exact Hk|]. now rewrite Hstop.
  - simpl in Hpre. apply andb_true_iff in Hpre as [Ha Hpre].
    rewrite ?append_cons. simpl. rewrite Ha, (IH Hpre). reflexivity.
Qed.

Lemma strip_prefix_inv (l s s' : string) : strip_prefix l s = Some s' -> s = l +:+ s'.
Proof.
  revert s. induction l as [|a l IH]; intros s H; simpl in H.
  - now injection H as ->.
  - destruct s as [|b s]; [discriminate|].
    destruct (Ascii.eqb_spec a b) as [->|]; [|discriminate].
    now rewrite (IH _ H).
Qed.

Lemma rep_inv {A} (g : bool) (p : ascii -> bool) (s : string)
    (k : string -> option A) (x : A) :
  rep g p s k = Some x -> exists pre s', s = pre +:+ s' /\ k s' = Some x.
Proof.
  destruct g; unfold rep.
  - induction s as [|c s IH]; simpl; intros H.
    + now exists "", "".
    + destruct (p c).
      * destruct (rep_greedy p s k) as [y|] eqn:Hrec.
        -- injection H as ->. destruct (IH eq_refl) as (pre & s' & -> & Hk).
           now exists (String c pre), s'.
        -- now exists "", (String c s).
      * now exists "", (String c s).
  - induction s as [|c s IH]; simpl; intros H.
    + destruct (k "") as [y|] eqn:Hk; [|discriminate].
      injection H as ->. now exists "", "".
    + destruct (k (String c s)) as [y|] eqn:Hk.
      * injection H as ->. now exists "", (String c s).
      * destruct (p c); [|discriminate].
        destruct (IH H) as (pre & s' & -> & Hk'). now exists (String c pre), s'.
Qed.

(** A successful match of [r] hands to its continuation a suffix of the
    text, at least [min_len r] characters further, and leaves the groups
    that [r] does not write as they were. *)
Lemma rmatch_inv {A} (r : regex) : forall (s : string) (c : caps)
    (k : string -> caps -> option A) (x : A),
  rmatch r s c k = Some x ->
  exists pre s' c',
    s = pre +:+ s' /\ min_len r <= String.length pre /\ k s' c' = Some x
    /\ forall n, binds n r = false -> cap_lookup n c' = cap_lookup n c.
Proof.
  induction r as [l|p|g plus p|r1 IH1 r2 IH2|r1 IH1 r2 IH2|r1 IH1|m r1 IH1];
    intros s c k x H; simpl in H.
  - destruct (strip_prefix l s) as [s'|] eqn:Hl; [|discriminate].
    apply strip_prefix_inv in Hl. exists l, s', c. auto.
  - destruct s as [|a s']; [discriminate|]. destruct (p a); [|discriminate].
    exists (String a ""), s', c. simpl. auto.
  - destruct plus.
    + destruct s as [|a s']; [discriminate|]. destruct (p a); [|discriminate].
      apply rep_inv in H as (pre & s2 & -> & Hk).
      exists (String a pre), s2, c. simpl. repeat split; auto. lia.
    + apply rep_inv in H as (pre & s2 & -> & Hk).
      exists pre, s2, c. simpl. repeat split; auto. lia.
  - apply IH1 in H as (pre1 & s1 & c1 & -> & Hlen1 & H & Hc1).
    apply IH2 in H as (pre2 & s2 & c2 & -> & Hlen2 & H & Hc2).
    exists (pre1 +:+ pre2), s2, c2. rewrite append_assoc, append_length.
    repeat split; auto; [simpl; lia|].
    intros n Hn. simpl in Hn. apply orb_false_elim in Hn as [Hn1 Hn2].
    now rewrite Hc2, Hc1.
  - destruct (rmatch r1 s c k) as [y|] eqn:H1.
    + injection H as ->. apply IH1 in H1 as (pre & s' & c' & -> & Hlen & H & Hc).
      exists pre, s', c'. repeat split; auto; [simpl; lia|].
      intros n Hn. simpl in Hn. apply orb_false_elim in Hn as [Hn1 Hn2]. auto.
    + apply IH2 in H as (pre & s' & c' & -> & Hlen & H & Hc).
      exists pre, s', c'. repeat split; auto; [simpl; lia|].
      intros n Hn. simpl in Hn. apply orb_false_elim in Hn as [Hn1 Hn2]. auto.
  - destruct (rmatch r1 s c k) as [y|] eqn:H1.
    + injection H as ->. apply IH1 in H1 as (pre & s' & c' & -> & Hlen & H & Hc).
      exists pre, s', c'. repeat split; auto. simpl. lia.
    + exists "", s, c. simpl. auto.
  - apply IH1 in H as (pre & s' & c' & -> & Hlen & H & Hc).
    exists pre, s', ((m, consumed (pre +:+ s') s') :: c').
    split; [reflexivity|]. split; [exact Hlen|]. split; [exact H|].
    intros n Hn. simpl in Hn. apply orb_false_elim in Hn as [Hn1 Hn2].
    simpl. rewrite Hn1. auto.
Qed.

(** [re.match]: the text is the match followed by the rest. *)
Lemma re_match_inv (r : regex) (s : string) (m : found) :
  re_match r s = Some m ->
  s = matched m +:+ rest m /\ min_len r <= String.length (matched m).
Proof.
  unfold re_match. intros H.
  apply rmatch_inv in H as (pre & s' & c' & -> & Hlen & H & _).
  injection H as <-. simpl. now rewrite consumed_app.
Qed.

(** [re.search]: the text is what precedes the match, the match, the rest. *)
Lemma re_search_inv (r : regex) (s : string) : forall pre m,
  re_search r s = Some (pre, m) ->
  s = pre +:+ matched m +:+ rest m /\ min_len r <= String.length (matched m).
Proof.
  induction s as [|c s IH]; intros pre m H; simpl in H.
  - destruct (re_match r "") as [m'|] eqn:Hm; [|discriminate].
    injection H as <- <-. now apply re_match_inv.
  - destruct (re_match r (String c s)) as [m'|] eqn:Hm.
    + injection H as <- <-. now apply re_match_inv.
    + destruct (re_search r s) as [[pre' m']|] eqn:Hs; [|discriminate].
      injection H as <- <-. destruct (IH _ _ eq_refl) as [-> Hlen]. auto.
Qed.

Lemma skip_app (x y : string) : skip_chars (String.length x) (x +:+ y) = y.
Proof. induction x as [|a x IH]; simpl; [now destruct y|exact IH]. Qed.

Lemma sub_from_skip (r : regex) (repl : string) (s : string) : forall n,
  sub_from r repl n s = sub_from r repl 0 (skip_chars n s).
Proof.
  induction s as [|c s IH]; intros [|n]; try reflexivity.
  simpl sub_from at 1. simpl skip_chars. apply IH.
Qed.

Lemma finditer_from_skip (r : regex) (s : string) : forall n,
  finditer_from r n s = finditer_from r 0 (skip_chars n s).
Proof.
  induction s as [|c s IH]; intros [|n]; try reflexivity.
  simpl finditer_from at 1. simpl skip_chars. apply IH.
Qed.

Lemma skip_matched (c : ascii) (s' : string) (m : found) (n : nat) :
  String c s' = matched m +:+ rest m -> String.length (matched m) = S n ->
  skip_chars n s' = rest m.
Proof.
  intros Hsplit Hlen. destruct (matched m) as [|a pre]; [discriminate|].
  rewrite append_cons in Hsplit. injection Hsplit as _ ->.
  simpl in Hlen. injection Hlen as <-. apply skip_app.
Qed.

(** [re.sub] for a pattern that takes at least one character: a match at
    the front is replaced and the scan goes on behind it; otherwise the
    first character is kept. *)
Lemma re_sub_step (r : regex) (repl : string) (c : ascii) (s' : string) :
  0 < min_len r ->
  re_sub r repl (String c s')
  = match re_match r (String c s') with
    | Some m => repl +:+ re_sub r repl (rest m)
    | None => String c (re_sub r repl s')
    end.
Proof.
  intros Hmin. unfold re_sub. cbn [sub_from].
  destruct (re_match r (String c s')) as [m|] eqn:Hm; [|reflexivity].
  apply re_match_inv in Hm as [Hsplit Hlen].
  destruct (String.length (matched m)) as [|n] eqn:Hn; [lia|].
  now rewrite sub_from_skip, (skip_matched c s' m n).
Qed.

(** [re.finditer] for such a pattern. *)
Lemma re_finditer_step (r : regex) (c : ascii) (s' : string) :
  0 < min_len r ->
  re_finditer r (String c s')
  = match re_match r (String c s') with
    | Some m => m :: re_finditer r (rest m)
    | None => re_finditer r s'
    end.
Proof.
  intros Hmin. unfold re_finditer. cbn [finditer_from].
  destruct (re_match r (String c s')) as [m|] eqn:Hm; [|reflexivity].
  apply re_match_inv in Hm as [Hsplit Hlen].
  destruct (String.length (matched m)) as [|n] eqn:Hn; [lia|].
  now rewrite finditer_from_skip, (skip_matched c s' m n).
Qed.

(** The patterns the program substitutes or iterates take at least one character. *)
Lemma patterns_take_a_character :
  0 < min_len ws_plus
  /\ 0 < min_len SystemVerilogParser.dimension_re
  /\ 0 < min_len SystemVerilogParser.paren_re
  /\ (forall dir, 0 < min_len (SystemVerilogParser.block_re dir))
  /\ 0 < min_len ParseFile.line_comment_re
  /\ 0 < min_len ParseFile.block_comment_re
  /\ 0 < min_len ParseFile.module_pattern.
Proof. repeat split; try intros dir; simpl; lia. Qed.

(** What a greedy repetition steps over is made of characters of its class. *)
Lemma rep_greedy_inv {A} (p : ascii -> bool) (s : string)
    (k : string -> option A) (x : A) :
  rep_greedy p s k = Some x ->
  exists pre s', s = pre +:+ s' /\ Py.all_chars p pre = true /\ k s' = Some x.
Proof.
  induction s as [|c s IH]; simpl; intros H.
  - now exists "", "".
  - destruct (p c) eqn:Hc; [|now exists "", (String c s)].
    destruct (rep_greedy p s k) as [y|] eqn:Hrec; [|now exists "", (String c s)].
    injection H as ->. destruct (IH eq_refl) as (pre & s' & -> & Hall & Hk).
    exists (String c pre), s'. simpl. now rewrite Hc, Hall.
Qed.

End MatcherLemmas.

(** ** The cursor loop of parse_ansi_port_list *)

Section CursorLoop.
Import Re SystemVerilogParser.

Lemma not_left_of_trans (s1 s2 s3 : string) :
  not_left_of s1 s2 -> not_left_of s2 s3 -> not_left_of s1 s3.
Proof. intros [p1 ->] [p2 ->]. exists (p1 +:+ p2). now rewrite append_assoc. Qed.

Lemma scan_group_split (text : string) : forall bracket_depth g r,
  scan_group text bracket_depth = (g, r) -> text = g +:+ r.
Proof.
  induction text as [|char text IH]; intros bracket_depth g r H; simpl in H.
  - now injection H as <- <-.
  - destruct (Ascii.eqb char "[").
    { destruct (scan_group text (bracket_depth + 1)) as [g' r'] eqn:Hs.
      injection H as <- <-. now rewrite (IH _ _ _ Hs). }
    destruct (Ascii.eqb char "]").
    { destruct (scan_group text (bracket_depth - 1)) as [g' r'] eqn:Hs.
      injection H as <- <-. now rewrite (IH _ _ _ Hs). }
    destruct ((bracket_depth =? 0)%Z && _).
    { now injection H as <- <-. }
    destruct (scan_group text bracket_depth) as [g' r'] eqn:Hs.
    injection H as <- <-. now rewrite (IH _ _ _ Hs).
Qed.

Lemma direction_group_rest (after_kw : string) :
  not_left_of after_kw (direction_group after_kw).2.
Proof.
  unfold direction_group.
  set (s1 := match re_match type_re after_kw with Some m => rest m | None => after_kw end).
  assert (H1 : not_left_of after_kw s1).
  { unfold s1. destruct (re_match type_re after_kw) as [m|] eqn:Hm; [|now exists ""].
    apply re_match_inv in Hm as [Hm _]. now exists (matched m). }
  destruct (match re_match dim_re s1 with
            | Some m => (group 1 (groups m), rest m)
            | None => ("", s1)
            end) as [width s2] eqn:Hdim.
  assert (H2 : not_left_of s1 s2).
  { destruct (re_match dim_re s1) as [m|] eqn:Hm; injection Hdim as <- <-; [|now exists ""].
    apply re_match_inv in Hm as [Hm _]. now exists (matched m). }
  destruct (scan_group s2 0) as [grp s3] eqn:Hscan. cbn [snd].
  apply scan_group_split in Hscan.
  eapply not_left_of_trans; [exact H1|]. eapply not_left_of_trans; [exact H2|].
  now exists grp.
Qed.

Lemma after_keyword (kw s pre : string) (m : found) :
  re_search (cat [Lit kw; ws_plus]) s = Some (pre, m) ->
  moved_right s (direction_group (rest m)).2.
Proof.
  intros H. apply re_search_inv in H as [-> Hlen].
  destruct (direction_group_rest (rest m)) as [pre' Hrest].
  exists (pre +:+ matched m +:+ pre'). split.
  - rewrite Hrest at 1. now rewrite !append_assoc.
  - rewrite !append_length. simpl in Hlen. lia.
Qed.

(** Every turn of the loop moves the cursor to the right. *)
Lemma ansi_step_moves (s : string) (acc acc' : port_lists) (s' : string) :
  ansi_step s acc = Some (acc', s') -> moved_right s s'.
Proof.
  unfold ansi_step. destruct acc as [[ins outs] inouts].
  destruct (re_search (cat [Lit "input"; ws_plus]) s) as [[pre m]|] eqn:Hin.
  { pose proof (after_keyword _ _ _ _ Hin) as Hmoved.
    destruct (direction_group (rest m)) as [ports s3]. now intros [= <- <-]. }
  destruct (re_search (cat [Lit "output"; ws_plus]) s) as [[pre m]|] eqn:Hout.
  { pose proof (after_keyword _ _ _ _ Hout) as Hmoved.
    destruct (direction_group (rest m)) as [ports s3]. now intros [= <- <-]. }
  destruct (re_search (cat [Lit "inout"; ws_plus]) s) as [[pre m]|] eqn:Hio; [|discriminate].
  pose proof (after_keyword _ _ _ _ Hio) as Hmoved.
  destruct (direction_group (rest m)) as [ports s3]. now intros [= <- <-].
Qed.

Lemma ansi_loop_skip (s : string) : forall n acc,
  ansi_loop n s acc = ansi_loop 0 (skip_chars n s) acc.
Proof.
  induction s as [|c s IH]; intros [|n] acc; try reflexivity.
  cbn [ansi_loop skip_chars]. apply IH.
Qed.

(** [ansi_loop] is the [while cursor_pos < len(full_port_list)] loop: at the
    end of the text it stops; otherwise it runs one turn at the cursor and
    goes on from the new cursor, or stops when no keyword is left. *)
Lemma ansi_loop_while (s : string) (acc : port_lists) :
  ansi_loop 0 s acc
  = match s with
    | EmptyString => acc
    | String _ _ =>
        match ansi_step s acc with
        | Some (acc', s') => ansi_loop 0 s' acc'
        | None => acc
        end
    end.
Proof.
  destruct s as [|c s0]; [reflexivity|]. cbn [ansi_loop].
  destruct (ansi_step (String c s0) acc) as [[acc' s']|] eqn:Hstep; [|reflexivity].
  apply ansi_step_moves in Hstep as [pre [Hsplit Hlen]].
  destruct pre as [|a pre']; [simpl in Hlen; lia|].
  rewrite append_cons in Hsplit. injection Hsplit as _ ->.
  rewrite ansi_loop_skip. f_equal.
  cbn [String.length]. rewrite append_length.
  replace (S (String.length pre' + String.length s') - String.length s' - 1)
    with (String.length pre') by lia.
  apply skip_app.
Qed.

End CursorLoop.

(** ** Names without dimensions *)

Section Dimensions.
Import Re SystemVerilogParser.
Local Arguments Ascii.eqb : simpl never.
Local Arguments Py.not_newline : simpl never.

Lemma rep_lazy_closing {A} (K : string -> A) (s : string) :
  rep_lazy Py.not_newline s
    (fun s2 => match strip_prefix "]" s2 with
               | Some s3 => Some (K s3)
               | None => None
               end)
  = option_map K (closing s).
Proof.
  induction s as [|c s IH]; [reflexivity|].
  simpl. destruct (Ascii.eqb "]" c); [reflexivity|].
  destruct (Py.not_newline c); [exact IH|reflexivity].
Qed.

Lemma dimension_match (s : string) :
  re_match dimension_re s
  = match s with
    | String c s' =>
        if Ascii.eqb "[" c then
          option_map (fun r => {| matched := consumed s r; groups := []; rest := r |})
                     (closing s')
        else None
    | EmptyString => None
    end.
Proof.
  destruct s as [|c s']; [reflexivity|].
  unfold re_match, dimension_re, cat. simpl.
  destruct (Ascii.eqb "[" c); [|reflexivity].
  exact (rep_lazy_closing _ s').
Qed.

Lemma closing_split (s r : string) :
  closing s = Some r -> exists pre, s = pre +:+ r.
Proof.
  revert r. induction s as [|c s IH]; simpl; intros r H; [discriminate|].
  destruct (Ascii.eqb "]" c).
  - injection H as <-. now exists (String c "").
  - destruct (Py.not_newline c); [|discriminate].
    destruct (IH r H) as [pre ->]. now exists (String c pre).
Qed.

(** [re.sub(r'\[.*?\]', '', s)], one character at a time. *)
Lemma sub_dimension_cons (c : ascii) (s' : string) :
  re_sub dimension_re "" (String c s')
  = if Ascii.eqb "[" c then
      match closing s' with
      | Some r => re_sub dimension_re "" r
      | None => String c (re_sub dimension_re "" s')
      end
    else String c (re_sub dimension_re "" s').
Proof.
  unfold re_sub. cbn [sub_from]. rewrite dimension_match.
  destruct (Ascii.eqb "[" c); [|reflexivity].
  destruct (closing s') as [r|] eqn:Hclose; [|reflexivity].
  destruct (closing_split _ _ Hclose) as [pre ->]. cbn [option_map matched].
  change (String c (pre +:+ r)) with (String c pre +:+ r). rewrite consumed_app.
  cbn [String.length]. rewrite sub_from_skip, skip_app. reflexivity.
Qed.













End Dimensions.

(** ** Separate declarations: a name declared more than once *)

Section Redeclaration.
Import Re SystemVerilogParser ParseFile.

Lemma mem_app x l1 l2 : Py.mem x (l1 ++ l2) = Py.mem x l1 || Py.mem x l2.
Proof. unfold Py.mem. apply existsb_app. Qed.

Lemma filter_filter {A} (f g : A -> bool) (l : list A) :
  List.filter f (List.filter g l) = List.filter (fun x => g x && f x) l.
Proof.
  induction l as [|a l IH]; simpl; [reflexivity|].
  destruct (g a); simpl; [destruct (f a)|]; now rewrite IH.
Qed.



Lemma first_declarations_subset l x : x ∈ first_declarations l <-> x ∈ l.
Proof.
  induction l as [|y l IH]; simpl; [reflexivity|].
  rewrite !elem_of_cons, <- IH, !list_elem_of_In, filter_In, negb_true_iff.
  destruct (String.eqb_spec x y) as [->|Hne]; [tauto|].
  split; [tauto|]. intros [H|H]; [tauto|]. right. tauto.
Qed.






End Redeclaration.

(** ** parse_file and exceptions *)

Section ParseFileErrors.
Import ParseFile.


End ParseFileErrors.

(** ** ModuleItem: bare names and the width map *)

Section PortWidths.
Import Re SystemVerilogParser ModuleItemImpl DesignCanvasImpl Designer.

Lemma port_re_bare (port_name : string) :
  is_identifier port_name ->
  re_search port_re port_name
  = Some ("", {| matched := port_name; groups := [(1, port_name)]; rest := "" |}).
Proof.
  intros [Hne Hword]. destruct port_name as [|a port_name']; [contradiction|].
  simpl in Hword. apply andb_true_iff in Hword as [Ha Hword].
  unfold re_search.
  assert (Hm : re_match port_re (String a port_name')
               = Some {| matched := String a port_name'; groups := [(1, String a port_name')];
                         rest := "" |}).
  { unfold re_match, port_re, cat. simpl. rewrite Ha.
    rewrite <- (append_nil_r port_name') at 1.
    erewrite rep_greedy_run; [reflexivity|exact Hword|exact I|].
    simpl. now rewrite !consumed_nil. }
  destruct port_name'; now rewrite Hm.
Qed.

Lemma port_re_ranged (port_name width : string) :
  is_identifier port_name -> width <> "" -> is_range width ->
  re_search port_re (with_width width port_name)
  = Some ("", {| matched := with_width width port_name;
                 groups := [(2, width); (1, port_name)]; rest := "" |}).
Proof.
  intros [Hne Hword] Hw Hrange.
  destruct port_name as [|a port_name']; [contradiction|].
  destruct width as [|b width']; [contradiction|].
  simpl in Hword. apply andb_true_iff in Hword as [Ha Hword].
  unfold is_range in Hrange. simpl in Hrange. apply andb_true_iff in Hrange as [Hb Hrange].
  unfold with_width.
  set (tail := "[" +:+ String b width' +:+ "]").
  assert (Hm : re_match port_re (String a port_name' +:+ tail)
               = Some {| matched := String a port_name' +:+ tail;
                         groups := [(2, String b width'); (1, String a port_name')];
                         rest := "" |}).
  { unfold re_match, port_re, cat. rewrite append_cons. simpl. rewrite Ha.
    erewrite rep_greedy_run; [reflexivity|exact Hword|reflexivity|].
    unfold tail. simpl. rewrite Hb.
    erewrite rep_greedy_run; [reflexivity|exact Hrange|reflexivity|].
    simpl. rewrite consumed_nil.
    change ("" +:+ String b width' +:+ "]") with (String b width' +:+ "]").
    rewrite consumed_app.
    change (String a (port_name' +:+ "[" +:+ String b width' +:+ "]"))
      with (String a port_name' +:+ ("[" +:+ String b width' +:+ "]")).
    now rewrite consumed_app. }
  unfold re_search. rewrite append_cons in *. now rewrite Hm.
Qed.

Lemma parse_one_entry (new_ports : list string) (widths : gmap string string)
    (e : string * string) :
  well_formed_entry e ->
  parse_one (new_ports, widths) (entry_text e)
  = (new_ports ++ [e.1], <[e.1 := e.2]> widths).
Proof.
  destruct e as [port_name width]. intros [Hname Hrange]. simpl in *.
  unfold parse_one, entry_text. simpl. destruct width as [|b width']; simpl.
  - now rewrite port_re_bare.
  - now rewrite port_re_ranged.
Qed.

Lemma parse_entries (l : list (string * string)) : forall new_ports widths,
  Forall well_formed_entry l ->
  fold_left parse_one (List.map entry_text l) (new_ports, widths)
  = (new_ports ++ List.map fst l, recorded_widths l widths).
Proof.
  induction l as [|e l IH]; intros new_ports widths Hwf.
  - simpl. now rewrite app_nil_r.
  - apply Forall_cons in Hwf as [He Hl]. cbn [List.map fold_left].
    rewrite parse_one_entry, IH by assumption. now rewrite <- app_assoc.
Qed.

Lemma recorded_widths_other (l : list (string * string)) : forall widths port_name,
  port_name ∉ List.map fst l -> recorded_widths l widths !! port_name = widths !! port_name.
Proof.
  induction l as [|[n r] l IH]; intros widths port_name Hnot; simpl; [reflexivity|].
  simpl in Hnot. apply not_elem_of_cons in Hnot as [Hne Hnot].
  unfold recorded_widths in *. simpl. rewrite IH by exact Hnot.
  now apply lookup_insert_ne.
Qed.

Lemma recorded_widths_some (l : list (string * string)) : forall widths port_name,
  port_name ∈ List.map fst l ->
  exists width, (port_name, width) ∈ l /\ recorded_widths l widths !! port_name = Some width.
Proof.
  induction l as [|[n r] l IH]; intros widths port_name Hin; simpl in *.
  - now apply elem_of_nil in Hin.
  - destruct (decide (port_name ∈ List.map fst l)) as [Hl|Hl].
    + destruct (IH (<[n := r]> widths) port_name Hl) as [width [Hw Hlook]].
      exists width. split; [now right|exact Hlook].
    + apply elem_of_cons in Hin as [->|Hin]; [|contradiction].
      exists r. split; [left|].
      unfold recorded_widths. simpl.
      fold (recorded_widths l (<[n := r]> widths)).
      rewrite recorded_widths_other by exact Hl. apply lookup_insert_eq.
Qed.

Lemma unique_width (l : list (string * string)) port_name w1 w2 :
  NoDup (List.map fst l) -> (port_name, w1) ∈ l -> (port_name, w2) ∈ l -> w1 = w2.
Proof.
  induction l as [|[n r] l IH]; intros Hnd H1 H2.
  - now apply elem_of_nil in H1.
  - simpl in Hnd. apply NoDup_cons in Hnd as [Hn Hnd].
    assert (Hfst : forall w, (port_name, w) ∈ l -> port_name ∈ List.map fst l).
    { intros w Hw. apply list_elem_of_In, in_map_iff. exists (port_name, w).
      split; [reflexivity|now apply list_elem_of_In]. }
    apply elem_of_cons in H1 as [E1|H1]; apply elem_of_cons in H2 as [E2|H2].
    + congruence.
    + injection E1 as -> ->. exfalso. eauto.
    + injection E2 as -> ->. exfalso. eauto.
    + eauto.
Qed.

(** C10. A [ModuleItem] built from an interface whose entries are
    identifiers, each with or without a bracketed range, keeps in its input
    and output lists the bare identifiers only, in the order of the entries;
    the range of every port is found in [port_widths] under the bare name;
    the bindings of an instantiation are made per bare name. *)
Theorem module_item_bare_names
    (id : nat) (instance_name : string) (ins outs : list (string * string)) :
  Forall well_formed_entry ins -> Forall well_formed_entry outs ->
  let item := init id instance_name
                {| inputs := List.map entry_text ins; outputs := List.map entry_text outs |} in
  inputs (ports item) = List.map fst ins
  /\ outputs (ports item) = List.map fst outs
  /\ Forall is_identifier (inputs (ports item) ++ outputs (ports item))
  /\ (forall port_name, port_name ∈ List.map fst (ins ++ outs) ->
        exists width, (port_name, width) ∈ ins ++ outs
                      /\ port_widths item !! port_name = Some width)
  /\ (NoDup (List.map fst (ins ++ outs)) ->
      forall e, e ∈ ins ++ outs -> port_widths item !! e.1 = Some e.2)
  /\ forall ws, connections ws item
                = List.map (fun port => binding port (signal_of ws item port))
                           (List.map fst ins ++ List.map fst outs).
Proof.
  intros Hins Houts item.
  assert (Hitem : item = {| item_id := id; name := instance_name;
                            ports := {| inputs := List.map fst ins;
                                        outputs := List.map fst outs |};
                            port_widths := recorded_widths (ins ++ outs) ∅ |}).
  { unfold item, init, parse_port_widths. simpl.
    rewrite (parse_entries ins [] ∅ Hins). rewrite (parse_entries outs [] _ Houts).
    unfold recorded_widths. now rewrite fold_left_app. }
  assert (Hwidth : forall port_name, port_name ∈ List.map fst (ins ++ outs) ->
            exists width, (port_name, width) ∈ ins ++ outs
                          /\ port_widths item !! port_name = Some width).
  { intros port_name Hin. rewrite Hitem. simpl. now apply recorded_widths_some. }
  split; [now rewrite Hitem|]. split; [now rewrite Hitem|].
  split; [|split; [exact Hwidth|split]].
  - rewrite Hitem. simpl. rewrite <- List.map_app.
    apply Forall_forall. intros port_name Hin.
    apply list_elem_of_In, in_map_iff in Hin as [e [<- He]].
    pose proof (Forall_app_2 _ _ _ Hins Houts) as Hall.
    rewrite Forall_forall in Hall. apply list_elem_of_In, Hall in He. apply He.
  - intros Hnd [port_name width] He. simpl.
    destruct (Hwidth port_name) as [width' [He' Hlook]].
    { apply list_elem_of_In, in_map_iff. exists (port_name, width).
      split; [reflexivity|now apply list_elem_of_In]. }
    rewrite Hlook. f_equal. eapply unique_width; eauto.
  - intros ws. unfold connections. now rewrite Hitem.
Qed.

(** *** Entries of any form *)

Lemma rmatch_group_plus {A} (n : nat) (p : ascii -> bool) (r : regex)
    (a : ascii) (s' : string) (c : caps) (k : string -> caps -> option A) :
  rmatch (Seq (Grp n (Rep true true p)) r) (String a s') c k
  = if p a then
      rep_greedy p s' (fun s2 => rmatch r s2 ((n, consumed (String a s') s2) :: c) k)
    else None.
Proof. reflexivity. Qed.

Lemma port_re_group_1 (s : string) (m : found) :
  re_match port_re s = Some m -> is_identifier (group 1 (groups m)).
Proof.
  unfold re_match, port_re, cat. cbn [fold_right].
  destruct s as [|a s']; [discriminate|]. rewrite rmatch_group_plus.
  destruct (Py.is_word a) eqn:Ha; [|discriminate].
  intros H. apply rep_greedy_inv in H as (pre & s1 & -> & Hall & H).
  apply rmatch_inv in H as (pre2 & s2 & c2 & _ & _ & H & Hc2).
  cbv beta in H. injection H as <-. unfold group. cbn [groups]. rewrite Hc2 by reflexivity.
  cbn [cap_lookup Nat.eqb].
  change (String a (pre +:+ s1)) with (String a pre +:+ s1). rewrite consumed_app.
  split; [discriminate|]. simpl. now rewrite Ha, Hall.
Qed.

Lemma port_re_search_group_1 (s : string) : forall pre m,
  re_search port_re s = Some (pre, m) -> is_identifier (group 1 (groups m)).
Proof.
  induction s as [|c s IH]; intros pre m H; cbn [re_search] in H.
  - destruct (re_match port_re "") as [m'|] eqn:Hm; [|discriminate].
    injection H as <- <-. now apply port_re_group_1 in Hm.
  - destruct (re_match port_re (String c s)) as [m'|] eqn:Hm.
    + injection H as <- <-. now apply port_re_group_1 in Hm.
    + destruct (re_search port_re s) as [[pre' m']|] eqn:Hs; [|discriminate].
      injection H as <- <-. eapply IH. reflexivity.
Qed.

Lemma port_re_matches_word (a : ascii) (s' : string) :
  Py.is_word a = true -> re_match port_re (String a s') <> None.
Proof.
  intros Ha. unfold re_match, port_re, cat. cbn [fold_right].
  rewrite rmatch_group_plus, Ha.
  set (k := fun s2 : string => _).
  assert (Hk : forall s2, k s2 <> None).
  { intros s2. unfold k. cbn [rmatch].
    match goal with |- context [match ?x with Some y => _ | None => _ end] => destruct x end;
      discriminate. }
  clear -Hk. induction s' as [|c s IH]; simpl; [apply Hk|].
  destruct (Py.is_word c); [|apply Hk].
  destruct (rep_greedy Py.is_word s k); [discriminate|apply Hk].
Qed.

Lemma port_re_search_none (s : string) :
  re_search port_re s = None -> Py.any_chars Py.is_word s = false.
Proof.
  induction s as [|c s IH]; [reflexivity|]. cbn [re_search Py.any_chars].
  destruct (re_match port_re (String c s)) as [m|] eqn:Hm; [discriminate|].
  destruct (re_search port_re s) as [[pre m]|]; [discriminate|]. intros _.
  rewrite IH by reflexivity. rewrite orb_false_r.
  destruct (Py.is_word c) eqn:Hc; [|reflexivity].
  exfalso. now apply (port_re_matches_word c s Hc).
Qed.

(** Whatever the entry, the name stored for it is an identifier, except
    for an entry without any character of [\w], which is stored as it is. *)
Lemma parse_one_stored (new_ports : list string) (widths : gmap string string)
    (port : string) :
  exists stored,
    (parse_one (new_ports, widths) port).1 = new_ports ++ [stored]
    /\ (is_identifier stored \/ (stored = port /\ Py.any_chars Py.is_word port = false)).
Proof.
  unfold parse_one. destruct (re_search port_re port) as [[pre m]|] eqn:Hs.
  - exists (group 1 (groups m)). split; [reflexivity|]. left.
    eapply port_re_search_group_1, Hs.
  - exists port. split; [reflexivity|]. right. split; [reflexivity|].
    now apply port_re_search_none.
Qed.

Lemma parse_ports_stored (l : list string) : forall new_ports widths,
  exists stored,
    (fold_left parse_one l (new_ports, widths)).1 = new_ports ++ stored
    /\ Forall (fun x => is_identifier x
                        \/ (x ∈ l /\ Py.any_chars Py.is_word x = false)) stored.
Proof.
  induction l as [|port l IH]; intros new_ports widths.
  - exists []. split; [simpl; now rewrite app_nil_r|constructor].
  - cbn [fold_left].
    destruct (parse_one_stored new_ports widths port) as [x [Hx Hform]].
    destruct (parse_one (new_ports, widths) port) as [names widths'].
    simpl in Hx. subst names.
    destruct (IH (new_ports ++ [x]) widths') as [stored [Hs Hall]].
    exists (x :: stored). split; [now rewrite Hs, <- app_assoc|].
    constructor.
    + destruct Hform as [Hid|[-> Hno]]; [now left|right; split; [left|exact Hno]].
    + eapply Forall_impl; [exact Hall|]. intros y [Hid|[Hin Hno]]; [now left|].
      right. split; [now right|exact Hno].
Qed.

(** X8. The names of an item. Whatever interface a [ModuleItem] is built
    from, each of its port names is an identifier, or an entry of the
    interface without any word character, kept as it was. *)
Lemma module_item_names_in_general (id : nat) (instance_name : string) (ports0 : PortsDict) :
  Forall (fun x => is_identifier x
                   \/ (x ∈ inputs ports0 ++ outputs ports0
                       /\ Py.any_chars Py.is_word x = false))
         (inputs (ports (init id instance_name ports0))
          ++ outputs (ports (init id instance_name ports0))).
Proof.
  unfold init, parse_port_widths. cbn [ports inputs outputs port_widths].
  destruct (parse_ports_stored (inputs ports0) [] ∅) as [ins [Hins Hall_in]].
  destruct (fold_left parse_one (inputs ports0) ([], ∅)) as [new_inputs widths].
  destruct (parse_ports_stored (outputs ports0) [] widths) as [outs [Houts Hall_out]].
  destruct (fold_left parse_one (outputs ports0) ([], widths)) as [new_outputs widths'].
  simpl in *. subst. apply Forall_app. split.
  - eapply Forall_impl; [exact Hall_in|]. intros y [Hid|[Hin Hno]]; [now left|].
    right. split; [apply elem_of_app; now left|exact Hno].
  - eapply Forall_impl; [exact Hall_out|]. intros y [Hid|[Hin Hno]]; [now left|].
    right. split; [apply elem_of_app; now right|exact Hno].
Qed.

Lemma module_item_bare_names_witness :
  inputs (ports (init 0 "adder" Examples.adder_ports)) = ["a"; "b"]
  /\ outputs (ports (init 0 "adder" Examples.adder_ports)) = ["sum"]
  /\ port_widths (init 0 "adder" Examples.adder_ports) !! "sum" = Some "4:0".
Proof.
  destruct (module_item_bare_names 0 "adder" [("a", "3:0"); ("b", "3:0")] [("sum", "4:0")])
    as (Hin & Hout & _ & _ & Hwidth & _).
  - repeat constructor; discriminate.
  - repeat constructor; discriminate.
  - split; [exact Hin|]. split; [exact Hout|].
    apply (Hwidth ltac:(apply (bool_decide_unpack _); vm_compute; exact I) ("sum", "4:0")).
    apply list_elem_of_further, list_elem_of_further, list_elem_of_here.
Defined.

End PortWidths.

(** ** Instance names *)

Section InstanceNames.
Import ModuleItemImpl DesignCanvasImpl Designer.

Lemma str_of_nat_inj (a b : nat) : Py.str_of_nat a = Py.str_of_nat b -> a = b.
Proof.
  unfold Py.str_of_nat. intros H.
  assert (Hd : Nat.to_uint a = Nat.to_uint b).
  { apply (f_equal NilEmpty.uint_of_string) in H.
    rewrite !NilEmpty.usu in H. now injection H. }
  apply (f_equal Nat.of_uint) in Hd.
  now rewrite !DecimalNat.Unsigned.of_to in Hd.
Qed.

Lemma candidate_inj (module_name : string) (a b : nat) :
  candidate module_name a = candidate module_name b -> a = b.
Proof.
  destruct a as [|a], b as [|b]; simpl; unfold numbered; intros H; [reflexivity| | |].
  - apply (f_equal String.length) in H. rewrite append_length in H. simpl in H. lia.
  - apply (f_equal String.length) in H. rewrite append_length in H. simpl in H. lia.
  - apply append_cancel_l in H. injection H as H. now apply str_of_nat_inj in H.
Qed.

Lemma mem_true_In {V} (k : string) (d : Dict.t string V) :
  Dict.mem k d = true -> In k (Dict.keys d).
Proof.
  unfold Dict.mem, Dict.keys. rewrite existsb_exists.
  intros [[k' v] [Hin Hk]]. apply bool_decide_eq_true in Hk. simpl in Hk. subst.
  apply in_map_iff. exists (k, v). auto.
Qed.

(** More candidates than keys cannot all be keys. *)
Lemma candidates_run_out {V} (module_name : string) (d : Dict.t string V) (n : nat) :
  (forall j, j <= n -> Dict.mem (candidate module_name j) d = true) ->
  n < length d.
Proof.
  intros Hall.
  assert (Hnd : List.NoDup (List.map (candidate module_name) (List.seq 0 (S n)))).
  { apply Injective_map_NoDup; [|apply List.seq_NoDup].
    intros a b. apply candidate_inj. }
  assert (Hincl : incl (List.map (candidate module_name) (List.seq 0 (S n))) (Dict.keys d)).
  { intros x Hx. apply in_map_iff in Hx as [j [<- Hj]]. apply in_seq in Hj.
    apply mem_true_In, Hall. lia. }
  pose proof (List.NoDup_incl_length Hnd Hincl) as Hlen.
  unfold Dict.keys in Hlen.
  rewrite !List.length_map, List.length_seq in Hlen. lia.
Qed.

Lemma unique_name_loop_first (modules : Dict.t string ModuleItem) (module_name : string) :
  forall fuel i,
    (forall j, j < i -> Dict.mem (candidate module_name j) modules = true) ->
    length modules <= i + fuel ->
    exists k,
      unique_name_loop fuel modules module_name (candidate module_name i) (S i)
        = Some (candidate module_name k)
      /\ Dict.mem (candidate module_name k) modules = false
      /\ forall j, j < k -> Dict.mem (candidate module_name j) modules = true.
Proof.
  induction fuel as [|fuel IH]; intros i Hbefore Hfuel.
  - simpl. destruct (Dict.mem (candidate module_name i) modules) eqn:Hi.
    + exfalso.
      assert (i < length modules); [|lia].
      apply (candidates_run_out module_name). intros j Hj.
      destruct (Nat.eq_dec j i) as [->|]; [exact Hi|apply Hbefore; lia].
    + exists i. auto.
  - simpl. destruct (Dict.mem (candidate module_name i) modules) eqn:Hi.
    + apply (IH (S i)); [|lia]. intros j Hj.
      destruct (Nat.eq_dec j i) as [->|]; [exact Hi|apply Hbefore; lia].
    + exists i. auto.
Qed.

Lemma set_new_key {V} (k : string) (v : V) (d : Dict.t string V) :
  Dict.mem k d = false -> Dict.set k v d = d ++ [(k, v)].
Proof.
  induction d as [|[k' v'] d IH]; simpl; [reflexivity|].
  intros H. apply orb_false_elim in H as [Hk Hd]. simpl in Hk.
  apply bool_decide_eq_false in Hk.
  destruct (decide (k' = k)); [contradiction|]. now rewrite IH.
Qed.

(** C5. [add_module_to_canvas] always succeeds: the instance gets the first
    name of [typeName], [typeName_1], [typeName_2], ... that is not a key
    of the canvas dictionary, whatever the types of the instances already
    there, and is stored under that name after them. *)
Theorem add_module_first_unused_name
    (self : DesignCanvas) (module_name : string) (ports0 : PortsDict) :
  exists k self' ports',
    unique_instance_name (modules self) module_name = Some (candidate module_name k)
    /\ Dict.mem (candidate module_name k) (modules self) = false
    /\ (forall j, j < k -> Dict.mem (candidate module_name j) (modules self) = true)
    /\ add_module_to_canvas self module_name ports0 = Some (self', ports')
    /\ modules self'
       = modules self
         ++ [(candidate module_name k,
              init (next_id self) (candidate module_name k) ports0)]
    /\ wires self' = wires self.
Proof.
  destruct (unique_name_loop_first (modules self) module_name (length (modules self)) 0)
    as [k [Hk [Hfree Hused]]]; [intros j Hj; lia|lia|].
  change (candidate module_name 0) with module_name in Hk.
  exists k. unfold add_module_to_canvas, unique_instance_name.
  rewrite Hk. do 2 eexists.
  split; [reflexivity|]. split; [exact Hfree|]. split; [exact Hused|].
  split; [reflexivity|]. simpl. split; [|reflexivity].
  now apply set_new_key.
Qed.

End InstanceNames.

(** ** The wire list: one driver per input *)

Section SingleDriver.
Import ModuleItemImpl DesignCanvasImpl Designer.

Lemma same_module_eq a b : same_module a b = true <-> item_id a = item_id b.
Proof. unfold same_module. apply Nat.eqb_eq. Qed.

Lemma same_id_same_item (vs : list ModuleItem) a b :
  NoDup (List.map item_id vs) -> a ∈ vs -> b ∈ vs ->
  item_id a = item_id b -> a = b.
Proof.
  induction vs as [|v vs IH]; intros Hnd Ha Hb Hid.
  - now apply elem_of_nil in Ha.
  - simpl in Hnd. apply NoDup_cons in Hnd as [Hv Hnd].
    apply elem_of_cons in Ha as [->|Ha]; apply elem_of_cons in Hb as [->|Hb]; auto.
    + exfalso. apply Hv. rewrite Hid. apply list_elem_of_In, in_map. now apply list_elem_of_In.
    + exfalso. apply Hv. rewrite <- Hid. apply list_elem_of_In, in_map. now apply list_elem_of_In.
Qed.

Lemma inbound_sublist (ws ws' : list WireItem) m port :
  ws' `sublist_of` ws -> length (inbound ws' m port) <= length (inbound ws m port).
Proof.
  unfold inbound. induction 1 as [|w l1 l2 _ IH|w l1 l2 _ IH]; simpl.
  - lia.
  - destruct (arrives_at m port w); simpl; lia.
  - destruct (arrives_at m port w); simpl; lia.
Qed.

Lemma inbound_nil_iff ws m port :
  inbound ws m port = [] <-> existsb (arrives_at m port) ws = false.
Proof.
  unfold inbound. induction ws as [|w ws IH]; simpl; [tauto|].
  destruct (arrives_at m port w); simpl; [split; discriminate|exact IH].
Qed.

Lemma map_sublist {A B} (f : A -> B) (l1 l2 : list A) :
  l1 `sublist_of` l2 -> List.map f l1 `sublist_of` List.map f l2.
Proof. induction 1; simpl; constructor; auto. Qed.

Lemma well_formed_sublist vs ws next vs' ws' :
  well_formed vs ws next -> vs' `sublist_of` vs -> ws' `sublist_of` ws ->
  well_formed vs' ws' next.
Proof.
  intros [Hids Hfresh Hef Hends Hsingle] Hvs Hws.
  pose proof (sublist_subseteq _ _ Hvs) as Hvin.
  pose proof (sublist_subseteq _ _ Hws) as Hwin.
  split.
  - eapply sublist_NoDup; [exact Hids|apply map_sublist; exact Hvs].
  - intros m Hm. apply Hfresh, Hvin, Hm.
  - intros w Hw. apply Hef, Hwin, Hw.
  - intros w m Hw Hm. apply Hends; [apply Hwin, Hw|apply Hvin, Hm].
  - intros m port Hm Hport.
    etransitivity; [apply inbound_sublist, Hws|]. apply Hsingle; [apply Hvin, Hm|exact Hport].
Qed.

(** *** Deleting *)

Lemma remove_wire_sublist wire ws ws' :
  remove_wire wire ws = Some ws' -> ws' `sublist_of` ws.
Proof.
  revert ws'. induction ws as [|w ws IH]; simpl; intros ws' H; [discriminate|].
  destruct (same_wire w wire).
  - injection H as <-. now constructor.
  - destruct (remove_wire wire ws) as [r|]; [|discriminate].
    injection H as <-. constructor. now apply IH.
Qed.

Lemma remove_wires_sublist to_remove ws :
  (remove_wires to_remove ws).1 `sublist_of` ws.
Proof.
  revert ws. induction to_remove as [|w rest IH]; simpl; intros ws; [reflexivity|].
  destruct (remove_wire w ws) as [ws'|] eqn:Hw; [|reflexivity].
  etransitivity; [apply IH|]. eapply remove_wire_sublist, Hw.
Qed.

Lemma del_values_sublist (k : string) (d : Dict.t string ModuleItem) :
  Dict.values (Dict.del k d) `sublist_of` Dict.values d.
Proof. unfold Dict.values, Dict.del. apply map_sublist, sublist_filter. Qed.

Lemma delete_item_shrinks self item :
  Dict.values (modules (delete_item self item).1) `sublist_of` Dict.values (modules self)
  /\ wires (delete_item self item).1 `sublist_of` wires self
  /\ next_id (delete_item self item).1 = next_id self.
Proof.
  destruct item as [item|item|]; simpl.
  - pose proof (remove_wires_sublist (List.filter (touches item) (wires self)) (wires self)) as Hs.
    destruct (remove_wires _ _) as [ws [e|]]; simpl in *; [auto|].
    destruct (Dict.mem (name item) (modules self)); simpl; [|auto].
    split; [apply del_values_sublist|auto].
  - destruct (remove_wire item (wires self)) as [ws|] eqn:Hw; simpl; [|auto].
    split; [reflexivity|]. split; [|reflexivity]. eapply remove_wire_sublist, Hw.
  - auto.
Qed.

Lemma delete_selected_items_shrinks selected_items : forall self,
  Dict.values (modules (delete_selected_items self selected_items).1)
    `sublist_of` Dict.values (modules self)
  /\ wires (delete_selected_items self selected_items).1 `sublist_of` wires self
  /\ next_id (delete_selected_items self selected_items).1 = next_id self.
Proof.
  induction selected_items as [|item rest IH]; intros self; simpl; [auto|].
  pose proof (delete_item_shrinks self item) as [Hm [Hw Hn]].
  destruct (delete_item self item) as [self' [e|]]; simpl in *; [auto|].
  destruct (IH self') as [Hm' [Hw' Hn']].
  split; [etransitivity; eauto|]. split; [etransitivity; eauto|congruence].
Qed.

(** *** Connecting *)

Lemma well_formed_connect vs ws next id src dst src_port port :
  well_formed vs ws next -> dst ∈ vs ->
  (Py.mem port (inputs (ports dst)) = true -> existsb (arrives_at dst port) ws = false) ->
  well_formed vs
    (ws ++ [{| wire_id := id; start_module := src; end_module := dst;
               start_port := src_port; end_port := port |}])
    (S next).
Proof.
  intros [Hids Hfresh Hef Hends Hsingle] Hdst Hfree. split.
  - exact Hids.
  - intros m Hm. specialize (Hfresh m Hm). lia.
  - intros w Hw. apply elem_of_app in Hw as [Hw|Hw].
    + specialize (Hef w Hw). lia.
    + apply list_elem_of_singleton in Hw. subst w. simpl.
      specialize (Hfresh dst Hdst). lia.
  - intros w m Hw Hm Hsame. apply elem_of_app in Hw as [Hw|Hw]; [now apply Hends|].
    apply list_elem_of_singleton in Hw. subst w. simpl in *.
    apply (same_id_same_item vs); auto. now apply same_module_eq.
  - intros m p Hm Hp. unfold inbound. rewrite List.filter_app, List.length_app. simpl.
    destruct (arrives_at m p _) eqn:Harr; simpl.
    + unfold arrives_at in Harr. simpl in Harr.
      apply andb_true_iff in Harr as [Hsame Hport].
      apply String.eqb_eq in Hport. subst p.
      assert (dst = m) as <-.
      { apply (same_id_same_item vs); auto. now apply same_module_eq. }
      apply Hfree, inbound_nil_iff in Hp. unfold inbound in Hp. rewrite Hp. simpl. lia.
    + specialize (Hsingle m p Hm Hp). unfold inbound in Hsingle. lia.
Qed.

Lemma well_formed_later vs ws next next' :
  well_formed vs ws next -> next <= next' -> well_formed vs ws next'.
Proof.
  intros [Hids Hfresh Hef Hends Hsingle] Hle. split; auto.
  - intros m Hm. specialize (Hfresh m Hm). lia.
  - intros w Hw. specialize (Hef w Hw). lia.
Qed.

Lemma not_already_connected (ws : list WireItem) m port :
  negb (Py.mem port (inputs (ports m))
        && existsb (fun wire => same_module (end_module wire) m
                                && String.eqb (end_port wire) port) ws) = true ->
  Py.mem port (inputs (ports m)) = true -> existsb (arrives_at m port) ws = false.
Proof.
  intros H Hp. rewrite Hp in H. simpl in H. now apply negb_true_iff in H.
Qed.

Lemma release_on_ok vs st module port :
  drag_ok vs st -> module ∈ vs -> drag_ok vs (release_on st module port).
Proof.
  intros [Hstart Hwf] Hmod. unfold release_on.
  destruct (Py.mem (d_start_port st) (outputs (ports (d_start_module st)))
            && Py.mem port (inputs (ports module))) eqn:HA;
    [|destruct (Py.mem (d_start_port st) (inputs (ports (d_start_module st)))
                && Py.mem port (outputs (ports module))) eqn:HB;
      [|destruct (valid_connection st) eqn:Hvalid]];
    cbv zeta iota beta;
    try match goal with
        | |- context [negb (?a && existsb ?f ?l)] =>
            destruct (negb (a && existsb f l)) eqn:Hfree
        end;
    split; simpl; auto;
    apply well_formed_connect; auto; now apply not_already_connected.
Qed.

Lemma release_fold_ok hit vs (l : list ModuleItem) : forall st,
  (forall m, m ∈ l -> m ∈ vs) -> drag_ok vs st ->
  drag_ok vs (fold_left (release_step hit) l st).
Proof.
  induction l as [|m l IH]; intros st Hl Hst; simpl; [exact Hst|].
  apply IH; [intros m' Hm'; apply Hl; now right|].
  unfold release_step. destruct (same_module m (d_start_module st)); [exact Hst|].
  destruct (hit m) as [port|]; [|exact Hst].
  apply release_on_ok; [exact Hst|apply Hl; now left].
Qed.

Lemma mouseReleaseEvent_ok self start_module start_port hit :
  canvas_ok self -> start_module ∈ Dict.values (modules self) ->
  canvas_ok (mouseReleaseEvent self start_module start_port hit).1.
Proof.
  intros Hok Hstart. unfold mouseReleaseEvent, canvas_ok. simpl.
  apply (release_fold_ok hit (Dict.values (modules self))); [auto|].
  split; [exact Hstart|exact Hok].
Qed.

(** *** Placing an instance *)

Lemma parse_port_widths_id self : item_id (parse_port_widths self) = item_id self.
Proof.
  unfold parse_port_widths.
  destruct (fold_left parse_one (inputs (ports self)) _) as [new_inputs widths].
  destruct (fold_left parse_one (outputs (ports self)) _) as [new_outputs widths'].
  reflexivity.
Qed.

Lemma unique_name_loop_free (modules : Dict.t string ModuleItem) module_name :
  forall fuel instance_name count r,
    unique_name_loop fuel modules module_name instance_name count = Some r ->
    Dict.mem r modules = false.
Proof.
  induction fuel as [|fuel IH]; simpl; intros instance_name count r H;
    destruct (Dict.mem instance_name modules) eqn:Hmem; try discriminate.
  - now injection H as <-.
  - eapply IH, H.
  - now injection H as <-.
Qed.

Lemma values_app {K V} (d1 d2 : list (K * V)) :
  Dict.values (d1 ++ d2) = Dict.values d1 ++ Dict.values d2.
Proof. apply List.map_app. Qed.

Lemma add_module_to_canvas_ok self module_name ports0 self' ports' :
  canvas_ok self ->
  add_module_to_canvas self module_name ports0 = Some (self', ports') ->
  canvas_ok self'.
Proof.
  intros [Hids Hfresh Hef Hends Hsingle] Hadd. unfold add_module_to_canvas in Hadd.
  destruct (unique_instance_name (modules self) module_name) as [instance_name|] eqn:Hname;
    [|discriminate].
  injection Hadd as <- _.
  apply unique_name_loop_free in Hname.
  unfold canvas_ok. simpl. rewrite (set_new_key _ _ _ Hname), values_app. simpl.
  set (item := init (next_id self) instance_name ports0).
  assert (Hid : item_id item = next_id self) by apply parse_port_widths_id.
  assert (Hnone : forall w, w ∈ wires self -> same_module (end_module w) item = false).
  { intros w Hw. apply not_true_iff_false. intros Hsame.
    apply same_module_eq in Hsame. specialize (Hef w Hw). lia. }
  split.
  - rewrite List.map_app. simpl. apply NoDup_app. split; [exact Hids|].
    split; [|apply NoDup_singleton].
    intros x Hx Hx'. apply list_elem_of_singleton in Hx'. subst x.
    apply list_elem_of_In, in_map_iff in Hx as [m [Hm Hin]].
    apply list_elem_of_In, Hfresh in Hin. lia.
  - intros m Hm. apply elem_of_app in Hm as [Hm|Hm].
    + specialize (Hfresh m Hm). lia.
    + apply list_elem_of_singleton in Hm. subst m. lia.
  - intros w Hw. specialize (Hef w Hw). lia.
  - intros w m Hw Hm Hsame. apply elem_of_app in Hm as [Hm|Hm]; [now apply Hends|].
    apply list_elem_of_singleton in Hm. subst m. rewrite (Hnone w Hw) in Hsame. discriminate.
  - intros m port Hm Hport. apply elem_of_app in Hm as [Hm|Hm]; [now apply Hsingle|].
    apply list_elem_of_singleton in Hm. subst m.
    assert (inbound (wires self) item port = []) as ->; [|simpl; lia].
    apply inbound_nil_iff, not_true_iff_false. intros Hex.
    apply existsb_exists in Hex as [w [Hw Harr]]. unfold arrives_at in Harr.
    apply andb_true_iff in Harr as [Hsame _].
    apply list_elem_of_In in Hw. rewrite (Hnone w Hw) in Hsame. discriminate.
Qed.

Lemma canvas_ok_empty : canvas_ok empty.
Proof.
  split; simpl.
  - apply NoDup_nil_2.
  - intros m Hm. now apply elem_of_nil in Hm.
  - intros w Hw. now apply elem_of_nil in Hw.
  - intros w m Hw. now apply elem_of_nil in Hw.
  - intros. lia.
Qed.

Lemma step_ok self self' : canvas_ok self -> step self self' -> canvas_ok self'.
Proof.
  intros Hok Hstep. destruct Hstep as [self module_name ports0 self' ports' Hadd
    |self start_module start_port hit Hstart|self selected_items|self].
  - eapply add_module_to_canvas_ok; eauto.
  - now apply mouseReleaseEvent_ok.
  - destruct (delete_selected_items_shrinks selected_items self) as [Hm [Hw Hn]].
    unfold canvas_ok. rewrite Hn. eapply well_formed_sublist; eauto.
  - unfold canvas_ok, new_design. simpl.
    eapply well_formed_sublist; [exact Hok| |]; apply sublist_nil_l.
Qed.

Lemma reachable_ok self : reachable self -> canvas_ok self.
Proof.
  induction 1 as [|self self' _ IH Hstep]; [apply canvas_ok_empty|].
  eapply step_ok; eauto.
Qed.

(** C3. On every canvas reached from the empty one by placing instances,
    releasing wires, deleting selections and starting over, each input port
    of each instance has at most one inbound connection, and every further
    such action leaves it so. *)
Theorem single_driver_invariant (self : DesignCanvas) :
  reachable self ->
  single_driver self /\ forall self', step self self' -> single_driver self'.
Proof.
  intros Hreach. split.
  - intros module port. apply (wf_single _ _ _ (reachable_ok self Hreach)).
  - intros self' Hstep module port.
    apply (wf_single _ _ _ (step_ok self self' (reachable_ok self Hreach) Hstep)).
Qed.

End SingleDriver.

(** ** A second driver is refused *)

Section SecondDriver.
Import ModuleItemImpl DesignCanvasImpl Designer.

Lemma reachable_chained : reachable Examples.chained.
Proof.
  apply (reachable_step Examples.two_adders).
  - apply (reachable_step Examples.one_adder).
    + apply (reachable_step empty); [apply reachable_empty|].
      apply (step_add empty "adder" Examples.adder_ports _
               {| inputs := ["a"; "b"]; outputs := ["sum"] |}).
      vm_compute. reflexivity.
    + apply (step_add Examples.one_adder "adder" Examples.adder_ports _
               {| inputs := ["a"; "b"]; outputs := ["sum"] |}).
      vm_compute. reflexivity.
  - apply step_connect. vm_compute. apply list_elem_of_here.
Qed.

(** The bound is reached: [adder_1.a] has its one driver. *)
Lemma chained_input_driven_once :
  List.map wire_name
    (inbound (wires Examples.chained) (Examples.item_named Examples.chained "adder_1") "a")
  = ["w_adder_sum_to_adder_1_a"].
Proof. vm_compute. reflexivity. Qed.

Lemma single_driver_invariant_witness :
  single_driver Examples.chained
  /\ forall self', step Examples.chained self' -> single_driver self'.
Proof. exact (single_driver_invariant Examples.chained reachable_chained). Defined.






(** The same refusal when the wire is drawn from the driven input
    [adder_1.a] to the output [adder_2.sum], by evaluation. *)
Lemma reversed_drag_refused_example :
  mouseReleaseEvent Examples.three_adders
    (Examples.item_named Examples.three_adders "adder_1") "a"
    (only_on (Examples.item_named Examples.three_adders "adder_2") "sum")
  = ({| modules := modules Examples.three_adders;
        wires := wires Examples.three_adders;
        next_id := next_id Examples.three_adders |},
     [InputAlreadyConnected]).
Proof. vm_compute. reflexivity. Qed.


End SecondDriver.

(** ** The dictionary of wire names *)

Section WireNames.
Import ModuleItemImpl DesignCanvasImpl Designer.

Lemma get_set_same {K V} `{EqDecision K} (k : K) (v : V) (d : Dict.t K V) :
  Dict.get k (Dict.set k v d) = Some v.
Proof.
  induction d as [|[k' v'] d IH]; simpl.
  - now destruct (decide (k = k)).
  - destruct (decide (k' = k)) as [->|Hne]; simpl.
    + now destruct (decide (k = k)).
    + now destruct (decide (k' = k)).
Qed.

Lemma get_set_other {K V} `{EqDecision K} (k k0 : K) (v : V) (d : Dict.t K V) :
  k0 <> k -> Dict.get k (Dict.set k0 v d) = Dict.get k d.
Proof.
  intros Hne. induction d as [|[k' v'] d IH]; simpl.
  - now destruct (decide (k0 = k)).
  - destruct (decide (k' = k0)) as [->|Hne']; simpl.
    + now destruct (decide (k0 = k)).
    + destruct (decide (k' = k)); [reflexivity|exact IH].
Qed.

Lemma wire_names_get (ws : list WireItem) : forall d key,
  (exists w, w ∈ ws /\ wire_key w = key
             /\ Dict.get key (fold_left (fun d wire => Dict.set (wire_key wire) (wire_name wire) d)
                                        ws d)
                = Some (wire_name w))
  \/ ((forall w, w ∈ ws -> wire_key w <> key)
      /\ Dict.get key (fold_left (fun d wire => Dict.set (wire_key wire) (wire_name wire) d)
                                 ws d)
         = Dict.get key d).
Proof.
  induction ws as [|w ws IH]; intros d key; simpl.
  - right. split; [|reflexivity]. intros w Hw. now apply elem_of_nil in Hw.
  - destruct (IH (Dict.set (wire_key w) (wire_name w) d) key)
      as [(w' & Hin & Hkey & Hget)|[Hnone Hget]].
    + left. exists w'. split; [now right|auto].
    + destruct (decide (wire_key w = key)) as [Heq|Hne].
      * left. exists w. split; [left|]. split; [exact Heq|].
        rewrite Hget, <- Heq. apply get_set_same.
      * right. split.
        -- intros w' Hw'. apply elem_of_cons in Hw' as [->|Hw']; auto.
        -- rewrite Hget. now apply get_set_other.
Qed.

(** Looking up the name of a wire of the list never fails: the lookup
    finds the name entered for a wire with the same key, which is the
    wire's own name when equal keys mean equal names. *)
Lemma named_wire_found (ws : list WireItem) (wire : WireItem) :
  wire ∈ ws ->
  exists w, w ∈ ws /\ wire_key w = wire_key wire /\ named_wire ws wire = wire_name w.
Proof.
  intros Hin. unfold named_wire, wire_names.
  destruct (wire_names_get ws [] (wire_key wire)) as [(w & Hw & Hkey & Hget)|[Hnone _]].
  - exists w. rewrite Hget. auto.
  - exfalso. now apply (Hnone wire Hin).
Qed.

End WireNames.

(** ** Synthesis *)

Section Synthesis.
Import ModuleItemImpl DesignCanvasImpl Designer.
Local Arguments Ascii.eqb : simpl never.

(** C8. With no instance on the canvas [generate_systemverilog] only shows
    the "Empty Design" warning: no text is produced and nothing is written,
    whatever the dialogs would have answered. *)
Theorem empty_design_refused (self : DesignCanvas) (env : answers) :
  modules self = [] ->
  generate_systemverilog self env = [WarningBox "Empty Design"]
  /\ forall filename text, WriteFile filename text ∉ generate_systemverilog self env.
Proof.
  intros Hempty. unfold generate_systemverilog. rewrite Hempty. split; [reflexivity|].
  intros filename text Hin. apply list_elem_of_singleton in Hin. discriminate.
Qed.

Lemma empty_design_refused_witness :
  generate_systemverilog empty (Examples.run_at "2024-01-01 00:00:00")
    = [WarningBox "Empty Design"]
  /\ forall filename text,
       WriteFile filename text
         ∉ generate_systemverilog empty (Examples.run_at "2024-01-01 00:00:00").
Proof. apply (empty_design_refused empty (Examples.run_at "2024-01-01 00:00:00")). reflexivity. Defined.

(** *** The module type behind an instance name *)

Lemma split_char_nonempty (sep : ascii) (s : string) : split_char_ne sep s.
Proof.
  unfold split_char_ne. induction s as [|c s IH]; simpl; [discriminate|].
  destruct (Ascii.eqb c sep); [discriminate|].
  destruct (Py.split_char sep s); [contradiction|discriminate].
Qed.

Lemma split_char_app (sep : ascii) (a b : string) :
  Py.split_char sep (a +:+ String sep b) = Py.split_char sep a ++ Py.split_char sep b.
Proof.
  induction a as [|c a IH].
  - change ("" +:+ String sep b) with (String sep b). simpl. now rewrite Ascii.eqb_refl.
  - rewrite append_cons. simpl. rewrite IH.
    destruct (Ascii.eqb c sep); [reflexivity|].
    pose proof (split_char_nonempty sep a) as Hne. unfold split_char_ne in Hne.
    now destruct (Py.split_char sep a).
Qed.

Lemma split_char_whole (sep : ascii) (s : string) :
  Py.contains_char sep s = false -> Py.split_char sep s = [s].
Proof.
  induction s as [|c s IH]; [reflexivity|]. simpl. intros H.
  apply orb_false_elim in H as [Hc Hs]. rewrite Ascii.eqb_sym, Hc, (IH Hs). reflexivity.
Qed.

Lemma join_cons_char (sep : string) (c : ascii) (p : string) (ps : list string) :
  Py.join sep (String c p :: ps) = String c (Py.join sep (p :: ps)).
Proof. unfold Py.join. now destruct ps. Qed.

Lemma join_split_char (sep : ascii) (s : string) :
  Py.join (String sep "") (Py.split_char sep s) = s.
Proof.
  induction s as [|c s IH]; [reflexivity|]. simpl.
  pose proof (split_char_nonempty sep s) as Hne. unfold split_char_ne in Hne.
  destruct (Ascii.eqb_spec c sep) as [->|Hc].
  - destruct (Py.split_char sep s) as [|p ps] eqn:Hs; [contradiction|].
    unfold Py.join in *.
    change (String.concat (String sep "") ("" :: p :: ps))
      with (String sep (String.concat (String sep "") (p :: ps))).
    now rewrite IH.
  - destruct (Py.split_char sep s) as [|p ps] eqn:Hs; [contradiction|].
    now rewrite join_cons_char, IH.
Qed.

Lemma string_of_uint_digits (d : Decimal.uint) :
  Py.all_chars Py.is_digit (NilEmpty.string_of_uint d) = true.
Proof. induction d; simpl; auto. Qed.

Lemma str_of_nat_isdigit (n : nat) : Py.isdigit (Py.str_of_nat n) = true.
Proof.
  unfold Py.isdigit, Py.str_of_nat.
  pose proof (string_of_uint_digits (Nat.to_uint n)) as Hd.
  assert (Hnil : Nat.to_uint n <> Decimal.Nil).
  { rewrite <- (DecimalNat.Unsigned.of_to n), DecimalNat.Unsigned.to_of.
    unfold Decimal.unorm. destruct (Decimal.nzhead _); discriminate. }
  destruct (Nat.to_uint n); try contradiction; exact Hd.
Qed.

Lemma digits_no_underscore (s : string) :
  Py.all_chars Py.is_digit s = true -> Py.contains_char "_" s = false.
Proof.
  induction s as [|c s IH]; [reflexivity|]. simpl. intros H.
  apply andb_true_iff in H as [Hc Hs]. rewrite (IH Hs), orb_false_r.
  destruct (Ascii.eqb_spec "_"%char c) as [<-|]; [discriminate|reflexivity].
Qed.

Lemma contains_char_app (a : ascii) (x y : string) :
  Py.contains_char a (x +:+ y) = Py.contains_char a x || Py.contains_char a y.
Proof.
  induction x as [|c x IH]; [reflexivity|].
  rewrite append_cons. simpl. now rewrite IH, orb_assoc.
Qed.

(** Where [get_module_type] is right: for the instance names made from a
    module name that does not itself end in an underscore and digits. *)
Lemma get_module_type_of_candidate (module_name : string) (k : nat) :
  get_module_type module_name = module_name ->
  get_module_type (candidate module_name k) = module_name.
Proof.
  intros Hplain. destruct k as [|j]; [exact Hplain|].
  unfold candidate, numbered, get_module_type.
  change ("_" +:+ Py.str_of_nat (S j)) with (String "_" (Py.str_of_nat (S j))).
  pose proof (str_of_nat_isdigit (S j)) as Hdigit.
  assert (Hsplit : Py.split_char "_" (Py.str_of_nat (S j)) = [Py.str_of_nat (S j)]).
  { apply split_char_whole, digits_no_underscore.
    unfold Py.isdigit in Hdigit. now destruct (Py.str_of_nat (S j)). }
  rewrite split_char_app, Hsplit, contains_char_app.
  rewrite List.last_last, List.removelast_last, Hdigit.
  cbn [Py.contains_char]. rewrite Ascii.eqb_refl, orb_true_r. cbn [andb].
  apply (join_split_char "_").
Qed.

(** C6, evaluated where it fails. An instance of the library module
    [mux_2] is called [mux_2]; the instantiation emitted for it names the
    module type [mux], which is neither the type nor in the library. *)
Theorem instantiation_of_mux_2 :
  Dict.keys (modules Examples.one_mux) = ["mux_2"]
  /\ get_module_type "mux_2" = "mux"
  /\ flat_map (instantiation Examples.one_mux) (modules Examples.one_mux)
     = ["  mux mux_2 (";
        "    .a(mux_2_a)," +:+ Py.nl +:+ "    .b(mux_2_b)," +:+ Py.nl
          +:+ "    .sel(mux_2_sel)," +:+ Py.nl +:+ "    .y(mux_2_y)";
        "  );"; ""].
Proof. vm_compute. auto. Qed.



End Synthesis.

(** ** Canvases: distinct names, distinct wires, no wire from an item to itself *)

Section CanvasSound.
Import ModuleItemImpl DesignCanvasImpl Designer.

Lemma parse_port_widths_name self : name (parse_port_widths self) = name self.
Proof.
  unfold parse_port_widths.
  destruct (fold_left parse_one (inputs (ports self)) _) as [new_inputs widths].
  destruct (fold_left parse_one (outputs (ports self)) _) as [new_outputs widths'].
  reflexivity.
Qed.

Lemma same_module_sym a b : same_module a b = same_module b a.
Proof. unfold same_module. apply Nat.eqb_sym. Qed.

Lemma wires_sound_later ws next next' :
  wires_sound ws next -> next <= next' -> wires_sound ws next'.
Proof.
  intros [Hids Hfresh Hself] Hle. split; auto.
  intros w Hw. specialize (Hfresh w Hw). lia.
Qed.

Lemma wires_sound_sublist ws ws' next :
  wires_sound ws next -> ws' `sublist_of` ws -> wires_sound ws' next.
Proof.
  intros [Hids Hfresh Hself] Hsub.
  pose proof (sublist_subseteq _ _ Hsub) as Hin. split.
  - eapply sublist_NoDup; [exact Hids|now apply map_sublist].
  - intros w Hw. apply Hfresh, Hin, Hw.
  - intros w Hw. apply Hself, Hin, Hw.
Qed.

Lemma wires_sound_snoc ws next src dst src_port dst_port :
  wires_sound ws next -> same_module src dst = false ->
  wires_sound (ws ++ [{| wire_id := next; start_module := src; end_module := dst;
                         start_port := src_port; end_port := dst_port |}])
              (S next).
Proof.
  intros [Hids Hfresh Hself] Hne. split.
  - rewrite List.map_app. simpl. apply NoDup_app. split; [exact Hids|].
    split; [|apply NoDup_singleton].
    intros x Hx Hx'. apply list_elem_of_singleton in Hx'. subst x.
    apply list_elem_of_In, in_map_iff in Hx as [w [Hw Hin]].
    apply list_elem_of_In, Hfresh in Hin. lia.
  - intros w Hw. apply elem_of_app in Hw as [Hw|Hw].
    + specialize (Hfresh w Hw). lia.
    + apply list_elem_of_singleton in Hw. subst w. simpl. lia.
  - intros w Hw. apply elem_of_app in Hw as [Hw|Hw]; [now apply Hself|].
    apply list_elem_of_singleton in Hw. now subst w.
Qed.

Lemma release_on_wires_sound st module port :
  wires_sound (d_wires st) (d_next_id st) ->
  same_module module (d_start_module st) = false ->
  wires_sound (d_wires (release_on st module port)) (d_next_id (release_on st module port)).
Proof.
  intros Hws Hne. unfold release_on.
  assert (Hne' : same_module (d_start_module st) module = false)
    by now rewrite same_module_sym.
  destruct (Py.mem (d_start_port st) (outputs (ports (d_start_module st)))
            && Py.mem port (inputs (ports module))) eqn:HA;
    [|destruct (Py.mem (d_start_port st) (inputs (ports (d_start_module st)))
                && Py.mem port (outputs (ports module))) eqn:HB;
      [|destruct (valid_connection st) eqn:Hvalid]];
    cbv zeta iota beta;
    try match goal with
        | |- context [negb (?a && existsb ?f ?l)] =>
            destruct (negb (a && existsb f l)) eqn:Hfree
        end;
    simpl; auto; now apply wires_sound_snoc.
Qed.

Lemma release_fold_wires_sound hit (l : list ModuleItem) : forall st,
  wires_sound (d_wires st) (d_next_id st) ->
  wires_sound (d_wires (fold_left (release_step hit) l st))
              (d_next_id (fold_left (release_step hit) l st)).
Proof.
  induction l as [|m l IH]; intros st Hst; simpl; [exact Hst|].
  apply IH. unfold release_step.
  destruct (same_module m (d_start_module st)) eqn:Hsame; [exact Hst|].
  destruct (hit m) as [port|]; [|exact Hst].
  now apply release_on_wires_sound.
Qed.

Lemma del_sublist (k : string) (d : Dict.t string ModuleItem) : Dict.del k d `sublist_of` d.
Proof. unfold Dict.del. apply sublist_filter. Qed.

Lemma delete_item_entries self item :
  modules (delete_item self item).1 `sublist_of` modules self.
Proof.
  destruct item as [item|item|]; simpl; [| |reflexivity].
  - destruct (remove_wires _ _) as [ws [e|]]; simpl; [reflexivity|].
    destruct (Dict.mem (name item) (modules self)); simpl; [apply del_sublist|reflexivity].
  - destruct (remove_wire item (wires self)); reflexivity.
Qed.

Lemma delete_selected_items_entries selected_items : forall self,
  modules (delete_selected_items self selected_items).1 `sublist_of` modules self.
Proof.
  induction selected_items as [|item rest IH]; intros self; simpl; [reflexivity|].
  pose proof (delete_item_entries self item) as Hm.
  destruct (delete_item self item) as [self' [e|]]; simpl in *; [exact Hm|].
  etransitivity; [apply IH|exact Hm].
Qed.

Lemma canvas_sound_shrink self self' :
  canvas_sound self ->
  modules self' `sublist_of` modules self -> wires self' `sublist_of` wires self ->
  next_id self' = next_id self -> canvas_sound self'.
Proof.
  intros [Hkeys Hnames Hws] Hm Hw Hn. split.
  - eapply sublist_NoDup; [exact Hkeys|]. now apply map_sublist.
  - intros k m Hin. apply Hnames. eapply sublist_subseteq; eauto.
  - rewrite Hn. eapply wires_sound_sublist; eauto.
Qed.

Lemma canvas_sound_step self self' : canvas_sound self -> step self self' -> canvas_sound self'.
Proof.
  intros Hok Hstep. destruct Hstep as [self module_name ports0 self' ports' Hadd
    |self start_module start_port hit Hstart|self selected_items|self].
  - destruct Hok as [Hkeys Hnames Hws]. unfold add_module_to_canvas in Hadd.
    destruct (unique_instance_name (modules self) module_name) as [instance_name|] eqn:Hname;
      [|discriminate].
    injection Hadd as <- _. apply unique_name_loop_free in Hname.
    split; simpl; rewrite ?(set_new_key _ _ _ Hname).
    + unfold Dict.keys. rewrite List.map_app. simpl. apply NoDup_app.
      split; [exact Hkeys|]. split; [|apply NoDup_singleton].
      intros x Hx Hx'. apply list_elem_of_singleton in Hx'. subst x.
      apply list_elem_of_In in Hx. apply not_true_iff_false in Hname. apply Hname.
      unfold Dict.mem. apply existsb_exists.
      apply in_map_iff in Hx as [[k v] [Hk Hin]]. simpl in Hk. subst k.
      exists (instance_name, v). split; [exact Hin|]. now apply bool_decide_eq_true.
    + intros k m Hin. apply elem_of_app in Hin as [Hin|Hin]; [now apply Hnames|].
      apply list_elem_of_singleton in Hin. injection Hin as -> ->.
      apply parse_port_widths_name.
    + eapply wires_sound_later; [exact Hws|lia].
  - destruct Hok as [Hkeys Hnames Hws]. split; simpl; auto.
    now apply release_fold_wires_sound.
  - destruct (delete_selected_items_shrinks selected_items self) as [_ [Hw Hn]].
    eapply canvas_sound_shrink; eauto. apply delete_selected_items_entries.
  - eapply canvas_sound_shrink; [exact Hok| | |reflexivity]; apply sublist_nil_l.
Qed.

Lemma canvas_sound_empty : canvas_sound empty.
Proof.
  split; simpl; [constructor| |split; simpl; [constructor| |]];
    intros; match goal with H : _ ∈ [] |- _ => now apply elem_of_nil in H end.
Qed.

Lemma reachable_sound self : reachable self -> canvas_sound self.
Proof.
  induction 1 as [|self self' _ IH Hstep]; [apply canvas_sound_empty|].
  eapply canvas_sound_step; eauto.
Qed.

Lemma entry_of_value {K V} (d : Dict.t K V) (v : V) :
  v ∈ Dict.values d -> exists k, (k, v) ∈ d.
Proof.
  intros Hin. apply list_elem_of_In, in_map_iff in Hin as [[k v'] [Hv Hin]].
  simpl in Hv. subst v'. exists k. now apply list_elem_of_In.
Qed.

Lemma get_of_entry {V} (d : Dict.t string V) (k : string) (v : V) :
  NoDup (Dict.keys d) -> (k, v) ∈ d -> Dict.get k d = Some v.
Proof.
  induction d as [|[k' v'] d IH]; intros Hnd Hin; [now apply elem_of_nil in Hin|].
  simpl in Hnd. apply NoDup_cons in Hnd as [Hk Hnd]. simpl.
  apply elem_of_cons in Hin as [Heq|Hin].
  - injection Heq as <- <-. now destruct (decide (k = k)).
  - destruct (decide (k' = k)) as [->|Hne]; [|now apply IH].
    exfalso. apply Hk. apply list_elem_of_In, in_map_iff. exists (k, v).
    split; [reflexivity|now apply list_elem_of_In].
Qed.

(** X10. Instance names. On every reachable canvas the instance names are
    pairwise distinct and every item is found in [modules] under its own
    name. *)
Theorem instance_names_distinct (self : DesignCanvas) :
  reachable self ->
  NoDup (List.map name (Dict.values (modules self)))
  /\ forall m, m ∈ Dict.values (modules self) -> Dict.get (name m) (modules self) = Some m.
Proof.
  intros Hreach. destruct (reachable_sound self Hreach) as [Hkeys Hnames _]. split.
  - assert (Heq : List.map name (Dict.values (modules self)) = Dict.keys (modules self)).
    { unfold Dict.values, Dict.keys. rewrite List.map_map. apply List.map_ext_in.
      intros [k m] Hin. simpl. apply Hnames. now apply list_elem_of_In. }
    now rewrite Heq.
  - intros m Hm. destruct (entry_of_value _ _ Hm) as [k Hin].
    rewrite (Hnames k m Hin). now apply get_of_entry.
Qed.

Lemma instance_names_distinct_witness :
  NoDup (List.map name (Dict.values (modules Examples.chained)))
  /\ forall m, m ∈ Dict.values (modules Examples.chained) ->
                Dict.get (name m) (modules Examples.chained) = Some m.
Proof. exact (instance_names_distinct Examples.chained reachable_chained). Defined.

(** X11. No self-connection. On every reachable canvas no wire connects an
    item to itself, and the wires are distinct objects. *)
Theorem no_self_connection (self : DesignCanvas) :
  reachable self ->
  (forall w, w ∈ wires self -> same_module (start_module w) (end_module w) = false)
  /\ NoDup (List.map wire_id (wires self)).
Proof.
  intros Hreach. destruct (reachable_sound self Hreach) as [_ _ [Hids _ Hself]]. auto.
Qed.

Lemma no_self_connection_witness :
  (forall w, w ∈ wires Examples.chained ->
             same_module (start_module w) (end_module w) = false)
  /\ NoDup (List.map wire_id (wires Examples.chained)).
Proof. exact (no_self_connection Examples.chained reachable_chained). Defined.

End CanvasSound.

(** ** Deleting: the cascade *)

Section Cascade.
Import ModuleItemImpl DesignCanvasImpl Designer.

Lemma remove_wires_keep_head (w : WireItem) (l : list WireItem) : forall ws,
  (forall x, x ∈ l -> wire_id x <> wire_id w) ->
  remove_wires l (w :: ws) = (w :: (remove_wires l ws).1, (remove_wires l ws).2).
Proof.
  induction l as [|x rest IH]; intros ws Hl; [reflexivity|].
  cbn [remove_wires remove_wire].
  assert (Hx : same_wire w x = false).
  { apply Nat.eqb_neq. intros Heq. apply (Hl x); [left|now symmetry]. }
  rewrite Hx. destruct (remove_wire x ws) as [r|]; [|reflexivity].
  apply IH. intros y Hy. apply Hl. now right.
Qed.

(** Removing, one by one, the wires of the list that satisfy [P] leaves
    those that do not, and never fails. *)
Lemma remove_filtered (P : WireItem -> bool) (ws : list WireItem) :
  NoDup (List.map wire_id ws) ->
  remove_wires (List.filter P ws) ws = (List.filter (fun w => negb (P w)) ws, None).
Proof.
  induction ws as [|w ws IH]; intros Hnd; [reflexivity|].
  simpl in Hnd. apply NoDup_cons in Hnd as [Hw Hnd]. specialize (IH Hnd).
  cbn [List.filter]. destruct (P w) eqn:HP; cbn [negb].
  - cbn [remove_wires remove_wire]. unfold same_wire. rewrite Nat.eqb_refl. exact IH.
  - rewrite remove_wires_keep_head, IH; [reflexivity|].
    intros x Hx Heq. apply Hw. rewrite <- Heq.
    apply list_elem_of_In, in_map. apply list_elem_of_In in Hx.
    now apply filter_In in Hx as [Hx _].
Qed.

Lemma mem_of_entry {V} (d : Dict.t string V) (k : string) (v : V) :
  (k, v) ∈ d -> Dict.mem k d = true.
Proof.
  intros Hin. unfold Dict.mem. apply existsb_exists. exists (k, v).
  split; [now apply list_elem_of_In|now apply bool_decide_eq_true].
Qed.


Lemma entry_unique {V} (d : Dict.t string V) (k : string) (v1 v2 : V) :
  NoDup (Dict.keys d) -> (k, v1) ∈ d -> (k, v2) ∈ d -> v1 = v2.
Proof.
  intros Hnd H1 H2. apply (get_of_entry d k v1 Hnd) in H1.
  apply (get_of_entry d k v2 Hnd) in H2. congruence.
Qed.


(** What deleting one item of a sound canvas does. *)
Lemma delete_module_item self item :
  canvas_sound self -> item ∈ Dict.values (modules self) ->
  delete_item self (IsModule item)
  = ({| modules := Dict.del (name item) (modules self);
        wires := List.filter (fun w => negb (touches item w)) (wires self);
        next_id := next_id self |}, None).
Proof.
  intros [Hkeys Hnames [Hids _ _]] Hitem. cbn [delete_item].
  rewrite remove_filtered by exact Hids.
  destruct (entry_of_value _ _ Hitem) as [k Hin].
  rewrite <- (Hnames k item Hin) in Hin. now rewrite (mem_of_entry _ _ _ Hin).
Qed.


End Cascade.

(** ** Connecting: what one release on one port does *)

Section Connecting.
Import ModuleItemImpl DesignCanvasImpl Designer.



Lemma release_on_forward st module port :
  Py.mem (d_start_port st) (outputs (ports (d_start_module st))) = true ->
  Py.mem port (inputs (ports module)) = true ->
  has_incoming (d_wires st) module port = false ->
  release_on st module port
  = {| d_start_module := d_start_module st; d_start_port := d_start_port st;
       valid_connection := true;
       d_wires := d_wires st
                  ++ [{| wire_id := d_next_id st;
                         start_module := d_start_module st; end_module := module;
                         start_port := d_start_port st; end_port := port |}];
       d_next_id := S (d_next_id st);
       d_warnings := d_warnings st |}.
Proof.
  intros Hout Hin Hfree. unfold release_on, has_incoming in *.
  rewrite Hout, Hin. simpl. rewrite ?Hin, ?Hfree. reflexivity.
Qed.






End Connecting.

(** ** Wires stay attached *)

Section Attached.
Import ModuleItemImpl DesignCanvasImpl Designer.















End Attached.

(** ** Deleting a selection of instances *)

Section Selection.
Import ModuleItemImpl DesignCanvasImpl Designer.

Lemma del_as_filter (d : Dict.t string ModuleItem) (item : ModuleItem) :
  NoDup (Dict.keys d) -> NoDup (List.map item_id (Dict.values d)) ->
  (forall k m, (k, m) ∈ d -> name m = k) ->
  item ∈ Dict.values d ->
  Dict.del (name item) d = List.filter (fun kv => negb (same_module kv.2 item)) d.
Proof.
  intros Hkeys Hids Hnames Hitem.
  destruct (entry_of_value _ _ Hitem) as [k Hk].
  pose proof (Hnames _ _ Hk) as Heq. subst k.
  assert (Hiff : forall k m, (k, m) ∈ d -> k <> name item <-> same_module m item = false).
  { intros k m Hin. split.
    - intros Hne. apply not_true_iff_false. intros Hsame. apply same_module_eq in Hsame.
      apply Hne. assert (Hm : m ∈ Dict.values d).
      { apply list_elem_of_In, in_map_iff. exists (k, m).
        split; [reflexivity|now apply list_elem_of_In]. }
      rewrite <- (Hnames _ _ Hin). f_equal. eapply same_id_same_item; eauto.
    - intros Hsame ->. assert (m = item) by (eapply entry_unique; eauto). subst m.
      unfold same_module in Hsame. now rewrite Nat.eqb_refl in Hsame. }
  clear Hkeys Hids Hnames Hitem Hk. unfold Dict.del, Dict.t.
  induction d as [|[k m] d IH]; [reflexivity|].
  rewrite filter_cons. cbn [List.filter snd fst].
  assert (IH' := IH (fun k' m' Hin => Hiff k' m' (list_elem_of_further _ _ _ Hin))).
  specialize (Hiff k m (list_elem_of_here _ _)).
  destruct (decide (k <> name item)) as [Hne|Heq].
  - apply Hiff in Hne. rewrite Hne. cbn [negb]. now rewrite IH'.
  - destruct (same_module m item) eqn:Hsame; cbn [negb]; [exact IH'|].
    exfalso. apply Heq. now apply Hiff.
Qed.

Lemma sublist_filter_list {A} (f : A -> bool) (l : list A) : List.filter f l `sublist_of` l.
Proof.
  induction l as [|a l IH]; simpl; [constructor|].
  destruct (f a); [now apply sublist_skip|now apply sublist_cons].
Qed.

Lemma filter_values (f : ModuleItem -> bool) (d : Dict.t string ModuleItem) :
  Dict.values (List.filter (fun kv => f kv.2) d) = List.filter f (Dict.values d).
Proof.
  induction d as [|[k m] d IH]; [reflexivity|].
  simpl. destruct (f m); simpl; now rewrite IH.
Qed.

(** The items of [selected] are removed one after the other, each with its
    wires, and no step raises. *)
Lemma delete_modules (selected : list ModuleItem) : forall self,
  canvas_sound self -> NoDup (List.map item_id (Dict.values (modules self))) ->
  NoDup (List.map item_id selected) ->
  (forall m, m ∈ selected -> m ∈ Dict.values (modules self)) ->
  delete_selected_items self (List.map IsModule selected)
  = ({| modules := List.filter (fun kv => negb (existsb (same_module kv.2) selected))
                               (modules self);
        wires := List.filter (fun w => negb (existsb (fun m => touches m w) selected))
                             (wires self);
        next_id := next_id self |}, None).
Proof.
  induction selected as [|item rest IH]; intros self Hsound Hids Hsel Hon.
  - simpl. rewrite !filter_true by reflexivity. now destruct self.
  - simpl in Hsel. apply NoDup_cons in Hsel as [Hitem Hrest].
    assert (Hin : item ∈ Dict.values (modules self)) by (apply Hon; left).
    cbn [List.map delete_selected_items]. rewrite delete_module_item by assumption.
    rewrite (del_as_filter _ item (cs_keys _ Hsound) Hids (cs_names _ Hsound) Hin).
    rewrite IH.
    + cbn [modules wires next_id existsb]. rewrite !filter_filter. f_equal. f_equal.
      * apply filter_ext. intros [k m]. simpl. now rewrite negb_orb.
      * apply filter_ext. intros w. now rewrite negb_orb.
    + apply (canvas_sound_shrink self); simpl; auto; apply sublist_filter_list.
    + simpl. rewrite (filter_values (fun m => negb (same_module m item))).
      eapply sublist_NoDup; [exact Hids|]. apply map_sublist, sublist_filter_list.
    + exact Hrest.
    + intros m Hm. cbn [modules].
      rewrite (filter_values (fun m => negb (same_module m item))).
      apply list_elem_of_In, filter_In. split; [apply list_elem_of_In, Hon; now right|].
      apply negb_true_iff, not_true_iff_false. intros Hsame. apply same_module_eq in Hsame.
      apply Hitem. rewrite <- Hsame. apply list_elem_of_In, in_map. now apply list_elem_of_In.
Qed.

(** X14. Deleting a selection. On a reachable canvas, deleting any selection
    of distinct instances of the canvas raises nothing; what is left is the
    instances that were not selected and the wires neither end of which was
    selected, each list in its former order, whatever the order in which
    the selection lists the instances. *)
Theorem delete_selection_of_instances (self : DesignCanvas) (selected : list ModuleItem) :
  reachable self ->
  NoDup (List.map item_id selected) ->
  (forall m, m ∈ selected -> m ∈ Dict.values (modules self)) ->
  delete_selected_items self (List.map IsModule selected)
  = ({| modules := List.filter (fun kv => negb (existsb (same_module kv.2) selected))
                               (modules self);
        wires := List.filter (fun w => negb (existsb (fun m => touches m w) selected))
                             (wires self);
        next_id := next_id self |}, None)
  /\ forall selected', selected' ≡ₚ selected ->
       delete_selected_items self (List.map IsModule selected')
       = delete_selected_items self (List.map IsModule selected).
Proof.
  intros Hreach Hsel Hon.
  pose proof (reachable_sound self Hreach) as Hsound.
  pose proof (wf_ids _ _ _ (reachable_ok self Hreach)) as Hids.
  split; [now apply delete_modules|].
  intros selected' Hperm. rewrite !delete_modules; auto.
  - f_equal. f_equal.
    + apply filter_ext. intros [k m]. f_equal. simpl.
      apply eq_true_iff_eq. rewrite !existsb_exists.
      split; intros [x [Hx Hsame]]; exists x; split; auto;
        apply list_elem_of_In; apply list_elem_of_In in Hx; now rewrite ?Hperm in *.
    + apply filter_ext. intros w. f_equal.
      apply eq_true_iff_eq. rewrite !existsb_exists.
      split; intros [x [Hx Hsame]]; exists x; split; auto;
        apply list_elem_of_In; apply list_elem_of_In in Hx; now rewrite ?Hperm in *.
  - now rewrite Hperm.
  - intros m Hm. apply Hon. now rewrite <- Hperm.
Qed.

Lemma delete_selection_of_instances_witness :
  delete_selected_items Examples.chained
    [IsModule (Examples.item_named Examples.chained "adder_1");
     IsModule (Examples.item_named Examples.chained "adder")]
  = ({| modules := []; wires := []; next_id := next_id Examples.chained |}, None).
Proof.
  destruct (delete_selection_of_instances Examples.chained
              [Examples.item_named Examples.chained "adder_1";
               Examples.item_named Examples.chained "adder"]) as [Heq _].
  - exact reachable_chained.
  - vm_compute. apply (bool_decide_unpack _). reflexivity.
  - intros m Hm. vm_compute in Hm. vm_compute.
    apply elem_of_cons in Hm as [->|Hm]; [apply list_elem_of_further, list_elem_of_here|].
    apply list_elem_of_singleton in Hm as ->. apply list_elem_of_here.
  - cbn [List.map] in Heq. rewrite Heq. reflexivity.
Defined.

End Selection.

(** ** The module type of an instance *)

Section ModuleTypes.
Import ModuleItemImpl DesignCanvasImpl Designer.

Lemma get_module_type_numbered (module_name : string) (j : nat) :
  get_module_type (numbered module_name (S j)) = module_name.
Proof.
  unfold numbered, get_module_type.
  change ("_" +:+ Py.str_of_nat (S j)) with (String "_" (Py.str_of_nat (S j))).
  pose proof (str_of_nat_isdigit (S j)) as Hdigit.
  assert (Hsplit : Py.split_char "_" (Py.str_of_nat (S j)) = [Py.str_of_nat (S j)]).
  { apply split_char_whole, digits_no_underscore.
    unfold Py.isdigit in Hdigit. now destruct (Py.str_of_nat (S j)). }
  rewrite split_char_app, Hsplit, contains_char_app.
  rewrite List.last_last, List.removelast_last, Hdigit.
  cbn [Py.contains_char]. rewrite Ascii.eqb_refl, orb_true_r. cbn [andb].
  apply (join_split_char "_").
Qed.

(** X16. The type behind an instance name. The name given to a new instance
    of [module_name] leads [get_module_type] back to [module_name] whenever
    a suffix was needed because the plain name was taken, and also for the
    plain name when it does not itself read as a numbered name. *)
Theorem module_type_of_new_instance
    (modules : Dict.t string ModuleItem) (module_name instance_name : string) :
  unique_instance_name modules module_name = Some instance_name ->
  Dict.mem module_name modules = true \/ get_module_type module_name = module_name ->
  get_module_type instance_name = module_name.
Proof.
  intros Hname Hcase.
  destruct (unique_name_loop_first modules module_name (length modules) 0)
    as [k [Hk [Hfree _]]]; [intros j Hj; lia|lia|].
  change (candidate module_name 0) with module_name in Hk.
  unfold unique_instance_name in Hname. rewrite Hk in Hname. injection Hname as <-.
  destruct k as [|j].
  - destruct Hcase as [Htaken|Hplain]; [|exact Hplain].
    simpl in Hfree. congruence.
  - apply get_module_type_numbered.
Qed.

Lemma module_type_of_new_instance_witness :
  unique_instance_name (modules Examples.one_mux) "mux_2" = Some "mux_2_1"
  /\ get_module_type "mux_2_1" = "mux_2".
Proof.
  split; [reflexivity|].
  apply (module_type_of_new_instance (modules Examples.one_mux)); [reflexivity|].
  left. reflexivity.
Defined.

End ModuleTypes.

(** ** The signals of the generated module *)

Section GeneratedSignals.
Import ModuleItemImpl DesignCanvasImpl Designer.

Lemma py_mem_In (x : string) (l : list string) : Py.mem x l = true <-> In x l.
Proof.
  unfold Py.mem. rewrite existsb_exists. split.
  - intros [y [Hy Heq]]. apply String.eqb_eq in Heq. now subst y.
  - intros Hin. exists x. split; [exact Hin|apply String.eqb_refl].
Qed.

Lemma find_none_existsb {A} (f : A -> bool) (l : list A) :
  List.find f l = None -> existsb f l = false.
Proof.
  intros Hnone. apply not_true_iff_false. intros Hex.
  apply existsb_exists in Hex as [x [Hx Hf]].
  pose proof (List.find_none f l Hnone x Hx). congruence.
Qed.

Lemma wire_name_declared (self : DesignCanvas) (wire : WireItem) :
  In wire (wires self) -> named_wire (wires self) wire ∈ declared_signals self.
Proof.
  intros Hin. apply list_elem_of_In in Hin.
  destruct (named_wire_found _ _ Hin) as [w [Hw [_ ->]]].
  unfold declared_signals. rewrite !elem_of_app. right. right.
  apply list_elem_of_In, in_map. now apply list_elem_of_In.
Qed.

(** X17. Every binding names a declared signal. For every port of every
    instance on the canvas, the signal its binding refers to in the
    generated text is declared there: it is the name of one of the wires
    when a wire is connected to the port, and otherwise a port of the top
    module of the port's own direction. The dictionary of wire names has an
    entry for every wire, so no lookup misses. *)
Theorem bindings_name_declared_signals
    (self : DesignCanvas) (module : ModuleItem) (port : string) :
  module ∈ Dict.values (modules self) ->
  port ∈ inputs (ports module) ++ outputs (ports module) ->
  (forall wire, wire ∈ wires self ->
     is_Some (Dict.get (wire_key wire) (wire_names (wires self))))
  /\ signal_of (wires self) module port ∈ declared_signals self
  /\ (Py.mem port (inputs (ports module)) = true ->
      has_incoming (wires self) module port = false ->
      signal_of (wires self) module port = (external_port module port).1
      /\ external_port module port ∈ external_inputs self)
  /\ (Py.mem port (inputs (ports module)) = false ->
      has_outgoing (wires self) module port = false ->
      signal_of (wires self) module port = (external_port module port).1
      /\ external_port module port ∈ external_outputs self).
Proof.
  intros Hmod Hport.
  assert (Hext_in : Py.mem port (inputs (ports module)) = true ->
            has_incoming (wires self) module port = false ->
            external_port module port ∈ external_inputs self).
  { intros Hin Hfree. apply list_elem_of_In, in_flat_map. exists module.
    split; [now apply list_elem_of_In|]. apply in_map, filter_In.
    split; [now apply py_mem_In|now rewrite Hfree]. }
  assert (Hout : Py.mem port (inputs (ports module)) = false ->
            Py.mem port (outputs (ports module)) = true).
  { intros Hin. apply py_mem_In. apply elem_of_app in Hport as [Hp|Hp];
      [|now apply list_elem_of_In].
    apply list_elem_of_In, py_mem_In in Hp. congruence. }
  assert (Hext_out : Py.mem port (inputs (ports module)) = false ->
            has_outgoing (wires self) module port = false ->
            external_port module port ∈ external_outputs self).
  { intros Hin Hfree. apply list_elem_of_In, in_flat_map. exists module.
    split; [now apply list_elem_of_In|]. apply in_map, filter_In.
    split; [apply py_mem_In; auto|now rewrite Hfree]. }
  assert (Hdecl_in : forall e, e ∈ external_inputs self -> e.1 ∈ declared_signals self).
  { intros e He. unfold declared_signals. rewrite !elem_of_app. left.
    apply list_elem_of_In, in_map. now apply list_elem_of_In. }
  assert (Hdecl_out : forall e, e ∈ external_outputs self -> e.1 ∈ declared_signals self).
  { intros e He. unfold declared_signals. rewrite !elem_of_app. right. left.
    apply list_elem_of_In, in_map. now apply list_elem_of_In. }
  split; [|split; [|split]].
  - intros wire Hwire. unfold wire_names.
    destruct (wire_names_get (wires self) [] (wire_key wire))
      as [[w [_ [_ Hget]]]|[Hnone _]]; [rewrite Hget; eauto|].
    exfalso. now apply (Hnone wire Hwire).
  - unfold signal_of. destruct (Py.mem port (inputs (ports module))) eqn:Hin.
    + destruct (List.find _ (wires self)) as [wire|] eqn:Hfind.
      * apply List.find_some in Hfind as [Hw _]. now apply wire_name_declared.
      * apply find_none_existsb in Hfind. apply (Hdecl_in (external_port module port)). auto.
    + rewrite (Hout eq_refl).
      destruct (List.find _ (wires self)) as [wire|] eqn:Hfind.
      * apply List.find_some in Hfind as [Hw _]. now apply wire_name_declared.
      * apply find_none_existsb in Hfind. apply (Hdecl_out (external_port module port)). auto.
  - intros Hin Hfree. split; [|auto]. unfold signal_of. rewrite Hin.
    destruct (List.find _ (wires self)) as [wire|] eqn:Hfind; [|reflexivity].
    apply List.find_some in Hfind as [Hw Hf]. unfold has_incoming in Hfree.
    apply not_true_iff_false in Hfree. exfalso. apply Hfree.
    apply existsb_exists. eauto.
  - intros Hin Hfree. split; [|auto]. unfold signal_of. rewrite Hin, (Hout Hin).
    destruct (List.find _ (wires self)) as [wire|] eqn:Hfind; [|reflexivity].
    apply List.find_some in Hfind as [Hw Hf]. unfold has_outgoing in Hfree.
    apply not_true_iff_false in Hfree. exfalso. apply Hfree.
    apply existsb_exists. eauto.
Qed.

Lemma bindings_name_declared_signals_witness :
  signal_of (wires Examples.chained) (Examples.item_named Examples.chained "adder_1") "a"
    ∈ declared_signals Examples.chained.
Proof.
  destruct (bindings_name_declared_signals Examples.chained
              (Examples.item_named Examples.chained "adder_1") "a") as (_ & Hdeclared & _).
  - vm_compute. apply list_elem_of_further, list_elem_of_here.
  - vm_compute. apply list_elem_of_here.
  - exact Hdeclared.
Defined.

End GeneratedSignals.

(** ** The library entry behind the instances *)

Section LibraryEntry.
Import ModuleItemImpl DesignCanvasImpl Designer.

Lemma init_entries (id : nat) (instance_name : string) (ins outs : list (string * string)) :
  Forall well_formed_entry ins -> Forall well_formed_entry outs ->
  init id instance_name
    {| inputs := List.map entry_text ins; outputs := List.map entry_text outs |}
  = {| item_id := id; name := instance_name;
       ports := {| inputs := List.map fst ins; outputs := List.map fst outs |};
       port_widths := recorded_widths (ins ++ outs) ∅ |}.
Proof.
  intros Hins Houts. unfold init, parse_port_widths. simpl.
  rewrite (parse_entries ins [] ∅ Hins). rewrite (parse_entries outs [] _ Houts).
  unfold recorded_widths. now rewrite fold_left_app.
Qed.

Lemma add_module_to_canvas_some (self : DesignCanvas) (module_name : string)
    (ports0 : PortsDict) :
  exists instance_name,
    add_module_to_canvas self module_name ports0
    = Some ({| modules := modules self
                          ++ [(instance_name, init (next_id self) instance_name ports0)];
               wires := wires self;
               next_id := S (next_id self) |},
            ports (init (next_id self) instance_name ports0)).
Proof.
  destruct (unique_name_loop_first (modules self) module_name (length (modules self)) 0)
    as [k [Hk [Hfree _]]]; [intros j Hj; lia|lia|].
  change (candidate module_name 0) with module_name in Hk.
  exists (candidate module_name k). unfold add_module_to_canvas, unique_instance_name.
  rewrite Hk. now rewrite (set_new_key _ _ _ Hfree).
Qed.

(** The entries [l] without their ranges. *)
Lemma bare_entries (l : list (string * string)) :
  Forall well_formed_entry l ->
  Forall well_formed_entry (List.map (fun e => (e.1, "")) l)
  /\ List.map entry_text (List.map (fun e => (e.1, "")) l) = List.map fst l
  /\ List.map fst (List.map (fun e => (e.1, "")) l) = List.map fst l.
Proof.
  intros Hl. split; [|split].
  - apply Forall_forall. intros e He.
    apply list_elem_of_In, in_map_iff in He as [e' [<- He']].
    rewrite Forall_forall in Hl. apply list_elem_of_In, Hl in He'.
    split; [apply He'|reflexivity].
  - rewrite List.map_map. reflexivity.
  - rewrite List.map_map. reflexivity.
Qed.

Lemma recorded_widths_bare (l : list (string * string)) (port : string) :
  default "" (recorded_widths (List.map (fun e => (e.1, "")) l) ∅ !! port) = "".
Proof.
  destruct (recorded_widths (List.map (fun e => (e.1, "")) l) ∅ !! port) as [width|] eqn:Hlook;
    [|reflexivity].
  simpl. assert (Hcase : port ∈ List.map fst (List.map (fun e => (e.1, "")) l)
                         \/ port ∉ List.map fst (List.map (fun e => (e.1, "")) l)).
  { destruct (decide (port ∈ List.map fst (List.map (fun e : string * string => (e.1, "")) l)));
      auto. }
  destruct Hcase as [Hin|Hnot].
  - destruct (recorded_widths_some _ ∅ port Hin) as [width' [He Hlook']].
    rewrite Hlook in Hlook'. injection Hlook' as ->.
    apply list_elem_of_In, in_map_iff in He as [e [Heq _]]. now injection Heq.
  - rewrite (recorded_widths_other _ ∅ port Hnot) in Hlook. discriminate.
Qed.

(** X18. The library entry loses its ranges. Placing an instance from a
    library entry whose ports carry ranges rewrites that entry: the
    instance is built on the entry's own dictionary, which afterwards holds
    the bare names. The next instance placed from the library has the same
    ports, and no range for any of them. *)
Theorem library_entry_loses_ranges
    (self : SystemVerilogDesigner) (module_name : string) (ins outs : list (string * string)) :
  Forall well_formed_entry ins -> Forall well_formed_entry outs ->
  Dict.get module_name (module_library self)
  = Some {| inputs := List.map entry_text ins; outputs := List.map entry_text outs |} ->
  exists self1 self2 name1 item1 name2 item2,
    add_module_from_library self module_name = Some self1
    /\ modules (canvas self1) = modules (canvas self) ++ [(name1, item1)]
    /\ port_widths item1 = recorded_widths (ins ++ outs) ∅
    /\ Dict.get module_name (module_library self1)
       = Some {| inputs := List.map fst ins; outputs := List.map fst outs |}
    /\ add_module_from_library self1 module_name = Some self2
    /\ modules (canvas self2) = modules (canvas self1) ++ [(name2, item2)]
    /\ ports item2 = ports item1
    /\ forall port, width_of item2 port = "".
Proof.
  intros Hins Houts Hget.
  destruct (add_module_to_canvas_some (canvas self) module_name
              {| inputs := List.map entry_text ins; outputs := List.map entry_text outs |})
    as [name1 Hadd1].
  rewrite (init_entries _ _ _ _ Hins Houts) in Hadd1. cbn [ports] in Hadd1.
  set (canvas1 := {| modules := modules (canvas self) ++ [(name1, _)];
                     wires := wires (canvas self);
                     next_id := S (next_id (canvas self)) |}) in Hadd1.
  set (self1 := {| module_library :=
                     Dict.set module_name
                       {| inputs := List.map fst ins; outputs := List.map fst outs |}
                       (module_library self);
                   canvas := canvas1 |}).
  destruct (bare_entries ins Hins) as [Hins' [Hin_text Hin_fst]].
  destruct (bare_entries outs Houts) as [Houts' [Hout_text Hout_fst]].
  destruct (add_module_to_canvas_some canvas1 module_name
              {| inputs := List.map entry_text (List.map (fun e => (e.1, "")) ins);
                 outputs := List.map entry_text (List.map (fun e => (e.1, "")) outs) |})
    as [name2 Hadd2].
  rewrite (init_entries _ _ _ _ Hins' Houts') in Hadd2. cbn [ports] in Hadd2.
  rewrite Hin_text, Hout_text, Hin_fst, Hout_fst in Hadd2.
  eexists self1, _, name1, _, name2, _.
  split; [|split; [|split; [|split; [|split; [|split; [|split]]]]]].
  - unfold add_module_from_library. rewrite Hget, Hadd1. reflexivity.
  - reflexivity.
  - reflexivity.
  - apply get_set_same.
  - unfold add_module_from_library. cbn [module_library canvas self1].
    rewrite get_set_same, Hadd2. reflexivity.
  - reflexivity.
  - reflexivity.
  - intros port. unfold width_of. cbn [port_widths].
    rewrite <- List.map_app. apply recorded_widths_bare.
Qed.

Lemma library_entry_loses_ranges_witness :
  exists self1 self2 name1 item1 name2 item2,
    add_module_from_library Examples.adder_loaded "adder" = Some self1
    /\ modules (canvas self1) = modules (canvas Examples.adder_loaded) ++ [(name1, item1)]
    /\ port_widths item1
       = recorded_widths ([("a", "3:0"); ("b", "3:0")] ++ [("sum", "4:0")]) ∅
    /\ Dict.get "adder" (module_library self1)
       = Some {| inputs := ["a"; "b"]; outputs := ["sum"] |}
    /\ add_module_from_library self1 "adder" = Some self2
    /\ modules (canvas self2) = modules (canvas self1) ++ [(name2, item2)]
    /\ ports item2 = ports item1
    /\ forall port, width_of item2 port = "".
Proof.
  apply (library_entry_loses_ranges Examples.adder_loaded "adder"
           [("a", "3:0"); ("b", "3:0")] [("sum", "4:0")]).
  - repeat constructor; discriminate.
  - repeat constructor; discriminate.
  - reflexivity.
Defined.

End LibraryEntry.

(** ** The library panel *)

Section LibraryPanel.
Import Widgets.

Lemma mem_set {V} (k k0 : string) (v : V) (d : Dict.t string V) :
  Dict.mem k (Dict.set k0 v d) = String.eqb k0 k || Dict.mem k d.
Proof.
  induction d as [|[k' v'] d IH]; simpl.
  - rewrite orb_false_r. destruct (String.eqb_spec k0 k) as [->|Hne].
    + now apply bool_decide_eq_true.
    + now apply bool_decide_eq_false.
  - destruct (decide (k' = k0)) as [->|Hne]; simpl.
    + destruct (String.eqb_spec k0 k) as [->|Hne]; simpl.
      * now rewrite bool_decide_eq_true_2.
      * reflexivity.
    + rewrite IH. destruct (bool_decide (k' = k)); simpl; [now rewrite orb_true_r|reflexivity].
Qed.

Lemma mem_del {V} (k k0 : string) (d : Dict.t string V) :
  Dict.mem k (Dict.del k0 d) = negb (String.eqb k0 k) && Dict.mem k d.
Proof.
  unfold Dict.del, Dict.t. induction d as [|[k' v'] d IH]; simpl.
  - now rewrite andb_false_r.
  - rewrite filter_cons. simpl. destruct (decide (k' <> k0)) as [Hne|Heq]; simpl.
    + rewrite IH. destruct (bool_decide_reflect (k' = k)) as [->|Hne']; simpl.
      * destruct (String.eqb_spec k0 k) as [->|_]; [contradiction|reflexivity].
      * reflexivity.
    + assert (k' = k0) as -> by (destruct (decide (k' = k0)); [auto|contradiction]).
      rewrite IH. destruct (bool_decide_reflect (k0 = k)) as [->|Hne']; simpl.
      * now rewrite String.eqb_refl.
      * reflexivity.
Qed.

Lemma py_mem_snoc (x y : string) (l : list string) :
  Py.mem x (l ++ [y]) = String.eqb y x || Py.mem x l.
Proof.
  rewrite mem_app. unfold Py.mem at 2. simpl.
  rewrite orb_false_r, orb_comm. now rewrite (String.eqb_sym x y).
Qed.

Lemma py_mem_filter (x y : string) (l : list string) :
  Py.mem x (List.filter (fun row => negb (String.eqb row y)) l)
  = negb (String.eqb y x) && Py.mem x l.
Proof.
  unfold Py.mem. induction l as [|a l IH]; simpl; [now rewrite andb_false_r|].
  destruct (String.eqb_spec a y) as [->|Hne]; simpl.
  - rewrite IH. destruct (String.eqb_spec x y) as [->|Hne]; simpl.
    + now rewrite String.eqb_refl.
    + reflexivity.
  - rewrite IH. destruct (String.eqb_spec x a) as [->|Hne']; simpl.
    + destruct (String.eqb_spec y a) as [->|_]; [contradiction|reflexivity].
    + reflexivity.
Qed.

Lemma add_module_definition_rows self name0 inputs0 outputs0 :
  (forall x, Dict.mem x (definitions self) = Py.mem x (rows self)) ->
  forall x, Dict.mem x (definitions (add_module_definition self name0 inputs0 outputs0))
            = Py.mem x (rows (add_module_definition self name0 inputs0 outputs0)).
Proof. intros H x. simpl. now rewrite mem_set, py_mem_snoc, H. Qed.

Lemma library_step_rows self self' :
  library_step self self' ->
  (forall x, Dict.mem x (definitions self) = Py.mem x (rows self)) ->
  forall x, Dict.mem x (definitions self') = Py.mem x (rows self').
Proof.
  intros [self0 name0 inputs0 outputs0|self0 read_file filename self1 found_some Hload
         |self0 module_name confirmed|self0 module_name ports0 Hmem] H.
  - now apply add_module_definition_rows.
  - unfold load_module_file in Hload.
    destruct (ParseFile.parse_file read_file filename) as [e|parsed]; [discriminate|].
    injection Hload as <- _. clear read_file filename.
    revert self0 H. induction parsed as [|[name0 ports0] parsed IH]; intros self0 H; [exact H|].
    simpl. apply IH. now apply add_module_definition_rows.
  - intros x. unfold delete_module.
    destruct (Dict.mem module_name (definitions self0) && confirmed); [|apply H].
    simpl. now rewrite mem_del, py_mem_filter, H.
  - intros x. simpl. rewrite mem_set.
    destruct (String.eqb_spec module_name x) as [<-|Hne]; [|apply H].
    simpl. now rewrite <- H.
Qed.

(** X19. Rows and definitions. Whatever was added to the library panel,
    loaded into it, removed from it or rewritten by an instance, the names
    shown in the list are the names that have a definition: a name is a row
    of the list exactly when it is a key of the dictionary. *)
Theorem library_rows_are_definitions (self : ModuleLibraryWidget) :
  library_reachable self ->
  forall module_name, Dict.mem module_name (definitions self) = Py.mem module_name (rows self).
Proof.
  induction 1 as [|self self' _ IH Hstep]; [reflexivity|].
  now apply (library_step_rows self).
Qed.

Lemma library_rows_are_definitions_witness :
  Dict.mem "adder"
    (definitions (delete_module
                    (add_module_definition
                       (add_module_definition {| definitions := []; rows := [] |}
                          "adder" ["a"; "b"] ["sum"])
                       "mux" ["a"; "b"; "sel"] ["y"])
                    "adder" true))
  = Py.mem "adder" ["mux"].
Proof.
  apply (library_rows_are_definitions
           (delete_module
              (add_module_definition
                 (add_module_definition {| definitions := []; rows := [] |}
                    "adder" ["a"; "b"] ["sum"])
                 "mux" ["a"; "b"; "sel"] ["y"])
              "adder" true)).
  eapply library_reachable_step; [|apply library_delete].
  eapply library_reachable_step; [|apply library_add].
  eapply library_reachable_step; [|apply library_add].
  apply library_reachable_empty.
Defined.

End LibraryPanel.

(** ** Port names on the canvas *)

Section TruncateText.
Import Widgets.

Lemma take_length (n : nat) (s : string) :
  String.length (Py.take n s) = Nat.min n (String.length s).
Proof.
  revert s. induction n as [|n IH]; intros [|c s]; simpl; auto.
Qed.

(** X9. Port names fit. With a maximal length of three or more, the text
    shown for a port name is never longer than that length: a name that fits
    is shown as it is, a longer one is cut so that it fills the length
    exactly, its last three characters being dots. *)
Theorem truncate_text_fits (max_text_length : Z) (text : string) :
  (3 <= max_text_length)%Z ->
  (Z.of_nat (String.length (truncate_text max_text_length text)) <= max_text_length)%Z
  /\ ((Z.of_nat (String.length text) <= max_text_length)%Z ->
      truncate_text max_text_length text = text)
  /\ ((max_text_length < Z.of_nat (String.length text))%Z ->
      truncate_text max_text_length text
      = Py.take (Z.to_nat (max_text_length - 3)) text +:+ "..."
      /\ Z.of_nat (String.length (truncate_text max_text_length text)) = max_text_length).
Proof.
  intros Hmax. unfold truncate_text, slice_to.
  destruct (Z.ltb_spec max_text_length (Z.of_nat (String.length text))) as [Hlong|Hfits].
  - destruct (Z.leb_spec 0 (max_text_length - 3)) as [_|Hneg]; [|lia].
    assert (Hlen : Z.of_nat (String.length
                     (Py.take (Z.to_nat (max_text_length - 3)) text +:+ "..."))
                   = max_text_length).
    { rewrite append_length, take_length. simpl. lia. }
    split; [lia|]. split; [lia|]. auto.
  - split; [lia|]. split; [reflexivity|lia].
Qed.

Lemma truncate_text_fits_witness :
  truncate_text 15 "write_enable_registered" = "write_enable..."
  /\ truncate_text 15 "clk" = "clk".
Proof.
  destruct (truncate_text_fits 15 "write_enable_registered") as [_ [_ Hlong]]; [lia|].
  destruct (truncate_text_fits 15 "clk") as [_ [Hfits _]]; [lia|].
  split; [|apply Hfits; simpl; lia].
  destruct Hlong as [Heq _]; [simpl; lia|]. rewrite Heq. reflexivity.
Defined.

End TruncateText.

(** ** The interface stored for a module *)

Section ModuleEntry.
Import Re SystemVerilogParser ParseFile.

(** The loop over [all_port_names] appends the names found in none of the
    three lists, each once. *)
Lemma add_implicit_fold (outs inouts : list string) (l : list string) : forall acc,
  fold_left (add_implicit outs inouts) l acc
  = acc ++ List.filter (fun x => negb (Py.mem x acc))
             (first_declarations
                (List.filter (fun x => negb (Py.mem x outs) && negb (Py.mem x inouts)) l)).
Proof.
  induction l as [|x l IH]; intros acc; simpl; [now rewrite app_nil_r|].
  rewrite IH. unfold add_implicit.
  destruct (Py.mem x outs) eqn:Houts; simpl; [now rewrite andb_false_r|].
  destruct (Py.mem x inouts) eqn:Hinouts; simpl; [now rewrite andb_false_r|].
  rewrite !andb_true_r.
  destruct (Py.mem x acc) eqn:Hacc; simpl.
  - f_equal. rewrite filter_filter. apply List.filter_ext_in. intros y _.
    destruct (String.eqb_spec y x) as [->|Hne]; simpl; [now rewrite Hacc|reflexivity].
  - rewrite <- app_assoc. simpl. do 2 f_equal.
    rewrite filter_filter. apply List.filter_ext. intros y.
    rewrite mem_app. simpl. rewrite orb_false_r, negb_orb. apply andb_comm.
Qed.

Lemma filter_first_declarations (f : string -> bool) (l : list string) :
  List.filter f (first_declarations l) = first_declarations (List.filter f l).
Proof.
  induction l as [|x l IH]; [reflexivity|]. simpl.
  destruct (f x) eqn:Hx; simpl.
  - f_equal. rewrite <- IH, !filter_filter. apply List.filter_ext. intros y. apply andb_comm.
  - rewrite <- IH, filter_filter. apply List.filter_ext_in. intros y Hy.
    destruct (String.eqb_spec y x) as [->|Hne]; simpl; [now rewrite Hx|reflexivity].
Qed.

Lemma add_implicit_none (outs inouts : list string) (l : list string) (acc : list string) :
  (forall x, In x l -> Py.mem x acc || Py.mem x outs || Py.mem x inouts = true) ->
  fold_left (add_implicit outs inouts) l acc = acc.
Proof.
  induction l as [|x l IH]; intros Hall; [reflexivity|]. simpl.
  assert (Hx : add_implicit outs inouts acc x = acc).
  { unfold add_implicit. rewrite <- !negb_orb, (Hall x (or_introl eq_refl)). reflexivity. }
  rewrite Hx. apply IH. intros y Hy. apply Hall. now right.
Qed.

Lemma module_entry_separate (module_match : found)
    (body_inputs body_outputs body_inouts : list string) :
  parse_ansi_port_list (group 2 (groups module_match)) = ([], [], []) ->
  parse_module_body (group 3 (groups module_match))
                    (parse_port_list (group 2 (groups module_match)))
  = (body_inputs, body_outputs, body_inouts) ->
  module_entry module_match
  = (group 1 (groups module_match),
     {| inputs :=
          body_inputs
          ++ first_declarations
               (List.filter (fun x => negb (Py.mem x body_inputs)
                                      && negb (Py.mem x body_outputs)
                                      && negb (Py.mem x body_inouts))
                            (parse_port_list (group 2 (groups module_match))));
        outputs := body_outputs ++ body_inouts |}).
Proof.
  intros Hansi Hbody. unfold module_entry.
  rewrite Hansi. cbn [app]. rewrite Hbody, add_implicit_fold.
  do 3 f_equal.
  rewrite filter_first_declarations, filter_filter. f_equal.
  apply List.filter_ext. intros x.
  now rewrite andb_comm, andb_assoc.
Qed.

Lemma listed_port_stored (port : string) (l body_inputs body_outputs body_inouts : list string) :
  port ∈ l ->
  port ∈ body_inputs
         ++ first_declarations
              (List.filter (fun x => negb (Py.mem x body_inputs)
                                     && negb (Py.mem x body_outputs)
                                     && negb (Py.mem x body_inouts)) l)
  \/ port ∈ body_outputs ++ body_inouts.
Proof.
  intros Hport.
  destruct (Py.mem port body_outputs) eqn:Hout.
  { right. apply elem_of_app. left. now apply list_elem_of_In, py_mem_In. }
  destruct (Py.mem port body_inouts) eqn:Hinout.
  { right. apply elem_of_app. right. now apply list_elem_of_In, py_mem_In. }
  left. apply elem_of_app.
  destruct (Py.mem port body_inputs) eqn:Hin.
  { left. now apply list_elem_of_In, py_mem_In. }
  right. apply first_declarations_subset. apply list_elem_of_In, filter_In.
  split; [now apply list_elem_of_In|]. now rewrite Hin, Hout, Hinout.
Qed.

(** X7. The interface stored for a module. When the port list carries
    directions, the entry is what [parse_ansi_port_list] found, with the
    inouts after the outputs, and the loop for implicit inputs adds nothing.
    Otherwise the outputs are those declared in the body, followed by the
    inouts, and the inputs are those declared in the body followed by the
    names of the port list that are in none of the three lists, each once,
    in the order of the port list: every name of the port list is in the
    entry. *)
Theorem stored_interface (module_match : found) (ins outs inouts : list string) :
  parse_ansi_port_list (group 2 (groups module_match)) = (ins, outs, inouts) ->
  (ins ++ outs ++ inouts <> [] ->
   module_entry module_match
   = (group 1 (groups module_match), {| inputs := ins; outputs := outs ++ inouts |}))
  /\ (ins ++ outs ++ inouts = [] ->
      forall body_inputs body_outputs body_inouts,
        parse_module_body (group 3 (groups module_match))
                          (parse_port_list (group 2 (groups module_match)))
        = (body_inputs, body_outputs, body_inouts) ->
        module_entry module_match
        = (group 1 (groups module_match),
           {| inputs :=
                body_inputs
                ++ first_declarations
                     (List.filter (fun x => negb (Py.mem x body_inputs)
                                            && negb (Py.mem x body_outputs)
                                            && negb (Py.mem x body_inouts))
                                  (parse_port_list (group 2 (groups module_match))));
              outputs := body_outputs ++ body_inouts |})
        /\ forall port, port ∈ parse_port_list (group 2 (groups module_match)) ->
                        port ∈ inputs (module_entry module_match).2
                        \/ port ∈ outputs (module_entry module_match).2).
Proof.
  intros Hansi. split.
  - intros Hsome. unfold module_entry. rewrite Hansi.
    destruct (ins ++ outs ++ inouts) as [|p all_port_names] eqn:Hall; [contradiction|].
    rewrite add_implicit_none; [reflexivity|].
    intros x Hx. rewrite <- Hall in Hx.
    rewrite orb_true_iff, orb_true_iff, !py_mem_In.
    apply in_app_or in Hx as [Hx|Hx]; [auto|].
    apply in_app_or in Hx as [Hx|Hx]; auto.
  - intros Hnone body_inputs body_outputs body_inouts Hbody.
    assert (Hempty : (ins, outs, inouts) = ([], [], [])).
    { destruct ins; [|discriminate]. destruct outs; [|discriminate].
      destruct inouts; [reflexivity|discriminate]. }
    rewrite Hempty in Hansi.
    rewrite (module_entry_separate _ _ _ _ Hansi Hbody).
    split; [reflexivity|].
    intros port Hport. cbn [snd inputs outputs]. now apply listed_port_stored.
Qed.

Lemma separate_declarations_found :
  re_finditer module_pattern "module m(a, b, y); input a; output y; endmodule"
  = [Examples.separate_declarations].
Proof. vm_compute. reflexivity. Qed.

Lemma stored_interface_witness :
  module_entry Examples.separate_declarations
  = ("m", {| inputs := ["a"; "b"]; outputs := ["y"] |}).
Proof.
  destruct (stored_interface Examples.separate_declarations [] [] []) as [_ Hseparate];
    [vm_compute; reflexivity|].
  destruct (Hseparate eq_refl ["a"] ["y"] []) as [Hentry _]; [vm_compute; reflexivity|].
  rewrite Hentry. vm_compute. reflexivity.
Defined.

End ModuleEntry.

(** ** Lists of names separated by commas *)

Section CommaLists.
Import Re SystemVerilogParser.
Local Arguments Ascii.eqb : simpl never.

Lemma word_char (c : ascii) :
  Py.is_word c = true ->
  Py.is_space c = false /\ Ascii.eqb c "[" = false /\ Ascii.eqb c "]" = false
  /\ Ascii.eqb c "," = false.
Proof.
  destruct c as [[] [] [] [] [] [] [] []]; vm_compute; intros H;
    try discriminate H; auto.
Qed.

Lemma split_loop_plain (c : ascii) (chars : string) (ports : list string)
    (current : string) (bracket_depth : Z) :
  Ascii.eqb c "[" = false -> Ascii.eqb c "]" = false ->
  Ascii.eqb c "," && (bracket_depth =? 0)%Z = false ->
  split_loop (String c chars) ports current bracket_depth
  = split_loop chars ports (snoc current c) bracket_depth.
Proof. intros H1 H2 H3. cbn [split_loop]. now rewrite H1, H2, H3. Qed.

(** Characters that are neither brackets nor a comma at depth zero are
    collected in [current]. *)
Lemma split_loop_run (x : string) : forall rest ports current bracket_depth,
  Py.all_chars (fun c => negb (Ascii.eqb c "[") && negb (Ascii.eqb c "]")
                         && negb (Ascii.eqb c "," && (bracket_depth =? 0)%Z)) x = true ->
  split_loop (x +:+ rest) ports current bracket_depth
  = split_loop rest ports (current +:+ x) bracket_depth.
Proof.
  induction x as [|c x IH]; intros rest ports current bracket_depth Hx.
  - now rewrite append_nil_r.
  - simpl in Hx. apply andb_true_iff in Hx as [Hc Hx].
    apply andb_true_iff in Hc as [Hc H3]. apply andb_true_iff in Hc as [H1 H2].
    apply negb_true_iff in H1, H2, H3.
    rewrite append_cons, split_loop_plain, IH by assumption.
    unfold snoc. now rewrite append_assoc.
Qed.

Lemma all_chars_impl (p q : ascii -> bool) (s : string) :
  (forall c, p c = true -> q c = true) ->
  Py.all_chars p s = true -> Py.all_chars q s = true.
Proof.
  intros Hpq. induction s as [|c s IH]; [reflexivity|]. simpl. intros H.
  apply andb_true_iff in H as [Hc Hs]. now rewrite (Hpq c Hc), IH.
Qed.

Lemma lstrip_word (s : string) : Py.all_chars Py.is_word s = true -> Py.lstrip s = s.
Proof.
  destruct s as [|c s]; [reflexivity|]. simpl. intros H.
  apply andb_true_iff in H as [Hc _]. apply word_char in Hc as [Hc _]. now rewrite Hc.
Qed.

Lemma rstrip_word (s : string) : Py.all_chars Py.is_word s = true -> Py.rstrip s = s.
Proof.
  induction s as [|c s IH]; [reflexivity|]. simpl. intros H.
  apply andb_true_iff in H as [Hc Hs]. rewrite (IH Hs).
  apply word_char in Hc as [Hc _]. rewrite Hc. now destruct s.
Qed.

Lemma rstrip_closed (x : string) : Py.rstrip (x +:+ "]") = x +:+ "]".
Proof.
  induction x as [|c x IH]; [reflexivity|].
  rewrite append_cons. simpl. rewrite IH. now destruct (x +:+ "]") eqn:Hx; [destruct x|].
Qed.

Lemma sub_dimension_plain (x y : string) :
  Py.all_chars (fun c => negb (Ascii.eqb c "[")) x = true ->
  re_sub dimension_re "" (x +:+ y) = x +:+ re_sub dimension_re "" y.
Proof.
  induction x as [|c x IH]; [reflexivity|]. simpl. intros H.
  apply andb_true_iff in H as [Hc Hx]. apply negb_true_iff in Hc.
  rewrite append_cons, sub_dimension_cons, Ascii.eqb_sym, Hc, (IH Hx). reflexivity.
Qed.

Lemma closing_plain (width rest : string) :
  plain_range width -> closing (width +:+ String "]" rest) = Some rest.
Proof.
  unfold plain_range. induction width as [|c width IH]; [reflexivity|]. simpl. intros H.
  apply andb_true_iff in H as [Hc Hw]. apply andb_true_iff in Hc as [Hc Hnl].
  apply andb_true_iff in Hc as [_ Hc]. unfold Py.not_char in Hc. apply negb_true_iff in Hc.
  rewrite ?append_cons. cbn [closing]. now rewrite Hc, Hnl, (IH Hw).
Qed.

Lemma word_no_bracket (s : string) :
  Py.all_chars Py.is_word s = true ->
  Py.all_chars (fun c => negb (Ascii.eqb c "[")) s = true.
Proof.
  apply all_chars_impl. intros c Hc. apply word_char in Hc as (_ & Hc & _). now rewrite Hc.
Qed.

(** The name of an entry is what [extract_port_name] makes of its text. *)
Lemma extract_port_name_entry (e : string * string) :
  listed_entry e -> extract_port_name (entry_text e) = e.1.
Proof.
  destruct e as [port_name width]. intros [[Hne Hword] Hrange]. simpl in *.
  unfold extract_port_name, entry_text, with_width. simpl.
  assert (Hstrip : Py.strip port_name = port_name).
  { unfold Py.strip. now rewrite lstrip_word, rstrip_word. }
  destruct width as [|b width']; simpl.
  - rewrite <- (append_nil_r port_name) at 1.
    rewrite sub_dimension_plain by now apply word_no_bracket.
    change (re_sub dimension_re "" "") with "". now rewrite append_nil_r.
  - change ("[" +:+ String b width' +:+ "]") with (String "[" (String b width' +:+ "]")).
    rewrite sub_dimension_plain by now apply word_no_bracket.
    rewrite sub_dimension_cons. rewrite Ascii.eqb_refl.
    change (String b width' +:+ "]") with (String b width' +:+ String "]" "").
    rewrite (closing_plain _ _ Hrange).
    change (re_sub dimension_re "" "") with "". now rewrite append_nil_r.
Qed.

(** The text of an entry, with or without a blank before it, is what
    [strip] leaves. *)
Lemma strip_entry (current : string) (e : string * string) :
  listed_entry e -> current = "" \/ current = " " ->
  Py.strip (current +:+ entry_text e) = entry_text e /\ entry_text e <> "".
Proof.
  destruct e as [port_name width]. intros [[Hne Hword] Hrange] Hcurrent. simpl in *.
  destruct port_name as [|a port_name]; [contradiction|].
  assert (Hspace : Py.is_space a = false).
  { simpl in Hword. apply andb_true_iff in Hword as [Ha _]. now apply word_char in Ha. }
  assert (Hl : Py.lstrip (current +:+ entry_text (String a port_name, width))
               = entry_text (String a port_name, width)).
  { unfold entry_text. simpl.
    destruct Hcurrent as [->| ->]; destruct width; simpl; now rewrite Hspace. }
  unfold Py.strip. rewrite Hl. split.
  - unfold entry_text, with_width. simpl. destruct width as [|b width']; simpl fst; simpl snd.
    + cbn [is_empty]. now apply rstrip_word.
    + cbn [is_empty]. rewrite <- !append_assoc. apply rstrip_closed.
  - unfold entry_text, with_width. simpl. destruct (is_empty width); discriminate.
Qed.

Lemma split_loop_comma (rest : string) (ports : list string) (current port_name : string) :
  Py.strip current <> "" -> extract_port_name (Py.strip current) = port_name ->
  port_name <> "" ->
  split_loop (String "," rest) ports current 0 = split_loop rest (ports ++ [port_name]) "" 0.
Proof.
  intros Hcurrent Hname Hne. cbn [split_loop].
  change (Ascii.eqb "," "[") with false. change (Ascii.eqb "," "]") with false.
  change (Ascii.eqb "," "," && (0 =? 0)%Z) with true. cbv iota.
  rewrite Hname. destruct (Py.strip current); [contradiction|].
  destruct port_name; [contradiction|]. reflexivity.
Qed.

(** One entry and the comma after it. *)
Lemma split_loop_entry (e : string * string) (rest : string) (ports : list string)
    (current : string) :
  listed_entry e -> current = "" \/ current = " " ->
  split_loop (entry_text e +:+ String "," rest) ports current 0
  = split_loop rest (ports ++ [e.1]) "" 0.
Proof.
  intros He Hcurrent.
  destruct (strip_entry current e He Hcurrent) as [Hstrip Hne].
  pose proof (extract_port_name_entry e He) as Hname.
  assert (Hflush : forall current', current' = current +:+ entry_text e ->
            split_loop (String "," rest) ports current' 0
            = split_loop rest (ports ++ [e.1]) "" 0).
  { intros current' ->. apply split_loop_comma; rewrite ?Hstrip; auto. apply He. }
  destruct e as [port_name width]. destruct He as [[Hne' Hword] Hrange]. simpl in *.
  assert (Hrun : forall d, Py.all_chars
            (fun c => negb (Ascii.eqb c "[") && negb (Ascii.eqb c "]")
                      && negb (Ascii.eqb c "," && (d =? 0)%Z)) port_name = true).
  { intros d. revert Hword. apply all_chars_impl. intros c Hc.
    apply word_char in Hc as (_ & H1 & H2 & H3). now rewrite H1, H2, H3. }
  unfold entry_text, with_width in *. simpl in *.
  destruct width as [|b width']; cbn [is_empty] in *.
  - rewrite split_loop_run by apply Hrun. now apply Hflush.
  - rewrite !append_assoc. rewrite split_loop_run by apply Hrun.
    change ("[" +:+ String b width' +:+ "]" +:+ String "," rest)
      with (String "[" (String b width' +:+ String "]" (String "," rest))).
    cbn [split_loop]. change (Ascii.eqb "[" "[") with true. cbv iota.
    rewrite split_loop_run.
    + cbn [split_loop]. change (Ascii.eqb "]" "[") with false.
      change (Ascii.eqb "]" "]") with true. cbv iota.
      change (0 + 1 - 1)%Z with 0%Z. apply Hflush.
      unfold snoc. now rewrite !append_assoc.
    + revert Hrange. unfold plain_range. apply all_chars_impl. intros c Hc.
      apply andb_true_iff in Hc as [Hc _]. apply andb_true_iff in Hc as [H1 H2].
      unfold Py.not_char in H1, H2. rewrite (Ascii.eqb_sym c "["), (Ascii.eqb_sym c "]").
      rewrite H1, H2. change (0 + 1 =? 0)%Z with false. now rewrite andb_false_r.
Qed.

Lemma join_cons (sep x y : string) (l : list string) :
  Py.join sep (x :: y :: l) = x +:+ sep +:+ Py.join sep (y :: l).
Proof. reflexivity. Qed.

Lemma split_loop_entries (es : list (string * string)) : forall ports current,
  Forall listed_entry es -> es <> [] -> current = "" \/ current = " " ->
  split_loop (Py.join ", " (List.map entry_text es) +:+ ",") ports current 0
  = ports ++ List.map fst es.
Proof.
  induction es as [|e es IH]; intros ports current Hes Hne Hcurrent; [contradiction|].
  apply Forall_cons in Hes as [He Hes].
  destruct es as [|e2 es].
  - change (Py.join ", " (List.map entry_text [e])) with (entry_text e).
    now rewrite split_loop_entry.
  - cbn [List.map]. rewrite join_cons, !append_assoc.
    change (", " +:+ Py.join ", " (entry_text e2 :: List.map entry_text es) +:+ ",")
      with (String "," (String " " (Py.join ", " (List.map entry_text (e2 :: es)) +:+ ","))).
    rewrite split_loop_entry by assumption.
    rewrite split_loop_plain by reflexivity.
    rewrite IH; [|exact Hes|discriminate|now right].
    now rewrite <- app_assoc.
Qed.

Lemma split_comma_list_bare_entries (es : list (string * string)) :
  Forall listed_entry es ->
  split_comma_list (Py.join ", " (List.map entry_text es)) = List.map fst es.
Proof.
  intros Hes. unfold split_comma_list. destruct es as [|e es]; [reflexivity|].
  rewrite split_loop_entries; [reflexivity|exact Hes|discriminate|now left].
Qed.

(** X4. Names come back from a list. For identifiers, each with or without
    a range in brackets, written one after the other with a comma and a
    blank between them, [split_comma_list] returns the identifiers, in
    order and without the ranges; a comma inside a range does not split. *)
Theorem split_comma_list_of_entries (es : list (string * string)) :
  Forall listed_entry es ->
  split_comma_list (Py.join ", " (List.map entry_text es)) = List.map fst es.
Proof.
  intros Hes. now apply split_comma_list_bare_entries.
Qed.

Lemma split_comma_list_of_entries_witness :
  split_comma_list "mem[0:3,0:7], clk, data[7:0]" = ["mem"; "clk"; "data"].
Proof.
  apply (split_comma_list_of_entries [("mem", "0:3,0:7"); ("clk", ""); ("data", "7:0")]).
  repeat constructor; discriminate.
Defined.

End CommaLists.

(** ** Comments *)

Section Comments.
Import Re SystemVerilogParser ParseFile.
Local Arguments Ascii.eqb : simpl never.

Lemma rep_lazy_none {A} (p : ascii -> bool) (k : string -> option A) (s : string) :
  (forall t, Py.contains_char Py.newline t = false -> k t = None) ->
  Py.contains_char Py.newline s = false -> rep_lazy p s k = None.
Proof.
  intros Hk. induction s as [|c s IH]; intros Hs.
  - simpl. now rewrite (Hk "" Hs).
  - cbn [rep_lazy]. rewrite (Hk _ Hs). simpl in Hs. apply orb_false_elim in Hs as [_ Hs].
    destruct (p c); [now apply IH|reflexivity].
Qed.

Lemma line_comment_needs_newline (s : string) :
  Py.contains_char Py.newline s = false -> re_match line_comment_re s = None.
Proof.
  intros Hs. unfold re_match, line_comment_re, cat. cbn [fold_right rmatch].
  destruct (strip_prefix "//" s) as [s1|] eqn:Hprefix; [|reflexivity].
  apply strip_prefix_inv in Hprefix. subst s.
  rewrite contains_char_app in Hs. apply orb_false_elim in Hs as [_ Hs].
  unfold rep. apply rep_lazy_none; [|exact Hs].
  intros t Ht. destruct t as [|c t]; [reflexivity|].
  simpl in Ht. apply orb_false_elim in Ht as [Hc _].
  unfold Py.nl. cbn [strip_prefix]. now rewrite Hc.
Qed.

(** X6. A line comment needs its line break. [//] and what follows it on the
    line are removed together with the line break that ends the line; in a
    text without a line break, and so on a last line that is not ended by
    one, the comment stays, and what it holds is parsed as source text. *)
Theorem unterminated_line_comment_kept (content : string) :
  Py.contains_char Py.newline content = false ->
  re_sub line_comment_re Py.nl content = content
  /\ remove_comments content = re_sub block_comment_re "" content.
Proof.
  intros Hs.
  assert (Hsub : re_sub line_comment_re Py.nl content = content).
  { induction content as [|c s IH]; [reflexivity|].
    rewrite re_sub_step by apply patterns_take_a_character.
    rewrite line_comment_needs_newline by exact Hs.
    simpl in Hs. apply orb_false_elim in Hs as [_ Hs]. now rewrite IH. }
  split; [exact Hsub|]. unfold remove_comments. now rewrite Hsub.
Qed.

Lemma unterminated_line_comment_kept_witness :
  remove_comments "// module hidden(input a); endmodule"
  = "// module hidden(input a); endmodule"
  /\ interfaces_of "// module hidden(input a); endmodule"
     = [("hidden", {| inputs := ["a"]; outputs := [] |})].
Proof.
  destruct (unterminated_line_comment_kept "// module hidden(input a); endmodule")
    as [_ Hkept]; [reflexivity|].
  split; [rewrite Hkept|]; vm_compute; reflexivity.
Defined.

End Comments.

(** ** The cursor of parse_ansi_port_list *)

Section Cursor.
Import Re SystemVerilogParser.

(** X2. The cursor moves right. A turn of the loop of
    [parse_ansi_port_list] that finds a direction keyword leaves the cursor
    at least one character further right, and the loop goes on from there:
    the loop ends after at most as many turns as the text has characters. *)
Theorem ansi_cursor_moves_right (s : string) (acc acc' : port_lists) (s' : string) :
  ansi_step s acc = Some (acc', s') ->
  moved_right s s'
  /\ String.length s' < String.length s
  /\ ansi_loop 0 s acc = ansi_loop 0 s' acc'.
Proof.
  intros Hstep. pose proof (ansi_step_moves _ _ _ _ Hstep) as Hmoved.
  split; [exact Hmoved|]. destruct Hmoved as [pre [Hs Hpre]]. split.
  - rewrite Hs, append_length. lia.
  - rewrite ansi_loop_while. destruct s as [|c s0].
    + destruct pre; [simpl in Hpre; lia|discriminate].
    + now rewrite Hstep.
Qed.

Lemma ansi_cursor_moves_right_witness :
  moved_right " input a, output b " " output b "
  /\ String.length " output b " < String.length " input a, output b "
  /\ ansi_loop 0 " input a, output b " ([], [], [])
     = ansi_loop 0 " output b " (["a"], [], []).
Proof.
  apply (ansi_cursor_moves_right " input a, output b " ([], [], [])).
  vm_compute. reflexivity.
Defined.

(** X3. The next input comes first. When the text at the cursor still
    holds an [input] keyword, the turn takes the first of them, wherever it
    stands: the names go to the inputs, the cursor lands behind the
    keyword, and what stood before the keyword, declarations of outputs
    included, is not read again. *)
Theorem ansi_turn_takes_next_input
    (s pre : string) (m : found) (ins outs inouts : list string) :
  re_search (cat [Lit "input"; ws_plus]) s = Some (pre, m) ->
  s = pre +:+ matched m +:+ rest m
  /\ not_left_of (rest m) (direction_group (rest m)).2
  /\ ansi_step s (ins, outs, inouts)
     = Some ((ins ++ (direction_group (rest m)).1, outs, inouts),
             (direction_group (rest m)).2)
  /\ ansi_loop 0 s (ins, outs, inouts)
     = ansi_loop 0 (direction_group (rest m)).2
                 (ins ++ (direction_group (rest m)).1, outs, inouts).
Proof.
  intros Hsearch.
  assert (Hstep : ansi_step s (ins, outs, inouts)
                  = Some ((ins ++ (direction_group (rest m)).1, outs, inouts),
                          (direction_group (rest m)).2)).
  { unfold ansi_step. rewrite Hsearch. now destruct (direction_group (rest m)). }
  split; [apply (re_search_inv _ _ _ _ Hsearch)|].
  split; [apply direction_group_rest|]. split; [exact Hstep|].
  rewrite ansi_loop_while. destruct s as [|c s0]; [|now rewrite Hstep].
  apply re_search_inv in Hsearch as [Hs Hlen].
  cbn in Hlen. destruct pre; [|discriminate].
  destruct (matched m); [simpl in Hlen; lia|discriminate].
Qed.

Lemma ansi_turn_takes_next_input_witness :
  parse_ansi_port_list "input a, output b, input c" = (["a"; "c"], [], [])
  /\ ansi_loop 0 "output b, input c " (["a"], [], [])
     = ansi_loop 0 "" (["a"; "c"], [], []).
Proof.
  split; [vm_compute; reflexivity|].
  destruct (ansi_turn_takes_next_input "output b, input c " "output b, "
              {| matched := "input "; groups := []; rest := "c " |} ["a"] [] [])
    as (_ & _ & _ & Hloop); [vm_compute; reflexivity|].
  rewrite Hloop. vm_compute. reflexivity.
Defined.

End Cursor.

(** ** The range of a port *)

Section Ranges.
Import Re SystemVerilogParser.
Local Arguments Ascii.eqb : simpl never.

(** A lazy run up to the first closing bracket. *)
Lemma rep_lazy_until {A} (k : string -> option A) (x : A) (rest : string) (width : string) :
  (forall c t, Ascii.eqb "]" c = false -> k (String c t) = None) ->
  k (String "]" rest) = Some x ->
  plain_range width ->
  rep_lazy Py.not_newline (width +:+ String "]" rest) k = Some x.
Proof.
  intros Hk Hx. unfold plain_range. induction width as [|c width IH]; intros Hw.
  - change ("" +:+ String "]" rest) with (String "]" rest). cbn [rep_lazy]. now rewrite Hx.
  - simpl in Hw. apply andb_true_iff in Hw as [Hc Hw]. apply andb_true_iff in Hc as [Hc Hnl].
    apply andb_true_iff in Hc as [_ Hc]. unfold Py.not_char in Hc. apply negb_true_iff in Hc.
    rewrite append_cons. cbn [rep_lazy]. rewrite (Hk _ _ Hc), Hnl. now apply IH.
Qed.

Lemma width_match (width rest : string) :
  plain_range width ->
  re_match width_re (String "[" (width +:+ String "]" rest))
  = Some {| matched := String "[" (width +:+ "]"); groups := [(1, width)]; rest := rest |}.
Proof.
  intros Hw. unfold re_match, width_re, cat. cbn [fold_right rmatch strip_prefix].
  rewrite Ascii.eqb_refl. unfold rep.
  apply rep_lazy_until; [| |exact Hw].
  - intros c t Hc. cbn [strip_prefix]. now rewrite Hc.
  - cbn [strip_prefix]. rewrite Ascii.eqb_refl. f_equal. f_equal.
    + replace (String "[" (width +:+ String "]" rest))
        with (String "[" (width +:+ "]") +:+ rest)
        by now rewrite append_cons, append_assoc.
      apply consumed_app.
    + rewrite consumed_app. reflexivity.
Qed.

Lemma width_search_plain (x y : string) :
  Py.all_chars (fun c => negb (Ascii.eqb c "[")) x = true ->
  re_search width_re (x +:+ y)
  = match re_search width_re y with
    | Some (pre, m) => Some (x +:+ pre, m)
    | None => None
    end.
Proof.
  induction x as [|c x IH]; intros Hx.
  - change ("" +:+ y) with y. now destruct (re_search width_re y) as [[pre m]|].
  - simpl in Hx. apply andb_true_iff in Hx as [Hc Hx]. apply negb_true_iff in Hc.
    rewrite append_cons. cbn [re_search].
    assert (Hnone : re_match width_re (String c (x +:+ y)) = None).
    { unfold re_match, width_re, cat. cbn [fold_right rmatch strip_prefix].
      now rewrite Ascii.eqb_sym, Hc. }
    rewrite Hnone, (IH Hx). now destruct (re_search width_re y) as [[pre m]|].
Qed.

(** X1. Name and range come back. From the text of a port, an identifier
    followed or not by a range in brackets, [extract_port_name] returns the
    identifier and [extract_port_width] the range, empty when there is
    none. *)
Theorem name_and_range_of_entry (e : string * string) :
  listed_entry e ->
  extract_port_name (entry_text e) = e.1 /\ extract_port_width (entry_text e) = e.2.
Proof.
  intros He. split; [now apply extract_port_name_entry|].
  destruct e as [port_name width]. destruct He as [[Hne Hword] Hrange]. simpl in *.
  unfold extract_port_width, entry_text, with_width. simpl.
  destruct width as [|b width']; cbn [is_empty].
  - rewrite <- (append_nil_r port_name).
    rewrite width_search_plain by now apply word_no_bracket.
    reflexivity.
  - change ("[" +:+ String b width' +:+ "]")
      with (String "[" (String b width' +:+ String "]" "")).
    rewrite width_search_plain by now apply word_no_bracket.
    cbn [re_search]. rewrite (width_match _ _ Hrange). reflexivity.
Qed.

Lemma name_and_range_of_entry_witness :
  extract_port_name "data[WIDTH-1:0]" = "data"
  /\ extract_port_width "data[WIDTH-1:0]" = "WIDTH-1:0".
Proof.
  apply (name_and_range_of_entry ("data", "WIDTH-1:0")).
  repeat constructor; discriminate.
Defined.

End Ranges.

(** ** Port lists without directions *)

Section PortLists.
Import Re SystemVerilogParser.
Local Arguments Ascii.eqb : simpl never.

(** A pattern that cannot start at any character of a text changes nothing. *)
Lemma re_sub_no_match (r : regex) (repl : string) (p : ascii -> bool) (s : string) :
  0 < min_len r ->
  (forall c t, p c = true -> re_match r (String c t) = None) ->
  Py.all_chars p s = true -> re_sub r repl s = s.
Proof.
  intros Hmin Hnone. induction s as [|c s IH]; intros Hs; [reflexivity|].
  simpl in Hs. apply andb_true_iff in Hs as [Hc Hs].
  rewrite re_sub_step by exact Hmin. now rewrite (Hnone c s Hc), (IH Hs).
Qed.

Lemma ws_plus_not_space (c : ascii) (t : string) :
  Py.is_space c = false -> re_match ws_plus (String c t) = None.
Proof. intros Hc. unfold re_match, ws_plus. cbn [rmatch]. now rewrite Hc. Qed.

(** One blank before a character that is no whitespace stays one blank. *)
Lemma ws_plus_one_blank (c : ascii) (t : string) :
  Py.is_space c = false ->
  re_sub ws_plus " " (String " " (String c t)) = String " " (re_sub ws_plus " " (String c t)).
Proof.
  intros Hc. rewrite re_sub_step by apply patterns_take_a_character.
  assert (Hmatch : re_match ws_plus (String " " (String c t))
                   = Some {| matched := " "; groups := []; rest := String c t |}).
  { unfold re_match, ws_plus. cbn [rmatch]. change (Py.is_space " ") with true. cbv iota.
    unfold rep. cbn [rep_greedy]. rewrite Hc. f_equal. f_equal.
    change (String " " (String c t)) with (" " +:+ String c t). apply consumed_app. }
  rewrite Hmatch. reflexivity.
Qed.

Lemma ws_plus_word (x y : string) :
  Py.all_chars Py.is_word x = true ->
  re_sub ws_plus " " (x +:+ y) = x +:+ re_sub ws_plus " " y.
Proof.
  induction x as [|c x IH]; [reflexivity|]. simpl. intros H.
  apply andb_true_iff in H as [Hc Hx]. apply word_char in Hc as [Hc _].
  rewrite append_cons, re_sub_step by apply patterns_take_a_character.
  now rewrite (ws_plus_not_space _ _ Hc), (IH Hx).
Qed.

(** The text [a, b, c] made of identifiers. *)
Lemma join_names_clean (names : list string) :
  Forall is_identifier names ->
  re_sub ws_plus " " (Py.join ", " names) = Py.join ", " names
  /\ Py.strip (Py.join ", " names) = Py.join ", " names
  /\ Py.all_chars (fun c => negb (Ascii.eqb c "(")) (Py.join ", " names) = true.
Proof.
  induction names as [|x names IH]; intros Hall; [repeat split; reflexivity|].
  apply Forall_cons in Hall as [[Hne Hword] Hall].
  specialize (IH Hall) as (IHsub & IHstrip & IHparen).
  assert (Hparen : Py.all_chars (fun c => negb (Ascii.eqb c "(")) x = true).
  { revert Hword. apply all_chars_impl. intros c Hc.
    destruct c as [[] [] [] [] [] [] [] []]; vm_compute in Hc; try discriminate Hc;
      reflexivity. }
  assert (Hlstrip : forall t, Py.lstrip (x +:+ t) = x +:+ t).
  { intros t. destruct x as [|a x]; [contradiction|]. simpl in Hword.
    apply andb_true_iff in Hword as [Ha _]. apply word_char in Ha as [Ha _].
    rewrite append_cons. simpl. now rewrite Ha. }
  destruct names as [|y names].
  - change (Py.join ", " [x]) with x. split; [|split].
    + rewrite <- (append_nil_r x) at 1. rewrite ws_plus_word by exact Hword.
      change (re_sub ws_plus " " "") with "". now rewrite append_nil_r.
    + unfold Py.strip. now rewrite lstrip_word, rstrip_word.
    + exact Hparen.
  - rewrite join_cons. set (tail := Py.join ", " (y :: names)) in *.
    apply Forall_cons in Hall as [[Hney Hwordy] _].
    assert (Htail : exists b tail', tail = String b tail' /\ Py.is_space b = false).
    { destruct y as [|b y]; [contradiction|]. simpl in Hwordy.
      apply andb_true_iff in Hwordy as [Hb _]. apply word_char in Hb as [Hb _].
      unfold tail. destruct names as [|z names].
      - exists b, y. auto.
      - rewrite join_cons, append_cons. eauto. }
    destruct Htail as [b [tail' [Htail Hb]]].
    split; [|split].
    + rewrite ws_plus_word by exact Hword.
      change (", " +:+ tail) with (String "," (String " " tail)).
      rewrite re_sub_step by apply patterns_take_a_character.
      rewrite ws_plus_not_space by reflexivity.
      rewrite Htail, ws_plus_one_blank by exact Hb. rewrite <- Htail. now rewrite IHsub.
    + unfold Py.strip in *. rewrite Hlstrip.
      assert (Hr : forall u, Py.rstrip u = u -> u <> "" -> forall v,
                   Py.rstrip (v +:+ u) = v +:+ u).
      { intros u Hu Hune v. induction v as [|c v IHv]; [exact Hu|].
        rewrite append_cons. simpl. rewrite IHv.
        destruct (v +:+ u) eqn:Hvu; [|reflexivity].
        destruct v; [contradiction|discriminate]. }
      change (x +:+ ", " +:+ tail) with (x +:+ (", " +:+ tail)).
      rewrite <- append_assoc. apply Hr; [|rewrite Htail; discriminate].
      rewrite Htail in IHstrip |- *. simpl in IHstrip. rewrite Hb in IHstrip. exact IHstrip.
    + clear -Hparen IHparen. induction x as [|c x IHx]; [exact IHparen|].
      simpl in Hparen. apply andb_true_iff in Hparen as [Hc Hx].
      rewrite append_cons. simpl. now rewrite Hc, IHx.
Qed.

Lemma paren_re_start (c : ascii) (t : string) :
  negb (Ascii.eqb c "(") = true -> re_match paren_re (String c t) = None.
Proof.
  intros Hc. apply negb_true_iff in Hc.
  unfold re_match, paren_re, cat. cbn [fold_right rmatch strip_prefix].
  now rewrite Ascii.eqb_sym, Hc.
Qed.

(** X5. A port list without directions. From identifiers written one after
    the other with a comma and a blank between them, [parse_port_list]
    returns the identifiers, in order. *)
Theorem parse_port_list_of_names (names : list string) :
  Forall is_identifier names ->
  parse_port_list (Py.join ", " names) = names.
Proof.
  intros Hall. destruct (join_names_clean names Hall) as (Hsub & Hstrip & Hparen).
  unfold parse_port_list. rewrite Hsub, Hstrip.
  rewrite (re_sub_no_match paren_re "" (fun c => negb (Ascii.eqb c "(")));
    [|apply patterns_take_a_character|apply paren_re_start|exact Hparen].
  assert (Hentries : Forall listed_entry (List.map (fun x => (x, "")) names)).
  { apply Forall_forall. intros e He.
    apply list_elem_of_In, in_map_iff in He as [x [<- Hx]].
    rewrite Forall_forall in Hall. apply list_elem_of_In, Hall in Hx.
    split; [exact Hx|reflexivity]. }
  pose proof (split_comma_list_bare_entries _ Hentries) as Hsplit.
  rewrite !List.map_map in Hsplit. simpl in Hsplit.
  rewrite !List.map_id in Hsplit. exact Hsplit.
Qed.

Lemma parse_port_list_of_names_witness :
  parse_port_list "clk, rst_n, data_in" = ["clk"; "rst_n"; "data_in"].
Proof.
  apply (parse_port_list_of_names ["clk"; "rst_n"; "data_in"]).
  repeat constructor; discriminate.
Defined.

End PortLists.

(** ** Separate declarations with a range *)

Section RangedDeclarations.
Import Re SystemVerilogParser ParseFile.

Lemma add_declared_grows port_names width (l : list string) : forall acc x,
  x ∈ acc -> x ∈ fold_left (add_declared port_names width) l acc.
Proof.
  induction l as [|p l IH]; intros acc x Hx; [exact Hx|]. simpl. apply IH.
  unfold add_declared.
  destruct (Py.mem p port_names && negb (Py.mem p acc)); [|exact Hx].
  destruct (negb (is_empty width)); apply elem_of_app; now left.
Qed.

Lemma process_grows port_names (blocks : list (string * string)) : forall acc x,
  x ∈ acc ->
  x ∈ fold_left (fun acc '(width, block) =>
                   fold_left (add_declared port_names width) (split_comma_list block) acc)
                blocks acc.
Proof.
  induction blocks as [|[w b] blocks IH]; intros acc x Hx; [exact Hx|]. simpl.
  apply IH. now apply add_declared_grows.
Qed.

(** Where the elements of a list built by the declaration loop come from. *)
Lemma add_declared_elements port_names width (l : list string) : forall acc x,
  x ∈ fold_left (add_declared port_names width) l acc ->
  x ∈ acc
  \/ exists p, p ∈ l /\ x = (if is_empty width then p else with_width width p).
Proof.
  induction l as [|p l IH]; intros acc x Hx; [now left|]. simpl in Hx.
  apply IH in Hx as [Hx|[q [Hq Hx]]].
  - unfold add_declared in Hx.
    destruct (Py.mem p port_names && negb (Py.mem p acc)); [|now left].
    destruct (is_empty width) eqn:Hw; simpl in Hx;
      apply elem_of_app in Hx as [Hx|Hx]; try (now left);
      apply list_elem_of_singleton in Hx; right; exists p; rewrite ?Hw;
      (split; [left|exact Hx]).
  - right. exists q. split; [now right|exact Hx].
Qed.

Lemma process_elements port_names (blocks : list (string * string)) : forall acc x,
  x ∈ fold_left (fun acc '(width, block) =>
                   fold_left (add_declared port_names width) (split_comma_list block) acc)
                blocks acc ->
  x ∈ acc
  \/ exists width block p,
       (width, block) ∈ blocks /\ p ∈ split_comma_list block
       /\ x = (if is_empty width then p else with_width width p).
Proof.
  induction blocks as [|[w b] blocks IH]; intros acc x Hx; [now left|]. simpl in Hx.
  apply IH in Hx as [Hx|(w' & b' & p & Hin & Hp & Hx)].
  - apply add_declared_elements in Hx as [Hx|[p [Hp Hx]]]; [now left|].
    right. exists w, b, p. split; [left|]. auto.
  - right. exists w', b', p. split; [now right|]. auto.
Qed.

Lemma with_width_bracket (width p : string) : Py.contains_char "[" (with_width width p) = true.
Proof.
  unfold with_width. rewrite contains_char_app.
  change ("[" +:+ width +:+ "]") with (String "[" (width +:+ "]")).
  cbn [Py.contains_char]. rewrite Ascii.eqb_refl. apply orb_true_r.
Qed.

(** A name without a bracket is in the list of a direction only when a
    declaration without a range names it. *)
Lemma bare_name_declared port_names (blocks : list (string * string)) (port : string) :
  Py.contains_char "[" port = false ->
  port ∈ process_blocks port_names blocks ->
  port ∈ declared_names (List.filter (fun wb => is_empty wb.1) blocks).
Proof.
  intros Hbare Hin. unfold process_blocks in Hin.
  apply process_elements in Hin as [Hin|(w & b & p & Hwb & Hp & Heq)];
    [now apply elem_of_nil in Hin|].
  destruct (is_empty w) eqn:Hw.
  - subst p. unfold declared_names. apply list_elem_of_In, in_concat.
    exists (split_comma_list b). split; [|now apply list_elem_of_In].
    apply in_map_iff. exists (w, b). split; [reflexivity|].
    apply filter_In. split; [now apply list_elem_of_In|exact Hw].
  - rewrite Heq, with_width_bracket in Hbare. discriminate.
Qed.

(** A declaration with a range of a listed name that is not in the list
    under its bare name puts the name with that range in the list. *)
Lemma add_declared_ranged port_names width (l : list string) (port : string) : forall acc,
  is_empty width = false -> Py.mem port port_names = true -> port ∈ l ->
  port ∈ fold_left (add_declared port_names width) l acc
  \/ with_width width port ∈ fold_left (add_declared port_names width) l acc.
Proof.
  intros acc Hw Hlisted. revert acc. induction l as [|p l IH]; intros acc Hport;
    [now apply elem_of_nil in Hport|].
  simpl. apply elem_of_cons in Hport as [<-|Hport]; [|now apply IH].
  destruct (Py.mem port acc) eqn:Hacc.
  - left. apply add_declared_grows. unfold add_declared. rewrite Hlisted, Hacc. simpl.
    now apply list_elem_of_In, py_mem_In.
  - right. apply add_declared_grows. unfold add_declared. rewrite Hlisted, Hacc, Hw. simpl.
    apply elem_of_app. right. left.
Qed.

Lemma process_ranged port_names (blocks : list (string * string))
    (width block port : string) : forall acc,
  (width, block) ∈ blocks -> is_empty width = false ->
  Py.mem port port_names = true -> port ∈ split_comma_list block ->
  port ∈ fold_left (fun acc '(width, block) =>
                      fold_left (add_declared port_names width) (split_comma_list block) acc)
                   blocks acc
  \/ with_width width port
       ∈ fold_left (fun acc '(width, block) =>
                      fold_left (add_declared port_names width) (split_comma_list block) acc)
                   blocks acc.
Proof.
  intros acc Hin Hw Hlisted Hport. revert acc.
  induction blocks as [|[w b] blocks IH]; intros acc; [now apply elem_of_nil in Hin|].
  simpl. apply elem_of_cons in Hin as [Heq|Hin]; [|now apply IH].
  injection Heq as <- <-.
  destruct (add_declared_ranged port_names width (split_comma_list block) port acc
              Hw Hlisted Hport) as [H|H]; [left|right]; now apply process_grows.
Qed.

(** X20. A listed port declared with a range only. With separate
    declarations, a name of the port list that no declaration without a
    range names is in none of the three lists under its own name, because
    the lists hold it with its range: the loop for implicit inputs adds it
    to the inputs. A port declared as [output [3:0] y] is thus stored as
    the output [y[3:0]] and as the input [y]. *)
Theorem ranged_output_is_also_input
    (module_match : found) (port width block : string) :
  parse_ansi_port_list (group 2 (groups module_match)) = ([], [], []) ->
  port ∈ parse_port_list (group 2 (groups module_match)) ->
  Py.contains_char "[" port = false ->
  Forall (fun dir =>
            port ∉ declared_names
                     (List.filter (fun wb => is_empty wb.1)
                                  (find_blocks dir (group 3 (groups module_match)))))
         ["input"; "output"; "inout"] ->
  (width, block) ∈ find_blocks "output" (group 3 (groups module_match)) ->
  is_empty width = false ->
  port ∈ split_comma_list block ->
  port ∈ inputs (module_entry module_match).2
  /\ with_width width port ∈ outputs (module_entry module_match).2.
Proof.
  intros Hansi Hlisted Hbare Hnever Hblock Hw Hport.
  apply Forall_cons in Hnever as [Hin Hnever]. apply Forall_cons in Hnever as [Hout Hnever].
  apply Forall_cons in Hnever as [Hinout _].
  set (port_names := parse_port_list (group 2 (groups module_match))) in *.
  set (body := group 3 (groups module_match)) in *.
  rewrite (module_entry_separate module_match
             (process_blocks port_names (find_blocks "input" body))
             (process_blocks port_names (find_blocks "output" body))
             (process_blocks port_names (find_blocks "inout" body)) Hansi eq_refl).
  cbn [snd inputs outputs]. fold port_names.
  assert (Hnot : forall dir,
            port ∉ declared_names
                     (List.filter (fun wb => is_empty wb.1) (find_blocks dir body)) ->
            Py.mem port (process_blocks port_names (find_blocks dir body)) = false).
  { intros dir Hdir. apply not_true_iff_false. intros Hmem. apply Hdir.
    apply py_mem_In, list_elem_of_In in Hmem. now apply (bare_name_declared port_names). }
  split.
  - apply elem_of_app. right. apply first_declarations_subset.
    apply list_elem_of_In, filter_In. split; [now apply list_elem_of_In|].
    now rewrite (Hnot _ Hin), (Hnot _ Hout), (Hnot _ Hinout).
  - apply elem_of_app. left.
    assert (Hmem : Py.mem port port_names = true) by now apply py_mem_In, list_elem_of_In.
    destruct (process_ranged port_names _ width block port [] Hblock Hw Hmem Hport)
      as [Hbad|Hgood]; [|exact Hgood].
    exfalso. apply Hout. now apply (bare_name_declared port_names).
Qed.

Lemma ranged_output_found :
  re_finditer module_pattern "module m(a, y); input a; output [3:0] y; endmodule"
  = [Examples.ranged_output].
Proof. vm_compute. reflexivity. Qed.

Lemma ranged_output_is_also_input_witness :
  module_entry Examples.ranged_output
  = ("m", {| inputs := ["a"; "y"]; outputs := ["y[3:0]"] |})
  /\ "y" ∈ inputs (module_entry Examples.ranged_output).2
  /\ "y[3:0]" ∈ outputs (module_entry Examples.ranged_output).2.
Proof.
  split; [vm_compute; reflexivity|].
  apply (ranged_output_is_also_input Examples.ranged_output "y" "3:0" "y").
  - vm_compute. reflexivity.
  - vm_compute. apply list_elem_of_further, list_elem_of_here.
  - reflexivity.
  - apply (bool_decide_unpack _). vm_compute. exact I.
  - vm_compute. apply list_elem_of_here.
  - reflexivity.
  - vm_compute. apply list_elem_of_here.
Defined.

End RangedDeclarations.

(** ** A module name defined more than once *)

Section DuplicateModules.
Import Re SystemVerilogParser ParseFile.

Lemma parse_content_fold (l : list found) : forall st,
  (for_each l (fun module_match =>
                 let '(module_name, entry) := module_entry module_match in
                 store module_name entry) st).1
  = fold_left (fun d module_match =>
                 Dict.set (module_entry module_match).1 (module_entry module_match).2 d)
              l st.
Proof.
  induction l as [|m l IH]; intros st; [reflexivity|].
  cbn [for_each fold_left]. unfold bind at 1.
  destruct (module_entry m) as [module_name entry] eqn:Hentry. cbn [store fst snd].
  apply IH.
Qed.

Lemma keys_set {V} (k : string) (v : V) (d : Dict.t string V) :
  Dict.keys (Dict.set k v d)
  = if Dict.mem k d then Dict.keys d else Dict.keys d ++ [k].
Proof.
  induction d as [|[k' v'] d IH]; [reflexivity|]. simpl.
  destruct (decide (k' = k)) as [->|Hne]; simpl.
  - now rewrite bool_decide_eq_true_2.
  - rewrite bool_decide_eq_false_2 by exact Hne. simpl.
    rewrite IH. now destruct (Dict.mem k d).
Qed.

Lemma set_keeps_NoDup {V} (k : string) (v : V) (d : Dict.t string V) :
  NoDup (Dict.keys d) -> NoDup (Dict.keys (Dict.set k v d)).
Proof.
  intros Hd. rewrite keys_set. destruct (Dict.mem k d) eqn:Hmem; [exact Hd|].
  apply NoDup_app. split; [exact Hd|]. split; [|apply NoDup_singleton].
  intros x Hx Hk. apply list_elem_of_singleton in Hk. subst x.
  apply not_true_iff_false in Hmem. apply Hmem.
  unfold Dict.mem. apply existsb_exists.
  apply list_elem_of_In, in_map_iff in Hx as [[k' v'] [Hk' Hin]]. simpl in Hk'. subst k'.
  exists (k, v'). split; [exact Hin|]. now apply bool_decide_eq_true.
Qed.

(** X21. The last definition wins. When a text defines a module name more
    than once, the dictionary [parse_file] fills holds one entry for the
    name, the interface of the last of these definitions; the keys are
    pairwise distinct. *)
Theorem last_definition_wins (content module_name : string) :
  Dict.get module_name (interfaces_of content)
  = option_map snd
      (List.find (fun entry => String.eqb entry.1 module_name)
                 (rev (List.map module_entry
                         (re_finditer module_pattern (remove_comments content)))))
  /\ NoDup (Dict.keys (interfaces_of content)).
Proof.
  unfold interfaces_of, parse_content. rewrite parse_content_fold.
  set (l := re_finditer module_pattern (remove_comments content)). clearbody l.
  induction l as [|m l IH] using rev_ind.
  - split; [reflexivity|constructor].
  - rewrite fold_left_app, List.map_app, rev_app_distr. cbn [fold_left List.map rev app List.find].
    destruct IH as [IHget IHkeys]. split; [|now apply set_keeps_NoDup].
    destruct (String.eqb_spec (module_entry m).1 module_name) as [<-|Hne].
    + now rewrite get_set_same.
    + now rewrite get_set_other.
Qed.

End DuplicateModules.

(** ** Several instances under the release point *)

Section StackedInstances.
Import ModuleItemImpl DesignCanvasImpl Designer.

Lemma has_incoming_snoc (ws : list WireItem) (w : WireItem) (m : ModuleItem) (p : string) :
  has_incoming (ws ++ [w]) m p
  = has_incoming ws m p || (same_module (end_module w) m && String.eqb (end_port w) p).
Proof. unfold has_incoming. rewrite existsb_app. simpl. now rewrite orb_false_r. Qed.

Lemma release_fold_forward hit (src : ModuleItem) (src_port : string)
    (l : list ModuleItem) : forall ws next valid,
  NoDup (List.map item_id l) ->
  Py.mem src_port (outputs (ports src)) = true ->
  (forall m p, m ∈ l -> same_module m src = false -> hit m = Some p ->
               Py.mem p (inputs (ports m)) = true /\ has_incoming ws m p = false) ->
  exists valid',
    fold_left (release_step hit) l
      {| d_start_module := src; d_start_port := src_port; valid_connection := valid;
         d_wires := ws; d_next_id := next; d_warnings := [] |}
    = {| d_start_module := src; d_start_port := src_port; valid_connection := valid';
         d_wires := ws ++ wires_to src src_port hit next (hit_targets src hit l);
         d_next_id := next + length (hit_targets src hit l); d_warnings := [] |}.
Proof.
  induction l as [|m l IH]; intros ws next valid Hids Hout Hfree.
  - exists valid. simpl. now rewrite app_nil_r, Nat.add_0_r.
  - simpl in Hids. apply NoDup_cons in Hids as [Hm Hids].
    assert (Hfree' : forall m' p, m' ∈ l -> same_module m' src = false -> hit m' = Some p ->
              Py.mem p (inputs (ports m')) = true /\ has_incoming ws m' p = false).
    { intros m' p Hm'. apply Hfree. now right. }
    cbn [fold_left]. unfold release_step at 2. cbn [d_start_module].
    unfold hit_targets. cbn [List.filter]. fold (hit_targets src hit l).
    destruct (same_module m src) eqn:Hsame; cbn [negb andb]; [now apply IH|].
    destruct (hit m) as [p|] eqn:Hhit; [|now apply IH].
    destruct (Hfree m p (list_elem_of_here _ _) Hsame Hhit) as [Hin Hnot].
    rewrite release_on_forward; [|exact Hout|exact Hin|exact Hnot].
    cbn [d_start_module d_start_port d_wires d_next_id d_warnings].
    destruct (IH (ws ++ [{| wire_id := next; start_module := src; end_module := m;
                            start_port := src_port; end_port := p |}])
                 (S next) true Hids Hout) as [valid' Hfold].
    + intros m' p' Hm' Hsame' Hhit'. destruct (Hfree' m' p' Hm' Hsame' Hhit') as [Hin' Hnot'].
      split; [exact Hin'|]. rewrite has_incoming_snoc, Hnot'. cbn [end_module orb].
      assert (Hne : same_module m m' = false).
      { apply not_true_iff_false. intros Heq. apply same_module_eq in Heq.
        apply Hm. rewrite Heq. apply list_elem_of_In, in_map. now apply list_elem_of_In. }
      now rewrite Hne.
    + exists valid'. rewrite Hfold. cbn [wires_to length]. rewrite Hhit. cbn [default].
      rewrite <- app_assoc. cbn [app]. f_equal. lia.
Qed.

(** X22. One wire for every instance under the release point. The search
    for the port under the release point goes on after a wire has been
    made. On a reachable canvas, when a wire drawn from an output is
    released where free input ports of several other instances lie, as
    with instances that still lie where they were placed, every one of
    them gets a wire from that output, in the order of [modules], and no
    warning is shown. *)
Theorem release_connects_every_hit
    (self : DesignCanvas) (src : ModuleItem) (src_port : string)
    (hit : ModuleItem -> option string) :
  reachable self ->
  Py.mem src_port (outputs (ports src)) = true ->
  (forall m p, m ∈ Dict.values (modules self) -> same_module m src = false ->
               hit m = Some p ->
               Py.mem p (inputs (ports m)) = true
               /\ has_incoming (wires self) m p = false) ->
  mouseReleaseEvent self src src_port hit
  = ({| modules := modules self;
        wires := wires self
                 ++ wires_to src src_port hit (next_id self)
                             (hit_targets src hit (Dict.values (modules self)));
        next_id := next_id self
                   + length (hit_targets src hit (Dict.values (modules self))) |},
     []).
Proof.
  intros Hreach Hout Hfree.
  pose proof (wf_ids _ _ _ (reachable_ok self Hreach)) as Hids.
  destruct (release_fold_forward hit src src_port (Dict.values (modules self))
              (wires self) (next_id self) false Hids Hout Hfree) as [valid' Hfold].
  unfold mouseReleaseEvent. rewrite Hfold. reflexivity.
Qed.

Lemma reachable_three_adders : reachable Examples.three_adders.
Proof.
  apply (reachable_step Examples.chained); [exact reachable_chained|].
  apply (step_add Examples.chained "adder" Examples.adder_ports _
           {| inputs := ["a"; "b"]; outputs := ["sum"] |}).
  vm_compute. reflexivity.
Qed.

Lemma release_connects_every_hit_witness :
  List.map wire_name
    (wires (mouseReleaseEvent Examples.three_adders
              (Examples.item_named Examples.three_adders "adder") "sum"
              Examples.on_both).1)
  = ["w_adder_sum_to_adder_1_a"; "w_adder_sum_to_adder_1_b"; "w_adder_sum_to_adder_2_b"].
Proof.
  rewrite (release_connects_every_hit Examples.three_adders
             (Examples.item_named Examples.three_adders "adder") "sum" Examples.on_both).
  - vm_compute. reflexivity.
  - exact reachable_three_adders.
  - reflexivity.
  - intros m p Hm. vm_compute in Hm.
    apply elem_of_cons in Hm as [->|Hm]; [intros Hsame; discriminate Hsame|].
    apply elem_of_cons in Hm as [->|Hm];
      [intros _ Hhit; injection Hhit as <-; split; reflexivity|].
    apply list_elem_of_singleton in Hm as ->.
    intros _ Hhit. injection Hhit as <-. split; reflexivity.
Defined.

End StackedInstances.
